(** * yard-pilot: the coverage planner, embedded and checked

    The planning pipeline of the repository (boundary conditioner, hull and
    minimum bounding box, coverage grid, Voronoi roadmap, clear-path router,
    sweep driver, pruning and markers) is translated function by function
    from the TypeScript sources.  The geometry library (turf.js) and the
    JavaScript number type are not part of the repository: they enter as the
    two interfaces [JsNumber] and [Turf], and every result below holds for
    all their implementations (for those that satisfy the laws it names,
    where it names some).  A small exact planar implementation over
    integer coordinates is given at the end of the definitions and is used
    to run the embedded code on concrete inputs. *)

From Stdlib Require Import ZArith.
From Stdlib Require DecimalString.
From stdpp Require Import base option list gmap strings pretty numbers sorting.

Local Open Scope nat_scope.

(** ** Outcomes of a call

    A call returns, throws, or (for the embedding of the [while] loops only)
    exhausts the unrolling budget it was given. *)

Inductive exn : Type :=
  | MbbError        (* throw new Error('Unable to calculate minimum bounding box') *)
  | TurfError       (* an argument check of the geometry library failed *)
  | TypeError.      (* a property was read from undefined or null *)

Inductive res (A : Type) : Type :=
  | Ret (a : A)
  | Throw (e : exn)
  | OutOfFuel.
Arguments Ret {A} a.
Arguments Throw {A} e.
Arguments OutOfFuel {A}.

Global Instance res_ret : MRet res := @Ret.
Global Instance res_bind : MBind res := λ A B f m,
  match m with
  | Ret a => f a
  | Throw e => Throw e
  | OutOfFuel => OutOfFuel
  end.
Global Instance res_fmap : FMap res := λ A B f m,
  match m with
  | Ret a => Ret (f a)
  | Throw e => Throw e
  | OutOfFuel => OutOfFuel
  end.

(** [xs.forEach] / [for] with a body that may throw. *)
Fixpoint foldM {A S : Type} (f : S → A → res S) (s : S) (l : list A) : res S :=
  match l with
  | [] => Ret s
  | x :: l' => s' ← f s x; foldM f s' l'
  end.

(** [x!] and [x.prop] on a possibly undefined value. *)
Definition defined {A : Type} (o : option A) : res A :=
  match o with
  | Some a => Ret a
  | None => Throw TypeError
  end.

(** A possibly undefined coordinate handed to the geometry library, which
    checks it ("coord is required"). *)
Definition required {A : Type} (o : option A) : res A :=
  match o with
  | Some a => Ret a
  | None => Throw TurfError
  end.

(** ** JavaScript numbers

    The operations of the number type that the planner uses.  [dec m e] is
    the decimal literal [m / 10^e]. *)

Class JsNumber : Type := {
  num : Type;
  nlt : num → num → bool;          (* a < b *)
  nseq : num → num → bool;         (* a === b *)
  nadd : num → num → num;
  nsub : num → num → num;
  nmul : num → num → num;
  ndiv : num → num → num;
  nneg : num → num;
  dec : Z → nat → num;
  Infinity : num;
  NaN : num;
  truthy : num → bool;             (* the operand test of [||] *)
  toFixed : num → nat → string;    (* value.toFixed(digits) *)
  Number : string → num            (* Number(text) *)
}.

Definition ngt `{JsNumber} (a b : num) : bool := nlt b a.
Definition ofnat `{JsNumber} (n : nat) : num := dec (Z.of_nat n) 0.

(** The two facts about IEEE doubles that the coverage ratio relies on. *)
Class JsNumberLaws `{JsNumber} : Prop := {
  ndiv_zero_zero : ndiv (ofnat 0) (ofnat 0) = NaN;
  nlt_NaN_l : ∀ x, nlt NaN x = false
}.

(** The order facts about IEEE doubles that a search for a least value
    relies on: [<] is irreflexive and transitive (NaN is below nothing and
    nothing is below NaN). *)
Class JsOrderLaws `{JsNumber} : Prop := {
  nlt_irrefl : ∀ x, nlt x x = false;
  nlt_trans : ∀ x y z, nlt x y = true → nlt y z = true → nlt x z = true
}.

(** The facts about a difference [a - b] of doubles behind a comparator: it
    is positive exactly when [b < a], and it is neither zero nor NaN exactly
    when one operand is below the other. *)
Class JsSubtractionLaws `{JsNumber} : Prop := {
  nsub_positive : ∀ a b, nlt (dec 0 0) (nsub a b) = nlt b a;
  nsub_truthy : ∀ a b, truthy (nsub a b) = nlt a b || nlt b a
}.

(** ** GeoJSON data

    Coordinates are [lon, lat] pairs.  A polygon is the array of its rings,
    as in [geometry.coordinates]; feature properties are kept only where the
    planner reads them (the grid cells). *)

Abbreviation Position := (num * num)%type.
Abbreviation LineString := (list Position).
Abbreviation Ring := (list Position).
Abbreviation Polygon := (list Ring).
Abbreviation MultiPolygon := (list Polygon).
Abbreviation BBox := (num * num * num * num)%type.

Section GeoJSON.
Context `{JsNumber}.

Inductive Units : Type := meters | kilometers.

(** What [turf.lineSplit] is given as its splitter. *)
Inductive Splitter : Type :=
  | SplitLine (l : LineString)
  | SplitMulti (m : MultiPolygon).

Inductive Visit : Type := unvisited | visited | unvisitable.

Global Instance Visit_eq_dec : EqDecision Visit.
Proof. solve_decision. Defined.

Record Cell : Type := mkCell {
  geometry : Polygon;
  gridRow : nat;
  gridCol : nat;
  visitState : Visit;             (* properties.visited *)
  cellCentroid : Position         (* properties.centroid *)
}.

Definition positionEq (a b : Position) : bool :=
  nseq a.1 b.1 && nseq a.2 b.2.

(** [turf.lineString(coordinates)]: the helper refuses fewer than two
    positions. *)
Definition lineString (coordinates : list Position) : res LineString :=
  if decide (length coordinates < 2) then Throw TurfError else Ret coordinates.

(** [turf.polygon(coordinates)]: every ring needs four positions or more
    and must close on its first position. *)
Definition ringOk (ring : Ring) : bool :=
  bool_decide (4 ≤ length ring) &&
  match head ring, list.last ring with
  | Some a, Some b => positionEq b a
  | _, _ => false
  end.

Definition polygon (coordinates : Polygon) : res Polygon :=
  if forallb ringOk coordinates then Ret coordinates else Throw TurfError.

(** [turf.coordAll] of a feature and of a feature collection. *)
Definition coordAll (p : Polygon) : list Position := concat p.
Definition coordAllFC (fc : list Polygon) : list Position :=
  concat (coordAll <$> fc).

(** [polygon.geometry.coordinates[0]]. *)
Definition ring0 (p : Polygon) : res Ring := defined (head p).

(** The number of coordinates that [turf.coordEach] visits in a polygon when
    it leaves out the closing coordinate of every ring. *)
Definition coordCount (p : Polygon) : nat :=
  sum_list ((λ ring : Ring, length ring - 1) <$> p).
End GeoJSON.

(** ** The geometry library *)

Class Turf `{JsNumber} : Type := {
  lineSplit : LineString → Splitter → list LineString;
  convex : Polygon → option Polygon;
  centroid : Polygon → Position;
  bearing : Position → Position → num;
  transformRotate : Polygon → num → Position → Polygon;
  bbox : Polygon → BBox;
  bboxPolygon : BBox → Polygon;
  area : Polygon → num;
  booleanWithin : Polygon → Polygon → bool;
  difference : list Polygon → option Polygon;
  buffer : Polygon → num → Units → option Polygon;
  squareGrid : BBox → num → Units → list Polygon;
  booleanContains : Polygon → Position → bool;
  voronoi : list Position → BBox → option (list Polygon);
  booleanDisjoint : Polygon → Polygon → bool;
  booleanDisjointLine : LineString → Polygon → bool;
  intersect : list Polygon → option Polygon;
  polygonToLine : Polygon → LineString;
  lineLength : LineString → Units → num;
  nearestPointOnLine : LineString → Position → Position;
  destination : Position → num → num → Units → Position;
  distance : Position → Position → Units → num;
  midpoint : Position → Position → Position;
  circle : Position → num → nat → Units → Polygon
}.

(** The fact about regions that the boundary conditioner relies on: what
    [turf.difference] leaves of its first polygon lies inside that polygon,
    so a polygon within the difference is within the first polygon. *)
Class TurfDifferenceLaws `{Turf} : Prop := {
  within_difference :
    ∀ (first : Polygon) (others : list Polygon) (left inner : Polygon),
      difference (first :: others) = Some left →
      booleanWithin inner left = true → booleanWithin inner first = true
}.

(** * src/utils/boundaries.ts *)

(** The state of the calipers loop: [minArea], [bestBoundingBox], [angle]. *)
Abbreviation Calipers := (num * option Polygon * num)%type.

Section Boundaries.
Context `{Turf}.

Definition isPathClear (segment : LineString) (polygonsToAvoid : MultiPolygon) : bool :=
  bool_decide (length (lineSplit segment (SplitMulti polygonsToAvoid)) = 0).

Definition getConvexHull (boundary : Polygon) : option Polygon := convex boundary.

(** [turf.centroid(convexHull)]: the library averages the coordinates of the
    rings, each without its closing coordinate, and builds a point from the
    two means.  With no coordinate to average the means are [0 / 0] and the
    point is refused ("coordinates must contain numbers"); [centroid] of the
    interface is the point that is built otherwise.  (The other calls of
    [turf.centroid] are on polygons that have a coordinate to average: a
    bounding box whose first two coordinates have just been read, and the
    cells of [turf.squareGrid].) *)
Definition centroidOf (polygon : Polygon) : res Position :=
  if decide (coordCount polygon = 0) then Throw TurfError else Ret (centroid polygon).

Definition calipersStep (convexHull : Polygon) (hull : Ring) (numPoints : nat)
    (pivot : Position) (st : Calipers) (i : nat) : res Calipers :=
  let '(minArea, bestBoundingBox, _) := st in
  currentPoint ← required (hull !! i);
  nextPoint ← required (hull !! ((i + 1) `mod` numPoints));
  let angle := bearing currentPoint nextPoint in
  let rotatedHull := transformRotate convexHull (nneg angle) pivot in
  let box := bboxPolygon (bbox rotatedHull) in
  let bboxArea := area box in
  if nlt bboxArea minArea
  then Ret (bboxArea, Some (transformRotate box angle pivot), angle)
  else Ret (minArea, bestBoundingBox, angle).

Definition calipersLoop (convexHull : Polygon) (hull : Ring) (numPoints : nat)
    (pivot : Position) : res Calipers :=
  foldM (calipersStep convexHull hull numPoints pivot)
        (Infinity, None, dec 0 0) (seq 0 numPoints).

(** The rectangle that replaces the winner when the offset is positive. *)
Definition offsetBox (convexHull : Polygon) (pivot : Position) (angle orientation : num)
    : Polygon :=
  let rotatedHull := transformRotate convexHull (nneg (nadd angle orientation)) pivot in
  let box := bboxPolygon (bbox rotatedHull) in
  transformRotate box (nadd angle orientation) pivot.

Definition getMinBoundingBox (convexHull : Polygon) (orientation : num) : res Polygon :=
  hull ← ring0 convexHull;
  let numPoints := length hull - 1 in
  pivot ← centroidOf convexHull;
  '(_, bestBoundingBox, angle) ← calipersLoop convexHull hull numPoints pivot;
  let bestBoundingBox :=
    if ngt orientation (dec 0 0)
    then Some (offsetBox convexHull pivot angle orientation)
    else bestBoundingBox in
  match bestBoundingBox with
  | None => Throw MbbError
  | Some best => polygon best
  end.

Definition differenceObstaclesFromBoundary (boundary : Polygon)
    (obstacles : option (list Polygon)) : option Polygon :=
  match obstacles with
  | None => Some boundary
  | Some obs =>
      let intersectingObstacles :=
        filter (λ obstacle, booleanWithin obstacle boundary = false) obs in
      if decide (length intersectingObstacles = 0) then Some boundary
      else difference (boundary :: intersectingObstacles)   (* cast to a polygon *)
  end.

Definition removeOrphanedObstacles (boundary : Polygon)
    (obstacles : option (list Polygon)) : option (list Polygon) :=
  match obstacles with
  | None => None
  | Some obs => Some (filter (λ obstacle, booleanWithin obstacle boundary = true) obs)
  end.
End Boundaries.


(** * src/utils/coverage-grid.ts *)

Section CoverageGrid.
Context `{Turf}.

(** The loop that numbers the cells of the generated grid: a change of the
    centroid's first coordinate starts a new row. *)
Definition numberCell (st : nat * nat * option Position * list (Polygon * nat * nat))
    (cell : Polygon) : nat * nat * option Position * list (Polygon * nat * nat) :=
  let '(rowIndex, colIndex, previous, done) := st in
  let cellCentroid := centroid cell in
  let '(rowIndex, colIndex) :=
    match previous with
    | None => (rowIndex, colIndex)
    | Some previousCentroid =>
        if negb (nseq cellCentroid.1 previousCentroid.1)
        then (rowIndex + 1, 0)
        else (rowIndex, colIndex + 1)
    end in
  (rowIndex, colIndex, Some cellCentroid, done ++ [(cell, rowIndex, colIndex)]).

Definition numberCells (grid : list Polygon) : list (Polygon * nat * nat) :=
  (foldl numberCell (0, 0, None, []) grid).2.

(** The obstacle loop of the labelling, with its [break]. *)
Fixpoint obstacleScan (obstaclesPolygons : list Polygon) (cellCentroid : Position)
    (visitState : Visit) : Visit :=
  match obstaclesPolygons with
  | [] => visitState
  | obstacle :: rest =>
      if booleanContains obstacle cellCentroid then unvisitable
      else obstacleScan rest cellCentroid visitState
  end.

Definition markCell (boundaryPolygon : option Polygon) (obstaclesPolygons : list Polygon)
    (feature : Polygon * nat * nat) : res Cell :=
  let '(cellPolygon, row, col) := feature in
  let cellCentroid := centroid cellPolygon in
  eroded ← defined boundaryPolygon;
  let visitState :=
    if booleanContains eroded cellCentroid
    then obstacleScan obstaclesPolygons cellCentroid unvisited
    else unvisitable in
  Ret (mkCell cellPolygon row col visitState cellCentroid).

Fixpoint mapM {A B : Type} (f : A → res B) (l : list A) : res (list B) :=
  match l with
  | [] => Ret []
  | x :: l' => y ← f x; ys ← mapM f l'; Ret (y :: ys)
  end.

Definition getCoverageGrid (boundary : Polygon) (obstacles : option (list Polygon))
    (mbb : Polygon) (laneWidth : num) (startPoint : num) : res (list Cell) :=
  let boundaryPolygon := buffer boundary (dec (-1) 2) meters in
  let obstaclesPolygons := default [] obstacles in
  ring ← ring0 mbb;
  p1 ← required (ring !! 0);
  p2 ← required (ring !! 1);
  let angle := bearing p1 p2 in
  let pivot := centroid mbb in
  let quarter := nmul (dec 90 0) startPoint in
  let rotatedMbb := transformRotate mbb (nadd (nneg angle) quarter) pivot in
  let rotatedMbbBoundingBox := bbox rotatedMbb in
  let grid := squareGrid rotatedMbbBoundingBox laneWidth meters in
  let numbered := numberCells grid in
  let alignedGrid :=
    (λ f : Polygon * nat * nat,
       (transformRotate f.1.1 (nsub angle quarter) pivot, f.1.2, f.2)) <$> numbered in
  mapM (markCell boundaryPolygon obstaclesPolygons) alignedGrid.

Definition getTravelHeading (coverageGrid : list Cell) : res num :=
  let row := filter (λ feature, gridRow feature = 0) coverageGrid in
  startCell ← defined (head row);
  endCell ← defined (list.last row);
  let b := bearing (centroid (geometry startCell)) (centroid (geometry endCell)) in
  Ret (if nlt b (dec 0 0) then nadd b (dec 360 0) else b).
End CoverageGrid.

(** * src/utils/voronoi-roadmap.ts *)

Definition FIXED_PRECISION : nat := 6.

(** A point fingerprint.  The source writes it as the string
    [JSON.stringify(p.map(v => v.toFixed(6)))]; the embedding keeps the pair
    of formatted coordinates that this string encodes. *)
Abbreviation Key := (string * string)%type.
Abbreviation SegmentKey := (Key * Key)%type.

Section Roadmap.
Context `{Turf}.

Definition pointKey (p : Position) : Key :=
  (toFixed p.1 FIXED_PRECISION, toFixed p.2 FIXED_PRECISION).

(** The comparator [(a, b) => a[0] - b[0] || a[1] - b[1]]. *)
Definition compareCoords (a b : Position) : num :=
  let d := nsub a.1 b.1 in
  if truthy d then d else nsub a.2 b.2.

(** [segmentCoords.sort(...)] on a pair: the two are exchanged exactly when
    the comparator is positive.  The sort is in place, so the caller's pair
    is sorted too; both the sorted pair and the key are returned. *)
Definition getSegmentKey (segmentCoords : Position * Position)
    : (Position * Position) * SegmentKey :=
  let '(a, b) := segmentCoords in
  let sortedCoords := if ngt (compareCoords a b) (dec 0 0) then (b, a) else (a, b) in
  (sortedCoords, (pointKey sortedCoords.1, pointKey sortedCoords.2)).

Definition isIntersectingObstacles (segment : LineString) (obstacles : list Polygon) : bool :=
  existsb (λ obstacle, negb (booleanDisjointLine segment obstacle)) obstacles.

Definition getVoronoiPoints (boundary : Polygon) (obstacles : list Polygon) : list Position :=
  let points := coordAll boundary ++ coordAllFC obstacles in
  (foldl (λ (st : gset Key * list Position) point,
            let key := pointKey point in
            if decide (key ∈ st.1) then st
            else ({[key]} ∪ st.1, st.2 ++ [point]))
         (∅, []) points).2.

(** The first two coordinates of a line, [const [start, end] = coordinates];
    formatting an undefined one throws. *)
Definition startEnd (segment : LineString) : res (Position * Position) :=
  match segment with
  | start :: end_ :: _ => Ret (start, end_)
  | _ => Throw TypeError
  end.

(** [set.add(key)] on a set that is later iterated in insertion order. *)
Definition setAdd (k : Key) (s : list Key) : list Key :=
  if decide (k ∈ s) then s else s ++ [k].

Definition countEndpoint (st : gmap Key nat * list Key) (k : Key)
    : gmap Key nat * list Key :=
  let '(pointMap, branchPointKeys) := st in
  let n := default 0 (pointMap !! k) + 1 in
  (<[k := n]> pointMap, if decide (2 < n) then setAdd k branchPointKeys else branchPointKeys).

Definition identifyBranchPoints (segments : list LineString) : res (list Key) :=
  st ← foldM (λ st segment,
                '(start, end_) ← startEnd segment;
                Ret (countEndpoint (countEndpoint st (pointKey start)) (pointKey end_)))
             (∅, []) segments;
  Ret st.2.

Definition pushAdj {V : Type} (k : Key) (v : V) (m : gmap Key (list V)) : gmap Key (list V) :=
  <[k := default [] (m !! k) ++ [v]]> m.

(** One edge of the inner [for] loop of the junction walk.  The state is
    [visitedSegments], the stack (top first) and [connectedSegments]. *)
Definition walkEdge (branchPoints : list Key) (key : Key) (path : list Position)
    (st : gset SegmentKey * list (Key * list Position) * list LineString)
    (edge : LineString) : res (gset SegmentKey * list (Key * list Position) * list LineString) :=
  let '(visitedSegments, stack, connectedSegments) := st in
  '(start, end_) ← startEnd edge;
  let startKey := pointKey start in
  let endKey := pointKey end_ in
  let edgeKey := (getSegmentKey (start, end_)).2 in
  if decide (edgeKey ∈ visitedSegments) then Ret st
  else
    let visitedSegments := {[edgeKey]} ∪ visitedSegments in
    let nextKey := if decide (key = startKey) then endKey else startKey in
    let newPath := if decide (key = startKey) then path ++ [end_] else path ++ [start] in
    if decide (nextKey ∈ branchPoints)
    then joined ← lineString newPath;
         Ret (visitedSegments, stack, connectedSegments ++ [joined])
    else Ret (visitedSegments, (nextKey, newPath) :: stack, connectedSegments).

Fixpoint walkStack (fuel : nat) (adjacencyList : gmap Key (list LineString))
    (branchPoints : list Key) (stack : list (Key * list Position))
    (visitedSegments : gset SegmentKey) (connectedSegments : list LineString)
    : res (gset SegmentKey * list LineString) :=
  match stack with
  | [] => Ret (visitedSegments, connectedSegments)
  | (key, path) :: stack =>
      match fuel with
      | 0 => OutOfFuel
      | S fuel =>
          let edges := default [] (adjacencyList !! key) in
          '(visitedSegments, stack, connectedSegments) ←
            foldM (walkEdge branchPoints key path)
                  (visitedSegments, stack, connectedSegments) edges;
          walkStack fuel adjacencyList branchPoints stack visitedSegments connectedSegments
      end
  end.

Definition joinSegments (fuel : nat) (segments : list LineString) (branchPoints : list Key)
    : res (list LineString) :=
  adjacencyList ← foldM (λ adj segment,
                           '(start, end_) ← startEnd segment;
                           Ret (pushAdj (pointKey end_) segment
                                  (pushAdj (pointKey start) segment adj)))
                        (∅ : gmap Key (list LineString)) segments;
  st ← foldM (λ (st : gset SegmentKey * list LineString) branchKey,
                let initialCoord : Position := (Number branchKey.1, Number branchKey.2) in
                walkStack fuel adjacencyList branchPoints [(branchKey, [initialCoord])]
                          st.1 st.2)
             (∅, []) branchPoints;
  Ret st.2.

(** The segments of one (clipped) Voronoi cell that are kept. *)
Definition keepSegment (obstacles : list Polygon)
    (st : list LineString * gset SegmentKey) (segmentCoords : Position * Position)
    : list LineString * gset SegmentKey :=
  let '(segments, segmentSet) := st in
  let segment := [segmentCoords.1; segmentCoords.2] in
  if isIntersectingObstacles segment obstacles then st
  else
    let '(sortedCoords, segmentKey) := getSegmentKey segmentCoords in
    if decide (segmentKey ∈ segmentSet) then st
    else (segments ++ [[sortedCoords.1; sortedCoords.2]], {[segmentKey]} ∪ segmentSet).

Definition consecutive {A : Type} (l : list A) : list (A * A) := zip l (tail l).

Definition clipCell (boundary : Polygon) (obstacles : list Polygon)
    (st : list LineString * gset SegmentKey) (cell : Polygon)
    : res (list LineString * gset SegmentKey) :=
  cell ← (if negb (booleanDisjoint boundary cell)
          then defined (intersect [cell; boundary])
          else Ret cell);
  coordinates ← ring0 cell;
  Ret (foldl (keepSegment obstacles) st (consecutive coordinates)).

Definition calculateVoronoiRoadmap (fuel : nat) (boundary : Polygon)
    (obstacles : option (list Polygon)) : res (list LineString) :=
  let obstacles := default [] obstacles in
  let voronoiPoints := getVoronoiPoints boundary obstacles in
  match voronoi voronoiPoints (bbox boundary) with
  | None => Ret [polygonToLine boundary]
  | Some voronoiPolygons =>
      st ← foldM (clipCell boundary obstacles) ([], ∅) voronoiPolygons;
      let segmentFC := st.1 in
      branchPoints ← identifyBranchPoints segmentFC;
      joinSegments fuel segmentFC branchPoints
  end.
End Roadmap.

(** ** The adjacency graph and the router *)

(** The tables of the search.  [previous] maps a node to the node it was
    reached from and the oriented polyline used; an entry that is [null] in
    the source is an absent one here (the source tests both with [!prev]). *)
Abbreviation Search :=
  (gmap Key num * gmap Key (Key * LineString) * list (Key * num))%type.

Section Router.
Context `{Turf}.

Record Edge : Type := mkEdge {
  node : Key;
  edgeDistance : num;
  edgePath : LineString
}.

Definition addRoad (adjacencyGraph : gmap Key (list Edge)) (road : LineString)
    : res (gmap Key (list Edge)) :=
  start ← defined (head road);
  end_ ← defined (list.last road);
  let startKey := pointKey start in
  let endKey := pointKey end_ in
  let d := lineLength road meters in
  let adjacencyGraph := pushAdj startKey (mkEdge endKey d road) adjacencyGraph in
  reversedRoad ← lineString (reverse road);
  (* the entry for [endKey] is created (empty) before the first push; the
     resulting map is the same *)
  Ret (pushAdj endKey (mkEdge startKey d reversedRoad) adjacencyGraph).

Definition calculateAdjacencyGraph (voronoiRoadmap : list LineString)
    : res (gmap Key (list Edge)) :=
  foldM addRoad ∅ voronoiRoadmap.

(** [pq.sort((a, b) => a[1] - b[1])]: a stable sort on the distance. *)
Fixpoint pqInsert (x : Key * num) (pq : list (Key * num)) : list (Key * num) :=
  match pq with
  | [] => [x]
  | y :: pq' =>
      if nlt (nsub x.2 y.2) (dec 0 0) then x :: y :: pq' else y :: pqInsert x pq'
  end.

Definition pqSort (pq : list (Key * num)) : list (Key * num) :=
  foldl (λ sorted x, pqInsert x sorted) [] pq.

Definition relax (currentNode : Key) (currentDistance : num) (st : Search) (e : Edge)
    : Search :=
  let '(distances, previous, pq) := st in
  let neighbor := node e in
  let totalDistance := nadd currentDistance (edgeDistance e) in
  match distances !! neighbor with
  | Some known =>
      if nlt totalDistance known
      then (<[neighbor := totalDistance]> distances,
            <[neighbor := (currentNode, edgePath e)]> previous,
            pq ++ [(neighbor, totalDistance)])
      else st
  | None => st   (* a comparison with undefined is false *)
  end.

(** The inner [while (node)] loop that walks the predecessors back. *)
Fixpoint reconstruct (fuel : nat) (previous : gmap Key (Key * LineString))
    (node : Key) (fullPath : list Position) : res (list Position) :=
  match previous !! node with
  | None => Ret fullPath
  | Some prev =>
      match fuel with
      | 0 => OutOfFuel
      | S fuel => reconstruct fuel previous prev.1 (prev.2 ++ fullPath)
      end
  end.

Fixpoint dijkstraLoop (fuel : nat) (graph : gmap Key (list Edge)) (endKey : Key)
    (st : Search) : res (option LineString) :=
  let '(distances, previous, pq) := st in
  match pqSort pq with
  | [] => Ret None
  | (currentNode, _) :: pq =>
      match fuel with
      | 0 => OutOfFuel
      | S fuel' =>
          if decide (currentNode = endKey)
          then fullPath ← reconstruct fuel previous endKey [];
               line ← lineString fullPath;
               Ret (Some line)
          else
            edges ← defined (graph !! currentNode);
            dijkstraLoop fuel' graph endKey
              match distances !! currentNode with
              | Some currentDistance =>
                  foldl (relax currentNode currentDistance) (distances, previous, pq) edges
              | None => (distances, previous, pq)   (* every sum is NaN: nothing relaxes *)
              end
      end
  end.

Definition getDijkstraPath (fuel : nat) (graph : gmap Key (list Edge))
    (start end_ : Position) : res (option LineString) :=
  let startKey := pointKey start in
  let endKey := pointKey end_ in
  if decide (startKey ∉ dom graph ∨ endKey ∉ dom graph) then Ret None
  else
    let distances : gmap Key num :=
      <[startKey := dec 0 0]> ((λ _, Infinity) <$> graph) in
    dijkstraLoop fuel graph endKey (distances, ∅, [(startKey, dec 0 0)]).

(** The forbidden region as the router and the sweep build it:
    [turf.multiPolygon([boundary.geometry.coordinates, [coordAll(obstacles)]])]. *)
Definition boundaryAndObstacles (boundary : Polygon) (obstacles : list Polygon)
    : MultiPolygon :=
  [boundary; [coordAllFC obstacles]].

(** The stitches of the two endpoints onto the roadmap.  A road is
    remembered by its index in [voronoiRoadmap.features]: the source
    compares roads by object identity. *)
Record Stitch : Type := mkStitch {
  shortStartDistance : num;
  shortEndDistance : num;
  startPath : option LineString;
  endPath : option LineString;
  startRoadSegment : option (nat * LineString);
  endRoadSegment : option (nat * LineString)
}.

Definition tryRoad (start end_ : Position) (avoid : MultiPolygon) (st : Stitch)
    (indexed : nat * LineString) : Stitch :=
  let road := indexed.2 in
  let tryStart := nearestPointOnLine road start in
  let tryEnd := nearestPointOnLine road end_ in
  let tryStartPath := [start; tryStart] in
  let tryEndPath := [tryEnd; end_] in
  let startDistance := lineLength tryStartPath kilometers in
  let endDistance := lineLength tryEndPath kilometers in
  let st :=
    if nlt startDistance (shortStartDistance st) && isPathClear tryStartPath avoid
    then mkStitch startDistance (shortEndDistance st) (Some tryStartPath) (endPath st)
                  (Some indexed) (endRoadSegment st)
    else st in
  if nlt endDistance (shortEndDistance st) && isPathClear tryEndPath avoid
  then mkStitch (shortStartDistance st) endDistance (startPath st) (Some tryEndPath)
                (startRoadSegment st) (Some indexed)
  else st.

Definition indexed {A : Type} (l : list A) : list (nat * A) := zip (seq 0 (length l)) l.

Definition stitchEndpoints (voronoiRoadmap : list LineString) (start end_ : Position)
    (avoid : MultiPolygon) : Stitch :=
  foldl (tryRoad start end_ avoid)
        (mkStitch Infinity Infinity None None None None) (indexed voronoiRoadmap).

(** The pieces into which the two landing roads are cut. *)
Definition splitRoads (startPath endPath startRoad endRoad : LineString)
    : res (list LineString * list LineString) :=
  '(s0, s1) ← startEnd startPath;
  let startPathBearing := bearing s0 s1 in
  let extendedStartPoint := destination s1 (dec 1 2) startPathBearing meters in
  let startPathSplitter := [s0; extendedStartPoint] in
  '(e0, e1) ← startEnd endPath;
  let endPathBearing := bearing e1 e0 in
  let extendedEndPoint := destination e0 (dec 1 2) endPathBearing meters in
  let endPathSplitter := [extendedEndPoint; e1] in
  Ret (lineSplit startRoad (SplitLine startPathSplitter),
       lineSplit endRoad (SplitLine endPathSplitter)).

(** [tempVoronoiRoadmap]: the roads other than the two landing roads, the
    pieces of those, and the two stitches. *)
Definition temporaryRoadmap (voronoiRoadmap : list LineString)
    (startPath endPath : LineString) (startRoad endRoad : nat * LineString)
    : res (list LineString) :=
  '(splitStartRoad, splitEndRoad) ← splitRoads startPath endPath startRoad.2 endRoad.2;
  let others :=
    filter (λ feature : nat * LineString,
              feature.1 ≠ startRoad.1 ∧ feature.1 ≠ endRoad.1) (indexed voronoiRoadmap) in
  Ret ((snd <$> others) ++ splitStartRoad ++ splitEndRoad ++ [startPath; endPath]).

(** The final pass that drops a vertex whose fingerprint repeats that of the
    vertex kept before it. *)
Definition dropRepeat (acc : list Position) (cur : Position) : list Position :=
  match list.last acc with
  | None => acc ++ [cur]
  | Some lastCoord =>
      if decide (pointKey lastCoord ≠ pointKey cur) then acc ++ [cur] else acc
  end.

Definition calculateClearPath (fuel : nat) (voronoiRoadmap : option (list LineString))
    (start end_ : Position) (boundary : Polygon) (obstacles : option (list Polygon))
    : res (option LineString) :=
  let obstacles := default [] obstacles in
  let avoid := boundaryAndObstacles boundary obstacles in
  let directLine := [start; end_] in
  if isPathClear directLine avoid then Ret (Some directLine)
  else
    roads ← defined voronoiRoadmap;
    let st := stitchEndpoints roads start end_ avoid in
    match startPath st, endPath st, startRoadSegment st, endRoadSegment st with
    | Some startPath, Some endPath, Some startRoad, Some endRoad =>
        tempVoronoiRoadmap ← temporaryRoadmap roads startPath endPath startRoad endRoad;
        newGraph ← calculateAdjacencyGraph tempVoronoiRoadmap;
        dijkstraPath ← getDijkstraPath fuel newGraph start end_;
        match dijkstraPath with
        | Some found =>
            line ← lineString (foldl dropRepeat [] found);
            Ret (Some line)
        | None => Ret None
        end
    | _, _, _, _ => Ret None
    end.
End Router.

(** * src/utils/mow-path.ts *)

(** A row holds references to cell objects of the grid: each entry is the
    index of the cell together with the fields that the sweep only reads. *)
Abbreviation Row := (list (nat * Cell)).

Section MowPath.
Context `{Turf}.

Definition getRowCount (coverageGrid : list Cell) : nat :=
  size (list_to_set (gridRow <$> coverageGrid) : gset nat).

(** [cell.properties.visited = Visit.visited] on the cell object at index
    [i] of the grid. *)
Definition markVisited (i : nat) (grid : list Cell) : list Cell :=
  alter (λ c, mkCell (geometry c) (gridRow c) (gridCol c) visited (cellCentroid c)) i grid.

Definition colDistance (a b : Cell) : Z :=
  Z.abs (Z.of_nat (gridCol a) - Z.of_nat (gridCol b)).

(** The search for the first cell of the row that the previous waypoint sees. *)
Fixpoint findEntry (avoid : MultiPolygon) (prevEndPoint : Position) (row : Row) (i : nat)
    : option (nat * (nat * Cell)) :=
  match row with
  | [] => None
  | cell :: rest =>
      if isPathClear [prevEndPoint; cellCentroid cell.2] avoid then Some (i, cell)
      else findEntry avoid prevEndPoint rest (i + 1)
  end.

(** The cells of the previous row that are still unvisited next to [cell]. *)
Definition unvisitedNeighbours (grid : list Cell) (rowIndex : nat) (cell : Cell) : list Cell :=
  filter (λ feature,
            visitState feature = unvisited ∧
            Z.of_nat (gridRow feature) = (Z.of_nat rowIndex - 1)%Z ∧
            (colDistance feature cell ≤ 1)%Z) grid.

(** The traversal of the rest of a row.  The result says whether the pass
    returned from inside the row. *)
Fixpoint traverseRow (rowIndex : nat) (prevCell : Cell) (rest : Row)
    (waypoints : list Position) (grid : list Cell) : bool * list Position * list Cell :=
  match rest with
  | [] => (false, waypoints, grid)
  | (i, cell) :: rest' =>
      if decide (colDistance cell prevCell > 1)%Z
      then (false, waypoints ++ [cellCentroid prevCell], grid)
      else if decide (2 ≤ length (unvisitedNeighbours grid rowIndex cell))
      then (true, waypoints ++ [cellCentroid cell], markVisited i grid)
      else
        let waypoints :=
          match rest' with
          | [] => waypoints ++ [cellCentroid cell]
          | _ => waypoints
          end in
        traverseRow rowIndex cell rest' waypoints (markVisited i grid)
  end.

Definition unvisitedRow (grid : list Cell) (rowIndex : nat) : Row :=
  filter (λ feature : nat * Cell,
            gridRow feature.2 = rowIndex ∧ visitState feature.2 = unvisited) (indexed grid).

Definition sweepRow (avoid : MultiPolygon) (rowIndex : nat)
    (waypoints : list Position) (grid : list Cell) : bool * list Position * list Cell :=
  let row := unvisitedRow grid rowIndex in
  match row with
  | [] => (false, waypoints, grid)
  | first :: _ =>
      let row := if decide (rowIndex `mod` 2 = 1) then reverse row else row in
      let entry :=
        match list.last waypoints with
        | Some prevEndPoint => findEntry avoid prevEndPoint row 0
        | None => (λ c, (0, c)) <$> head row
        end in
      match entry with
      | None => (false, waypoints, grid)
      | Some (startIndex, (i, cell)) =>
          traverseRow rowIndex cell (drop (startIndex + 1) row)
                      (waypoints ++ [cellCentroid cell]) (markVisited i grid)
      end
  end.

Fixpoint sweepRows (avoid : MultiPolygon) (rows : list nat)
    (waypoints : list Position) (grid : list Cell) : list Position * list Cell :=
  match rows with
  | [] => (waypoints, grid)
  | rowIndex :: rows' =>
      let '(returned, waypoints, grid) := sweepRow avoid rowIndex waypoints grid in
      if returned then (waypoints, grid) else sweepRows avoid rows' waypoints grid
  end.

(** The result is the path together with the grid as the pass leaves it. *)
Definition calculateMowPath (fuel : nat) (path : option LineString) (boundary : Polygon)
    (obstacles : option (list Polygon)) (roadmap : option (list LineString))
    (coverageGrid : list Cell) : res (option LineString * list Cell) :=
  let sweep (coordinates : list Position) :=
    let rowCount := getRowCount coverageGrid in
    let avoid := boundaryAndObstacles boundary (default [] obstacles) in
    let '(waypoints, grid) := sweepRows avoid (seq 0 rowCount) [] coverageGrid in
    Ret (Some (coordinates ++ waypoints), grid) in
  match path with
  | None => sweep []
  | Some coordinates =>
      let lastEndPoint := list.last coordinates in
      let unvisitedCells := filter (λ feature, visitState feature = unvisited) coverageGrid in
      match unvisitedCells with
      | [] => Ret (path, coverageGrid)
      | firstUnvisited :: _ =>
          let newStartPoint := cellCentroid firstUnvisited in
          (* an undefined start position is not taken through the library *)
          lastEndPoint ← defined lastEndPoint;
          pathToStart ← calculateClearPath fuel roadmap lastEndPoint newStartPoint
                                           boundary obstacles;
          match pathToStart with
          | None => Ret (path, coverageGrid)
          | Some toStart => sweep (coordinates ++ toStart)
          end
      end
  end.

Definition pruneStep (pruneDistance : num) (acc : list Position) (cur : Position)
    : list Position :=
  match list.last acc with
  | None => acc ++ [cur]
  | Some lastCoord =>
      if ngt (distance lastCoord cur meters) pruneDistance then acc ++ [cur] else acc
  end.

Definition prunedCoordinates (coordinates : list Position) (pruneDistance : num)
    : list Position :=
  foldl (pruneStep pruneDistance) [] coordinates.

Definition pruneExcessPoints (path : option LineString) (pruneDistance : num)
    : res (option LineString) :=
  match path with
  | None => Ret None
  | Some coordinates =>
      line ← lineString (prunedCoordinates coordinates pruneDistance);
      Ret (Some line)
  end.
End MowPath.

(** * src/utils/path-markers.ts *)

Section PathMarkers.
Context `{Turf}.

Inductive Marker : Type :=
  | StartMarker (m : Polygon)
  | EndMarker (m : Polygon)
  | ArrowMarker (m : LineString).

Definition createCircleMarker (coordinate : Position) (radius : num) : Polygon :=
  circle coordinate radius 8 meters.

Definition createArrowMarker (start end_ : Position) (size : num) : LineString :=
  let b := bearing start end_ in
  let mid := midpoint start end_ in
  [destination mid size (nadd b (dec 150 0)) meters; mid;
   destination mid size (nsub b (dec 150 0)) meters].

Definition createPathMarkers (path : LineString) (laneWidth : num) : list Marker :=
  match path, list.last path with
  | first :: _ :: _, Some final =>
      let markerSize := nmul laneWidth (dec 3 1) in
      let arrows :=
        omap (λ pair : Position * Position,
                if ngt (distance pair.1 pair.2 meters) (nmul laneWidth (dec 4 0))
                then Some (ArrowMarker (createArrowMarker pair.1 pair.2 markerSize))
                else None) (consecutive path) in
      StartMarker (createCircleMarker first markerSize)
        :: EndMarker (createCircleMarker final markerSize) :: arrows
  | _, _ => []
  end.
End PathMarkers.

(** * The orchestration (the application's [generateAll])

    The signals of [globals.ts] that the pipeline reads and writes. *)

Section App.
Context `{Turf}.

Record Globals : Type := mkGlobals {
  laneWidth : num;                          (* userSettings.value.laneWidth *)
  startPoint : num;
  mbbOrientation : num;
  rawObstacles : option (list Polygon);
  boundary : option Polygon;
  obstacles : option (list Polygon);
  convexHull : option Polygon;
  minBoundingBox : option Polygon;
  coverageGrid : option (list Cell);
  travelHeading : num;
  voronoiPaths : option (list LineString);
  mowPath : option LineString;
  pathMarkers : option (list Marker)
}.

Definition setBoundary (v : option Polygon) (g : Globals) : Globals :=
  mkGlobals (laneWidth g) (startPoint g) (mbbOrientation g) (rawObstacles g) v
    (obstacles g) (convexHull g) (minBoundingBox g) (coverageGrid g) (travelHeading g)
    (voronoiPaths g) (mowPath g) (pathMarkers g).
Definition setObstacles (v : option (list Polygon)) (g : Globals) : Globals :=
  mkGlobals (laneWidth g) (startPoint g) (mbbOrientation g) (rawObstacles g) (boundary g)
    v (convexHull g) (minBoundingBox g) (coverageGrid g) (travelHeading g)
    (voronoiPaths g) (mowPath g) (pathMarkers g).
Definition setConvexHull (v : option Polygon) (g : Globals) : Globals :=
  mkGlobals (laneWidth g) (startPoint g) (mbbOrientation g) (rawObstacles g) (boundary g)
    (obstacles g) v (minBoundingBox g) (coverageGrid g) (travelHeading g)
    (voronoiPaths g) (mowPath g) (pathMarkers g).
Definition setMinBoundingBox (v : option Polygon) (g : Globals) : Globals :=
  mkGlobals (laneWidth g) (startPoint g) (mbbOrientation g) (rawObstacles g) (boundary g)
    (obstacles g) (convexHull g) v (coverageGrid g) (travelHeading g)
    (voronoiPaths g) (mowPath g) (pathMarkers g).
Definition setCoverageGrid (v : option (list Cell)) (g : Globals) : Globals :=
  mkGlobals (laneWidth g) (startPoint g) (mbbOrientation g) (rawObstacles g) (boundary g)
    (obstacles g) (convexHull g) (minBoundingBox g) v (travelHeading g)
    (voronoiPaths g) (mowPath g) (pathMarkers g).
Definition setTravelHeading (v : num) (g : Globals) : Globals :=
  mkGlobals (laneWidth g) (startPoint g) (mbbOrientation g) (rawObstacles g) (boundary g)
    (obstacles g) (convexHull g) (minBoundingBox g) (coverageGrid g) v
    (voronoiPaths g) (mowPath g) (pathMarkers g).
Definition setVoronoiPaths (v : option (list LineString)) (g : Globals) : Globals :=
  mkGlobals (laneWidth g) (startPoint g) (mbbOrientation g) (rawObstacles g) (boundary g)
    (obstacles g) (convexHull g) (minBoundingBox g) (coverageGrid g) (travelHeading g)
    v (mowPath g) (pathMarkers g).
Definition setMowPath (v : option LineString) (g : Globals) : Globals :=
  mkGlobals (laneWidth g) (startPoint g) (mbbOrientation g) (rawObstacles g) (boundary g)
    (obstacles g) (convexHull g) (minBoundingBox g) (coverageGrid g) (travelHeading g)
    (voronoiPaths g) v (pathMarkers g).
Definition setPathMarkers (v : option (list Marker)) (g : Globals) : Globals :=
  mkGlobals (laneWidth g) (startPoint g) (mbbOrientation g) (rawObstacles g) (boundary g)
    (obstacles g) (convexHull g) (minBoundingBox g) (coverageGrid g) (travelHeading g)
    (voronoiPaths g) (mowPath g) v.

(** How a run of the pipeline ends; the signals keep what was assigned
    before a throw. *)
Inductive Outcome : Type := Finished | Thrown (e : exn) | Exhausted.

(** Runs [k] on the value of [m], or stops with [m]'s failure in state [g]. *)
Definition attempt {A : Type} (m : res A) (g : Globals)
    (k : A → Outcome * Globals) : Outcome * Globals :=
  match m with
  | Ret a => k a
  | Throw e => (Thrown e, g)
  | OutOfFuel => (Exhausted, g)
  end.

(** The two cell counts are array lengths; their sum is exact. *)
Definition getCoverage (coverageGrid : option (list Cell)) : num :=
  match coverageGrid with
  | None => dec 0 0
  | Some grid =>
      let unvisitedCells := filter (λ feature, visitState feature = unvisited) grid in
      let visitedCells := filter (λ feature, visitState feature = visited) grid in
      ndiv (ofnat (length visitedCells))
           (ofnat (length unvisitedCells + length visitedCells))
  end.

(** The state of the [while (getCoverage() < 0.99)] loop.  [passes] counts
    the calls of [calculateMowPath]; the code does not hold it. *)
Record Sweep : Type := mkSweep {
  sweepPath : option LineString;
  previousLength : nat;
  sweepGrid : list Cell;
  passes : nat
}.

Fixpoint sweepLoop (fuel : nat) (boundary : Polygon) (obstacles : option (list Polygon))
    (roadmap : option (list LineString)) (st : Sweep) : res () * Sweep :=
  if nlt (getCoverage (Some (sweepGrid st))) (dec 99 2) then
    match fuel with
    | 0 => (OutOfFuel, st)
    | S fuel' =>
        match calculateMowPath fuel (sweepPath st) boundary obstacles roadmap
                               (sweepGrid st) with
        | Ret (path, grid) =>
            if decide (length <$> path = Some (previousLength st))
            then (Ret (), mkSweep path (previousLength st) grid (S (passes st)))
            else sweepLoop fuel' boundary obstacles roadmap
                   (mkSweep path (default 0 (length <$> path)) grid (S (passes st)))
        | Throw e => (Throw e, st)   (* a pass throws before it marks any cell *)
        | OutOfFuel => (OutOfFuel, st)
        end
    end
  else (Ret (), st).

(** Lines 68 to 85: the passes, the pruning and the markers.  The cells are
    marked in place, so the grid signal sees every completed pass. *)
Definition sweepAll (fuel : nat) (bounds : Polygon) (grid : list Cell) (g : Globals)
    : Outcome * Globals :=
  let '(r, st) :=
    sweepLoop fuel bounds (obstacles g) (voronoiPaths g) (mkSweep None 0 grid 0) in
  let g := setCoverageGrid (Some (sweepGrid st)) g in
  attempt r g
    (λ _,
       attempt (pruneExcessPoints (sweepPath st) (ndiv (laneWidth g) (dec 2 0))) g
         (λ path,
            let g := setMowPath path g in
            match path with
            | Some p => (Finished, setPathMarkers (Some (createPathMarkers p (laneWidth g))) g)
            | None => (Finished, g)
            end)).

Definition generateAll (fuel : nat) (bounds : Polygon) (g : Globals) : Outcome * Globals :=
  let g := setBoundary (differenceObstaclesFromBoundary bounds (rawObstacles g)) g in
  match boundary g with
  | None => (Finished, g)
  | Some working =>
      let g := setObstacles (removeOrphanedObstacles working (rawObstacles g)) g in
      let g := setConvexHull (getConvexHull working) g in
      attempt (hull ← defined (convexHull g); getMinBoundingBox hull (mbbOrientation g)) g
        (λ mbb,
           let g := setMinBoundingBox (Some mbb) g in
           attempt (getCoverageGrid working (obstacles g) mbb (laneWidth g) (startPoint g)) g
             (λ grid,
                let g := setCoverageGrid (Some grid) g in
                attempt (getTravelHeading grid) g
                  (λ heading,
                     let g := setTravelHeading heading g in
                     attempt (calculateVoronoiRoadmap fuel working (obstacles g)) g
                       (λ roadmap,
                          let g := setVoronoiPaths (Some roadmap) g in
                          sweepAll fuel working grid g))))
  end.
End App.

(** * A planar implementation of the two interfaces

    Numbers are fixed-point decimals with seven places ([XFin z] is
    [z / 10^7]) together with the two infinities and NaN.  Coordinates count
    1e-7 degree, and one such step is taken to be one centimetre on the
    ground.  Angles are handled exactly for multiples of a right angle, which
    is all the examples below need; polygon clipping, Voronoi diagrams and
    general rotations are not implemented (see the individual comments). *)

Module Planar.
Local Open Scope Z_scope.

Inductive xnum : Type := XNaN | XNegInf | XFin (z : Z) | XInf.

Global Instance xnum_eq_dec : EqDecision xnum.
Proof. solve_decision. Defined.

Definition SCALE : Z := 10000000.

Definition xlt (a b : xnum) : bool :=
  match a, b with
  | XFin x, XFin y => bool_decide (x < y)
  | XNegInf, XFin _ | XNegInf, XInf | XFin _, XInf => true
  | _, _ => false
  end.

Definition xseq (a b : xnum) : bool :=
  match a, b with
  | XFin x, XFin y => bool_decide (x = y)
  | XInf, XInf | XNegInf, XNegInf => true
  | _, _ => false
  end.

Definition xneg (a : xnum) : xnum :=
  match a with
  | XNaN => XNaN
  | XNegInf => XInf
  | XFin x => XFin (- x)
  | XInf => XNegInf
  end.

Definition xadd (a b : xnum) : xnum :=
  match a, b with
  | XNaN, _ | _, XNaN => XNaN
  | XFin x, XFin y => XFin (x + y)
  | XInf, XNegInf | XNegInf, XInf => XNaN
  | XInf, _ | _, XInf => XInf
  | XNegInf, _ | _, XNegInf => XNegInf
  end.

Definition xsub (a b : xnum) : xnum := xadd a (xneg b).

(** The sign of a number that is not NaN, as -1, 0 or 1. *)
Definition xsign (a : xnum) : Z :=
  match a with
  | XNaN => 0
  | XNegInf => -1
  | XFin x => Z.sgn x
  | XInf => 1
  end.

Definition xsigned (s : Z) : xnum :=
  if decide (s = 0) then XNaN else if decide (0 < s) then XInf else XNegInf.

Definition xmul (a b : xnum) : xnum :=
  match a, b with
  | XNaN, _ | _, XNaN => XNaN
  | XFin x, XFin y => XFin ((x * y) `quot` SCALE)
  | _, _ => xsigned (xsign a * xsign b)
  end.

Definition xdiv (a b : xnum) : xnum :=
  match a, b with
  | XNaN, _ | _, XNaN => XNaN
  | XFin x, XFin y => if decide (y = 0) then xsigned (Z.sgn x) else XFin ((x * SCALE) `quot` y)
  | XFin _, _ => XFin 0
  | _, XFin y => xsigned (xsign a * (if decide (y < 0) then -1 else 1))
  | _, _ => XNaN
  end.

Definition xdec (m : Z) (e : nat) : xnum := XFin ((m * SCALE) `quot` (10 ^ Z.of_nat e)).

Definition xtruthy (a : xnum) : bool :=
  match a with
  | XNaN => false
  | XFin x => bool_decide (x ≠ 0)
  | _ => true
  end.

(** The digits of the decimal rounded to [digits] places; the decimal point,
    whose place [digits] fixes, is not printed. *)
Definition xtoFixed (a : xnum) (digits : nat) : string :=
  match a with
  | XNaN => "NaN"
  | XNegInf => "-Infinity"
  | XInf => "Infinity"
  | XFin x =>
      let unit := 10 ^ (7 - Z.of_nat digits) in
      pretty (if decide (unit ≤ 1) then x * 10 ^ (Z.of_nat digits - 7)
              else (2 * x + unit) `div` (2 * unit))
  end.

(** The inverse reading of [xtoFixed _ 6]. *)
Definition xNumber (s : string) : xnum :=
  match DecimalString.NilZero.int_of_string s with
  | Some i => XFin (Z.of_int i * 10)
  | None => XNaN
  end.

Global Instance PlanarNumber : JsNumber := {|
  num := xnum;
  nlt := xlt;
  nseq := xseq;
  nadd := xadd;
  nsub := xsub;
  nmul := xmul;
  ndiv := xdiv;
  nneg := xneg;
  dec := xdec;
  Infinity := XInf;
  NaN := XNaN;
  truthy := xtruthy;
  toFixed := xtoFixed;
  Number := xNumber
|}.

(** *** Plane geometry on integer points *)

Abbreviation P2 := (Z * Z)%type.

Definition zc (n : xnum) : Z :=
  match n with
  | XFin z => z
  | _ => 0
  end.

Definition zp (p : Position) : P2 := (zc p.1, zc p.2).
Definition pz (p : P2) : Position := (XFin p.1, XFin p.2).

Definition orient (a b c : P2) : Z :=
  (b.1 - a.1) * (c.2 - a.2) - (b.2 - a.2) * (c.1 - a.1).

(** [c] lies in the bounding box of [a] and [b]. *)
Definition inBox (a b c : P2) : bool :=
  bool_decide (Z.min a.1 b.1 ≤ c.1 ≤ Z.max a.1 b.1 ∧ Z.min a.2 b.2 ≤ c.2 ≤ Z.max a.2 b.2).

(** The closed segments [a b] and [c d] have a common point. *)
Definition segmentsMeet (a b c d : P2) : bool :=
  let d1 := orient c d a in
  let d2 := orient c d b in
  let d3 := orient a b c in
  let d4 := orient a b d in
  bool_decide (d1 * d2 < 0 ∧ d3 * d4 < 0)
  || bool_decide (d1 = 0) && inBox c d a
  || bool_decide (d2 = 0) && inBox c d b
  || bool_decide (d3 = 0) && inBox a b c
  || bool_decide (d4 = 0) && inBox a b d.

Definition lineMeetsRing (line ring : list P2) : bool :=
  existsb (λ s : P2 * P2,
             existsb (λ e : P2 * P2, segmentsMeet s.1 s.2 e.1 e.2) (consecutive ring))
          (consecutive line).

(** The point where the lines through [a b] and [c d] meet, rounded. *)
Definition meetPoint (a b c d : P2) : P2 :=
  let den := (b.1 - a.1) * (d.2 - c.2) - (b.2 - a.2) * (d.1 - c.1) in
  let t := (c.1 - a.1) * (d.2 - c.2) - (c.2 - a.2) * (d.1 - c.1) in
  if decide (den = 0) then c
  else (a.1 + ((b.1 - a.1) * t) `quot` den, a.2 + ((b.2 - a.2) * t) `quot` den).

Fixpoint cutRoad (c d : P2) (before road : list P2) : option (list P2 * list P2) :=
  match road with
  | a :: rest =>
      match rest with
      | b :: _ =>
          if segmentsMeet a b c d
          then let x := meetPoint a b c d in
               Some (before ++ (if decide (x = a) then [a] else [a; x]),
                     if decide (x = b) then rest else x :: rest)
          else cutRoad c d (before ++ [a]) rest
      | [] => None
      end
  | [] => None
  end.

(** [turf.lineSplit].  With a polygon splitter the planner only counts the
    pieces, and the line itself stands for them.  With a line splitter the
    road is cut at the first crossing; a cut at an end of the road leaves the
    road whole. *)
Definition planarLineSplit (line : LineString) (splitter : Splitter) : list LineString :=
  match splitter with
  | SplitMulti m =>
      if existsb (λ poly : Polygon,
                    existsb (λ ring : Ring, lineMeetsRing (zp <$> line) (zp <$> ring)) poly) m
      then [line] else []
  | SplitLine s =>
      match zp <$> s with
      | [c; d] =>
          match cutRoad c d [] (zp <$> line) with
          | Some (l1, l2) =>
              if decide (length l1 < 2 ∨ length l2 < 2)%nat then [line]
              else [pz <$> l1; pz <$> l2]
          | None => []
          end
      | _ => []
      end
  end.

Definition norm2 (a b : P2) : Z := (b.1 - a.1) ^ 2 + (b.2 - a.2) ^ 2.

(** The point of the segment [a b] nearest to [p], rounded. *)
Definition nearestOnSegment (a b p : P2) : P2 :=
  let len := norm2 a b in
  let t := (p.1 - a.1) * (b.1 - a.1) + (p.2 - a.2) * (b.2 - a.2) in
  if decide (len = 0 ∨ t ≤ 0) then a
  else if decide (len ≤ t) then b
  else (a.1 + ((b.1 - a.1) * t) `quot` len, a.2 + ((b.2 - a.2) * t) `quot` len).

Definition planarNearestPointOnLine (line : LineString) (p : Position) : Position :=
  let candidates :=
    (λ s : P2 * P2, nearestOnSegment s.1 s.2 (zp p)) <$> consecutive (zp <$> line) in
  match candidates with
  | [] => default p (head line)
  | c :: rest =>
      pz (foldl (λ best q, if decide (norm2 (zp p) q < norm2 (zp p) best) then q else best)
                c rest)
  end.

(** Lengths: one coordinate step is one centimetre. *)
Definition metres (a b : P2) : Z := Z.sqrt (norm2 a b * 10 ^ 10).

Definition inUnits (u : Units) (m : Z) : Z :=
  match u with
  | meters => m
  | kilometers => m `quot` 1000
  end.

Definition planarLength (line : LineString) (u : Units) : num :=
  XFin (inUnits u (foldr Z.add 0 ((λ s : P2 * P2, metres s.1 s.2) <$> consecutive (zp <$> line)))).

Definition planarDistance (a b : Position) (u : Units) : num :=
  XFin (inUnits u (metres (zp a) (zp b))).

(** A length given in [u], in coordinate steps. *)
Definition steps (d : num) (u : Units) : Z :=
  match u with
  | meters => zc d `quot` 100000
  | kilometers => zc d `quot` 100   (* 1000 m, 100 steps to the metre *)
  end.

(** Point in polygon (outer ring only). *)
Definition onRing (p : P2) (ring : list P2) : bool :=
  existsb (λ s : P2 * P2, bool_decide (orient s.1 s.2 p = 0) && inBox s.1 s.2 p)
          (consecutive ring).

Definition rayCrosses (p : P2) (s : P2 * P2) : bool :=
  let '(a, b) := s in
  xorb (bool_decide (p.2 < a.2)) (bool_decide (p.2 < b.2)) &&
  (if decide (a.2 < b.2)
   then bool_decide ((p.1 - a.1) * (b.2 - a.2) < (b.1 - a.1) * (p.2 - a.2))
   else bool_decide ((b.1 - a.1) * (p.2 - a.2) < (p.1 - a.1) * (b.2 - a.2))).

Definition insideRing (p : P2) (ring : list P2) : bool :=
  Nat.odd (length (filter (λ s, rayCrosses p s = true) (consecutive ring))).

Definition outerRing (poly : Polygon) : list P2 := zp <$> default [] (head poly).

Definition planarContains (poly : Polygon) (p : Position) : bool :=
  insideRing (zp p) (outerRing poly) && negb (onRing (zp p) (outerRing poly)).

Definition planarWithin (inner outer : Polygon) : bool :=
  forallb (λ v, insideRing v (outerRing outer) || onRing v (outerRing outer))
          (outerRing inner).

Definition planarDisjointLine (line : LineString) (poly : Polygon) : bool :=
  negb (lineMeetsRing (zp <$> line) (outerRing poly))
  && negb (existsb (λ v, insideRing v (outerRing poly)) (zp <$> line)).

Definition planarDisjoint (a b : Polygon) : bool :=
  planarDisjointLine (default [] (head a)) b
  && negb (existsb (λ v, insideRing v (outerRing a)) (outerRing b)).

(** *** Boxes, areas and right-angle rotations *)

Definition planarCentroid (poly : Polygon) : Position :=
  let ring := outerRing poly in
  let vertices := if decide (1 < length ring)%nat then removelast ring else ring in
  let n := Z.of_nat (length vertices) in
  pz (foldr Z.add 0 (fst <$> vertices) `quot` n, foldr Z.add 0 (snd <$> vertices) `quot` n).

Definition planarBbox (poly : Polygon) : BBox :=
  match zp <$> coordAll poly with
  | [] => (XInf, XInf, XNegInf, XNegInf)
  | v :: vs =>
      (XFin (foldr Z.min v.1 (fst <$> vs)), XFin (foldr Z.min v.2 (snd <$> vs)),
       XFin (foldr Z.max v.1 (fst <$> vs)), XFin (foldr Z.max v.2 (snd <$> vs)))
  end.

Definition planarBboxPolygon (box : BBox) : Polygon :=
  let '(west, south, east, north) := box in
  [[(west, south); (east, south); (east, north); (west, north); (west, south)]].

(** The area in square metres (shoelace formula on the outer ring). *)
Definition planarArea (poly : Polygon) : num :=
  let twice :=
    foldr Z.add 0 ((λ s : P2 * P2, s.1.1 * s.2.2 - s.2.1 * s.1.2)
                     <$> consecutive (outerRing poly)) in
  XFin (Z.abs twice * 500).

(** The bearing of the nearest axis: 0 north, 90 east, 180 south, -90 west. *)
Definition planarBearing (a b : Position) : num :=
  let dx := (zp b).1 - (zp a).1 in
  let dy := (zp b).2 - (zp a).2 in
  if decide (Z.abs dx ≤ Z.abs dy)
  then (if decide (0 ≤ dy) then XFin 0 else XFin (180 * SCALE))
  else (if decide (0 < dx) then XFin (90 * SCALE) else XFin (-90 * SCALE)).

(** The number of clockwise quarter turns nearest to an angle. *)
Definition quarterTurns (angle : num) : Z :=
  ((2 * zc angle + 90 * SCALE) `div` (180 * SCALE)) `mod` 4.

Definition turn (k : Z) (c p : P2) : P2 :=
  let dx := p.1 - c.1 in
  let dy := p.2 - c.2 in
  if decide (k = 1) then (c.1 + dy, c.2 - dx)
  else if decide (k = 2) then (c.1 - dx, c.2 - dy)
  else if decide (k = 3) then (c.1 - dy, c.2 + dx)
  else p.

Definition planarRotate (poly : Polygon) (angle : num) (pivot : Position) : Polygon :=
  (λ ring : Ring, (λ p, pz (turn (quarterTurns angle) (zp pivot) (zp p))) <$> ring) <$> poly.

Definition planarDestination (p : Position) (d : num) (bearing : num) (u : Units)
    : Position :=
  pz (turn (quarterTurns bearing) (zp p) ((zp p).1, (zp p).2 + steps d u)).

Definition planarMidpoint (a b : Position) : Position :=
  pz (((zp a).1 + (zp b).1) `quot` 2, ((zp a).2 + (zp b).2) `quot` 2).

(** A circle is drawn as the square around it. *)
Definition planarCircle (c : Position) (radius : num) (_ : nat) (u : Units) : Polygon :=
  let r := steps radius u in
  planarBboxPolygon (XFin ((zp c).1 - r), XFin ((zp c).2 - r),
                     XFin ((zp c).1 + r), XFin ((zp c).2 + r)).

(** Erosion and dilation of an axis-parallel rectangle; any other polygon is
    returned as it is. *)
Definition planarBuffer (poly : Polygon) (radius : num) (u : Units) : option Polygon :=
  let '(west, south, east, north) := planarBbox poly in
  if decide (poly = planarBboxPolygon (west, south, east, north)) then
    let r := steps radius u in
    if decide (zc west - r < zc east + r ∧ zc south - r < zc north + r)
    then Some (planarBboxPolygon (XFin (zc west - r), XFin (zc south - r),
                                  XFin (zc east + r), XFin (zc north + r)))
    else None
  else Some poly.

(** [turf.squareGrid]: whole cells, centred in the box, column by column
    from the west and, inside a column, from the south. *)
Definition planarSquareGrid (box : BBox) (cellSide : num) (u : Units) : list Polygon :=
  let '(west, south, east, north) := box in
  let side := steps cellSide u in
  if decide (side ≤ 0) then []
  else
    let columns := (zc east - zc west) `div` side in
    let rows := (zc north - zc south) `div` side in
    let x0 := zc west + (zc east - zc west - columns * side) `quot` 2 in
    let y0 := zc south + (zc north - zc south - rows * side) `quot` 2 in
    c ← seqZ 0 columns;
    r ← seqZ 0 rows;
    [planarBboxPolygon (XFin (x0 + c * side), XFin (y0 + r * side),
                        XFin (x0 + (c + 1) * side), XFin (y0 + (r + 1) * side))].

(** The convex hull by the monotone chain; fewer than three hull vertices
    give no polygon. *)
Definition lexLe (a b : P2) : Prop := a.1 < b.1 ∨ (a.1 = b.1 ∧ a.2 ≤ b.2).

Global Instance lexLe_dec (a b : P2) : Decision (lexLe a b).
Proof. unfold lexLe. apply _. Defined.

Fixpoint chainPush (hull : list P2) (fuel : nat) (p : P2) : list P2 :=
  match fuel, hull with
  | S fuel, b :: ((a :: _) as rest) =>
      if decide (orient a b p ≤ 0) then chainPush rest fuel p else p :: hull
  | _, _ => p :: hull
  end.

Definition halfHull (points : list P2) : list P2 :=
  foldl (λ hull p, chainPush hull (length hull) p) [] points.

Definition planarConvex (poly : Polygon) : option Polygon :=
  let sorted := merge_sort lexLe (remove_dups (zp <$> coordAll poly)) in
  let lower := halfHull sorted in
  let upper := halfHull (reverse sorted) in
  let ring := reverse (tail lower) ++ reverse (tail upper) in
  if decide (length ring < 3)%nat then None
  else Some [pz <$> (ring ++ take 1 ring)].

(** Polygon clipping is not implemented.  The difference is known for one
    configuration, a square plot with a rectangle across its east side, and
    is null (nothing left) otherwise; intersections and Voronoi diagrams are
    never produced. *)
Definition plot : Polygon :=
  [pz <$> [(0, 0); (1000, 0); (1000, 1000); (0, 1000); (0, 0)]].
Definition shed : Polygon :=
  [pz <$> [(800, 400); (1200, 400); (1200, 600); (800, 600); (800, 400)]].
Definition notchedPlot : Polygon :=
  [pz <$> [(0, 0); (1000, 0); (1000, 400); (800, 400); (800, 600); (1000, 600);
           (1000, 1000); (0, 1000); (0, 0)]].

Definition planarDifference (features : list Polygon) : option Polygon :=
  if decide (features = [plot; shed]) then Some notchedPlot else None.

Global Instance PlanarTurf : Turf := {|
  lineSplit := planarLineSplit;
  convex := planarConvex;
  centroid := planarCentroid;
  bearing := planarBearing;
  transformRotate := planarRotate;
  bbox := planarBbox;
  bboxPolygon := planarBboxPolygon;
  area := planarArea;
  booleanWithin := planarWithin;
  difference := planarDifference;
  buffer := planarBuffer;
  squareGrid := planarSquareGrid;
  booleanContains := planarContains;
  voronoi := λ _ _, None;
  booleanDisjoint := planarDisjoint;
  booleanDisjointLine := planarDisjointLine;
  intersect := λ _, None;
  polygonToLine := λ poly, default [] (head poly);
  lineLength := planarLength;
  nearestPointOnLine := planarNearestPointOnLine;
  destination := planarDestination;
  distance := planarDistance;
  midpoint := planarMidpoint;
  circle := planarCircle
|}.

(** *** Scenes used in the worked examples

    The plot is the 10 m square above.  A wall stands in its middle; a barn
    lies inside the plot and overlaps the shed that sticks out of it. *)

Definition whole (z : Z) : num := XFin (z * SCALE).

Definition wall : Polygon :=
  [pz <$> [(400, 200); (600, 200); (600, 800); (400, 800); (400, 200)]].
Definition barn : Polygon :=
  [pz <$> [(600, 450); (900, 450); (900, 550); (600, 550); (600, 450)]].

(** A road south of the wall, and one that runs through it. *)
Definition southRoad : LineString := pz <$> [(100, 100); (900, 100)].
Definition throughRoad : LineString := pz <$> [(100, 300); (900, 300)].


(** The path around the wall along the south road, from [(200, 500)] to
    [(700, 500)]. *)
Definition detour : LineString :=
  pz <$> [(200, 500); (200, 100); (100, 100); (700, 100); (700, 500)].



Definition lawn : Globals :=
  mkGlobals (whole 2) (whole 0) (whole 0) (Some [barn; shed]) None None None None None
            (whole 0) None None None.

(** The same lawn with the wall as well, and one whose obstacles all lie
    within the plot. *)
Definition yard : Globals :=
  mkGlobals (whole 2) (whole 0) (whole 0) (Some [wall; barn; shed]) None None None None None
            (whole 0) None None None.
Definition fencedLawn : Globals :=
  mkGlobals (whole 2) (whole 0) (whole 0) (Some [wall; barn]) None None None None None
            (whole 0) None None None.

(** The grid of 2 m cells over the plot with the wall in it. *)
Definition plotGrid : list Cell :=
  match getCoverageGrid plot (Some [wall]) plot (whole 2) (whole 0) with
  | Ret grid => grid
  | _ => []
  end.

Definition farCell : Cell :=
  mkCell (planarBboxPolygon (XFin 700, XFin 400, XFin 900, XFin 600)) 0 0 unvisited
         (pz (800, 500)).

Definition pavedGrid : list Cell :=
  [mkCell (planarBboxPolygon (XFin 0, XFin 0, XFin 500, XFin 500)) 0 0 unvisitable
          (pz (250, 250));
   mkCell (planarBboxPolygon (XFin 0, XFin 500, XFin 500, XFin 1000)) 0 1 unvisitable
          (pz (250, 750))].

(** Two junctions joined through a vertex of degree two, with four dead ends. *)
Definition ladder : list LineString :=
  [pz <$> [(300, 500); (300, 900)]; pz <$> [(300, 100); (300, 500)];
   pz <$> [(300, 500); (500, 500)]; pz <$> [(500, 500); (700, 500)];
   pz <$> [(700, 500); (700, 900)]; pz <$> [(700, 100); (700, 500)]].

(** Three segments that meet in one point, and a fourth elsewhere. *)
Definition star : list LineString :=
  [pz <$> [(500, 500); (500, 900)]; pz <$> [(500, 500); (900, 500)];
   pz <$> [(100, 500); (500, 500)]; pz <$> [(100, 500); (100, 900)]].
(** *** Further scenes

    A lawn without obstacles, and one whose lane is wider than the plot. *)
Definition bareLawn : Globals :=
  mkGlobals (whole 2) (whole 0) (whole 0) None None None None None None
            (whole 0) None None None.
Definition wideLawn : Globals :=
  mkGlobals (whole 20) (whole 0) (whole 0) None None None None None None
            (whole 0) None None None.

(** The first pass over the grid of the plot with the wall in it. *)
Definition sweptPlot : option LineString * list Cell :=
  match calculateMowPath 5 None plot (Some [wall]) (Some []) plotGrid with
  | Ret out => out
  | _ => (None, [])
  end.

(** The north-west cell of that grid. *)
Definition cornerCell : Cell :=
  mkCell [pz <$> [(0, 1000); (0, 800); (200, 800); (200, 1000); (0, 1000)]]
         0 0 unvisited (pz (100, 900)).

(** The bounding box that the calipers give the plot. *)
Definition plotBox : Polygon :=
  [pz <$> [(0, 1000); (0, 0); (1000, 0); (1000, 1000); (0, 1000)]].


(** Three segments in a row: no vertex is shared by more than two. *)
Definition chain : list LineString :=
  [pz <$> [(100, 100); (300, 100)]; pz <$> [(300, 100); (500, 100)];
   pz <$> [(500, 100); (700, 100)]].

(** The south road, the road through the wall, and a road that joins their
    east ends; the graph of the three. *)
Definition eastRoad : LineString := pz <$> [(900, 100); (900, 200); (900, 300)].
Definition loopRoads : list LineString := [southRoad; eastRoad; throughRoad].
Definition loopGraph : gmap Key (list Edge) :=
  match calculateAdjacencyGraph loopRoads with
  | Ret graph => graph
  | _ => ∅
  end.
Definition loopPath : LineString :=
  pz <$> [(100, 100); (900, 100); (900, 100); (900, 200); (900, 300); (900, 300); (100, 300)].

(** A path with two coordinates that are 10 cm and 5 cm from the one before
    them, and what pruning at 1 m keeps of it. *)
Definition jitter : LineString := pz <$> [(0, 0); (10, 0); (300, 0); (300, 5); (300, 400)].
Definition jitterPruned : LineString := pz <$> [(0, 0); (300, 0); (300, 400)].

End Planar.

(** * Predicates used in the statements *)

Section Predicates.
Context `{Turf}.

(** [b] is kept by the pruning when it follows [a]. *)
Definition far (pruneDistance : num) (a b : Position) : Prop :=
  ngt (distance a b meters) pruneDistance = true.

(** Every vertex is far from the one before it. *)
Fixpoint spaced (pruneDistance : num) (l : list Position) : Prop :=
  match l with
  | a :: rest =>
      match rest with
      | b :: _ => far pruneDistance a b ∧ spaced pruneDistance rest
      | [] => True
      end
  | [] => True
  end.

Definition farFromLast (pruneDistance : num) (acc : list Position) (x : Position) : Prop :=
  match list.last acc with
  | Some a => far pruneDistance a x
  | None => True
  end.

(** The fingerprints of the two endpoints of every segment, in order. *)
Definition endpointKeys (segments : list LineString) : list Key :=
  segments ≫= λ segment,
    pointKey <$> (option_list (head segment) ++ option_list (list.last segment)).

Definition occurrences (k : Key) (l : list Key) : nat :=
  length (filter (λ x, x = k) l).

(** The tables of junction detection agree with the endpoints [seen] so far. *)
Definition countsOk (st : gmap Key nat * list Key) (seen : list Key) : Prop :=
  (∀ k, default 0 (st.1 !! k) = occurrences k seen)
  ∧ (∀ k, k ∈ st.2 ↔ 2 < occurrences k seen).

(** The area of the box that the calipers try for the hull edge [a b]. *)
Definition edgeBoxArea (convexHull : Polygon) (a b : Position) : num :=
  area (bboxPolygon (bbox (transformRotate convexHull (nneg (bearing a b))
                                           (centroid convexHull)))).

(** Edge [i] of the ring gives no box of area below [Infinity]. *)
Definition edgeFails (convexHull : Polygon) (ring : Ring) (i : nat) : Prop :=
  ∀ a b, ring !! i = Some a → ring !! ((i + 1) `mod` (length ring - 1)) = Some b →
         nlt (edgeBoxArea convexHull a b) Infinity = false.

(** The bearing of the last edge that the calipers consider: from the
    vertex before the closing one back to the first.  A ring of fewer than
    two coordinates has no edge. *)
Definition lastEdgeBearing (ring : Ring) : option num :=
  if decide (2 ≤ length ring)
  then a ← ring !! (length ring - 2); b ← ring !! 0; Some (bearing a b)
  else None.

(** What the calipers loop has established after the edges below [k]. *)
Definition calipersInv (convexHull : Polygon) (ring : Ring) (k : nat) (st : Calipers) : Prop :=
  (st.1.2 = None → st.1.1 = Infinity)
  ∧ (st.1.2 = None ↔ ∀ i, i < k → edgeFails convexHull ring i)
  ∧ (∀ a b, 0 < k → ring !! (k - 1) = Some a →
            ring !! (k `mod` (length ring - 1)) = Some b → st.2 = bearing a b).


(** Every two consecutive vertices of [l] are related by [R]. *)
Definition chained (R : Position → Position → Prop) (l : list Position) : Prop :=
  ∀ a b, (a, b) ∈ consecutive l → R a b.






(** The temporary roadmap that the router builds for a query once both
    stitches are found (and no roadmap at all otherwise). *)
Definition routerRoadmap (roads : list LineString) (start end_ : Position)
    (avoid : MultiPolygon) : res (list LineString) :=
  let st := stitchEndpoints roads start end_ avoid in
  match startPath st, endPath st, startRoadSegment st, endRoadSegment st with
  | Some startPath, Some endPath, Some startRoad, Some endRoad =>
      temporaryRoadmap roads startPath endPath startRoad endRoad
  | _, _, _, _ => Ret []
  end.








(** A node is the start or has a predecessor. *)
Definition reached (previous : gmap Key (Key * LineString)) (startKey k : Key) : Prop :=
  k = startKey ∨ is_Some (previous !! k).

(** Every predecessor entry names an edge of the graph into its node, from
    a node that is itself reached and is not the end node; every queued node
    is reached. *)
Definition searchOk (graph : gmap Key (list Edge)) (startKey endKey : Key)
    (st : Search) : Prop :=
  (∀ n m p, st.1.2 !! n = Some (m, p) →
            reached st.1.2 startKey m ∧ m ≠ endKey
            ∧ ∃ edges e, graph !! m = Some edges ∧ e ∈ edges ∧ node e = n ∧ edgePath e = p)
  ∧ (∀ k d, (k, d) ∈ st.2 → reached st.1.2 startKey k).

(** The concatenation of the polylines of a walk in the graph that starts
    at [from], takes no edge out of [final] and no edge into [from]. *)
Inductive Route (graph : gmap Key (list Edge)) (from final : Key)
    : Key → list Position → Prop :=
  | route_nil : Route graph from final from []
  | route_snoc (m : Key) (l : list Position) (edges : list Edge) (e : Edge) :
      Route graph from final m l → graph !! m = Some edges → e ∈ edges →
      m ≠ final → node e ≠ from →
      Route graph from final (node e) (l ++ edgePath e).
(** ** Vocabulary of the further results

    *** Grids and passes *)

(** A cell after a pass: the same cell, with [unvisited] turned into
    [visited] at most. *)
Definition cellAdvanced (c c' : Cell) : Prop :=
  geometry c' = geometry c ∧ gridRow c' = gridRow c ∧ gridCol c' = gridCol c
  ∧ cellCentroid c' = cellCentroid c
  ∧ (visitState c' = visitState c ∨ (visitState c = unvisited ∧ visitState c' = visited)).

(** The grid after a pass: cell by cell, the grid before it advanced. *)
Definition advanced (grid grid' : list Cell) : Prop := Forall2 cellAdvanced grid grid'.

Definition unvisitedCount (grid : list Cell) : nat :=
  length (filter (λ feature, visitState feature = unvisited) grid).

(** Every row index that occurs in the grid is below the row count, so the
    row loop of a pass reaches every cell. *)
Definition rowsInRange (grid : list Cell) : Prop :=
  Forall (λ cell, gridRow cell < getRowCount grid) grid.

(** The cells of a row can be marked: none is unvisitable in [grid]. *)
Definition rowLive (grid : list Cell) (row : Row) : Prop :=
  Forall (λ ic : nat * Cell, ∀ c, grid !! ic.1 = Some c → visitState c ≠ unvisitable) row.

(** A coordinate is the centroid of an unvisited cell of the grid. *)
Definition onUnvisited (grid : list Cell) (q : Position) : Prop :=
  ∃ c, c ∈ grid ∧ visitState c = unvisited ∧ cellCentroid c = q.

(** The [(gridRow, gridCol)] pairs of numbered cells, in order. *)
Definition labelsOf (numbered : list (Polygon * nat * nat)) : list (nat * nat) :=
  (λ f : Polygon * nat * nat, (f.1.2, f.2)) <$> numbered.

Definition cellLabel (cell : Cell) : nat * nat := (gridRow cell, gridCol cell).

Definition inRow (r : nat) (labels : list (nat * nat)) : list (nat * nat) :=
  filter (λ l : nat * nat, l.1 = r) labels.

(** What the numbering loop has established when the last label it gave is
    [(row, col)]: the first label is [(0, 0)], the rows used are those up to
    [row], the columns of every row count from 0, and no label repeats. *)
Definition numbering (labels : list (nat * nat)) (row col : nat) : Prop :=
  list.last labels = Some (row, col)
  ∧ head labels = Some (0, 0)
  ∧ (list_to_set (fst <$> labels) : gset nat) = set_seq 0 (S row)
  ∧ (∀ r, snd <$> inRow r labels = seq 0 (length (inRow r labels)))
  ∧ length (inRow row labels) = S col
  ∧ NoDup labels.

(** *** The calipers *)

(** The rectangle that the calipers record for the hull edge [a b]. *)
Definition edgeBox (convexHull : Polygon) (a b : Position) : Polygon :=
  transformRotate
    (bboxPolygon (bbox (transformRotate convexHull (nneg (bearing a b)) (centroid convexHull))))
    (bearing a b) (centroid convexHull).

(** Edge [i] of the ring runs from [a] to [b]. *)
Definition hullEdge (ring : Ring) (i : nat) (a b : Position) : Prop :=
  i < length ring - 1 ∧ ring !! i = Some a
  ∧ ring !! ((i + 1) `mod` (length ring - 1)) = Some b.

(** No edge below [k] gives a box of smaller area than [least]. *)
Definition leastBelow (convexHull : Polygon) (ring : Ring) (k : nat) (least : num) : Prop :=
  ∀ j a b, j < k → hullEdge ring j a b → nlt (edgeBoxArea convexHull a b) least = false.

(** *** Segments and junction walks *)


(** Neither coordinate of the two positions is incomparable: each pair is
    ordered one way or the other, or formats alike. *)
Definition comparable (a b : Position) : Prop :=
  (nlt a.1 b.1 = true ∨ nlt b.1 a.1 = true
   ∨ toFixed a.1 FIXED_PRECISION = toFixed b.1 FIXED_PRECISION)
  ∧ (nlt a.2 b.2 = true ∨ nlt b.2 a.2 = true
     ∨ toFixed a.2 FIXED_PRECISION = toFixed b.2 FIXED_PRECISION).


(** The coordinate that the junction walk reads back from a fingerprint,
    [JSON.parse(branchKey).map(Number)]. *)
Definition keyCoord (k : Key) : Position := (Number k.1, Number k.2).

(** A trail from the node [from]: it starts at the coordinate read back
    from [from], and every further vertex is the far end of a segment that
    has the node reached so far as one of its ends; no node that the trail
    leaves, other than its first, is a branch point.  The index is the node
    at which the trail stands. *)
Inductive Trail (segments : list LineString) (branchPoints : list Key) (from : Key)
    : Key → list Position → Prop :=
  | trail_start : Trail segments branchPoints from from [keyCoord from]
  | trail_step (key : Key) (path : list Position) (segment : LineString)
               (a b next : Position) :
      Trail segments branchPoints from key path →
      (key = from ∧ length path = 1) ∨ key ∉ branchPoints →
      segment ∈ segments → startEnd segment = Ret (a, b) →
      (key = pointKey a ∧ next = b) ∨ (key = pointKey b ∧ next = a) →
      Trail segments branchPoints from (pointKey next) (path ++ [next]).

(** A road of the roadmap: a trail of two vertices or more from a branch
    point to a branch point. *)
Definition isRoad (segments : list LineString) (branchPoints : list Key)
    (road : LineString) : Prop :=
  ∃ from to z,
    from ∈ branchPoints ∧ to ∈ branchPoints
    ∧ Trail segments branchPoints from to road
    ∧ 2 ≤ length road
    ∧ head road = Some (keyCoord from)
    ∧ list.last road = Some z ∧ pointKey z = to.

(** A stack entry of the junction walk started at [from]. *)
Definition isEntry (segments : list LineString) (branchPoints : list Key) (from : Key)
    (entry : Key * list Position) : Prop :=
  Trail segments branchPoints from entry.1 entry.2
  ∧ ((entry.1 = from ∧ length entry.2 = 1) ∨ entry.1 ∉ branchPoints).

(** The adjacency list holds segments only, each under the fingerprints of
    its two ends. *)
Definition adjacencyOk (segments : list LineString) (adj : gmap Key (list LineString)) : Prop :=
  ∀ k edges e, adj !! k = Some edges → e ∈ edges →
    e ∈ segments ∧ ∃ a b, startEnd e = Ret (a, b) ∧ (k = pointKey a ∨ k = pointKey b).

(** The keys of the segments, as the walk computes them. *)
Definition segmentKeys (segments : list LineString) : gset SegmentKey :=
  list_to_set (segments ≫= λ e,
                 match e with
                 | a :: b :: _ => [(getSegmentKey (a, b)).2]
                 | _ => []
                 end).

(** The number of segment keys that the walk has not visited yet. *)
Definition pending (segments : list LineString) (visited : gset SegmentKey) : nat :=
  size (segmentKeys segments ∖ visited).

(** *** The adjacency graph and the stitches *)

(** Every edge of the graph has its opposite: stored under the edge's
    target, leading back, of the same length, along the reversed polyline. *)
Definition mirrored (graph : gmap Key (list Edge)) : Prop :=
  ∀ k edges e, graph !! k = Some edges → e ∈ edges →
    ∃ edges' e',
      graph !! node e = Some edges' ∧ e' ∈ edges'
      ∧ node e' = k ∧ edgeDistance e' = edgeDistance e
      ∧ edgePath e' = reverse (edgePath e).

(** Every edge of the graph runs along a road, in one direction or the
    other, and carries the length of that road in metres. *)
Definition fromRoads (roads : list LineString) (graph : gmap Key (list Edge)) : Prop :=
  ∀ k edges e, graph !! k = Some edges → e ∈ edges →
    ∃ road,
      road ∈ roads ∧ (edgePath e = road ∨ edgePath e = reverse road)
      ∧ edgeDistance e = lineLength road meters.

(** Every road is an edge from its first vertex to its last. *)
Definition holdsRoads (roads : list LineString) (graph : gmap Key (list Edge)) : Prop :=
  ∀ road, road ∈ roads →
    ∃ a z edges,
      head road = Some a ∧ list.last road = Some z
      ∧ graph !! pointKey a = Some edges
      ∧ mkEdge (pointKey z) (lineLength road meters) road ∈ edges.

(** The straight hops that join the two endpoints of a query to a road. *)
Definition startHop (start : Position) (road : LineString) : LineString :=
  [start; nearestPointOnLine road start].
Definition endHop (end_ : Position) (road : LineString) : LineString :=
  [nearestPointOnLine road end_; end_].

(** Among the first [k] roads, [segment] is a road with a clear hop of
    length [short] (in kilometres), no road has a clear hop that is shorter,
    and nothing is recorded as long as no clear hop of finite length is seen. *)
Definition bestHop (hop : LineString → LineString) (roads : list LineString)
    (avoid : MultiPolygon) (k : nat) (short : num) (path : option LineString)
    (segment : option (nat * LineString)) : Prop :=
  (∀ j road, j < k → roads !! j = Some road → isPathClear (hop road) avoid = true →
     nlt (lineLength (hop road) kilometers) short = false)
  ∧ ((path = None ∧ segment = None ∧ short = Infinity)
     ∨ ∃ i road,
         i < k ∧ roads !! i = Some road ∧ segment = Some (i, road)
         ∧ path = Some (hop road) ∧ isPathClear (hop road) avoid = true
         ∧ short = lineLength (hop road) kilometers ∧ nlt short Infinity = true).

(** *** Markers *)

(** A leg of the path that is long enough to get an arrow. *)
Definition longLeg (laneWidth : num) (leg : Position * Position) : Prop :=
  ngt (distance leg.1 leg.2 meters) (nmul laneWidth (dec 4 0)) = true.
Global Instance longLeg_dec (laneWidth : num) (leg : Position * Position) :
  Decision (longLeg laneWidth leg) := bool_eq_dec _ true.

End Predicates.

(** * Results

    ** The outcome monad *)

Lemma foldM_app {A S : Type} (f : S → A → res S) (s : S) (l1 l2 : list A) :
  foldM f s (l1 ++ l2) = (foldM f s l1 ≫= λ s', foldM f s' l2).
Proof.
  revert s. induction l1 as [|x l1 IH]; intros s; simpl; [done|].
  destruct (f s x); simpl; auto.
Qed.

Lemma bind_Ret_inv {A B : Type} (m : res A) (f : A → res B) (b : B) :
  (m ≫= f) = Ret b → ∃ a, m = Ret a ∧ f a = Ret b.
Proof. destruct m; simpl; intros; [eauto | done | done]. Qed.

Lemma mapM_Ret_elem {A B : Type} (f : A → res B) (l : list A) (ys : list B) :
  mapM f l = Ret ys → ∀ y, y ∈ ys → ∃ x, x ∈ l ∧ f x = Ret y.
Proof.
  revert ys. induction l as [|x l IH]; intros ys Hm y Hy; simpl in Hm.
  - injection Hm as <-. by apply elem_of_nil in Hy.
  - apply bind_Ret_inv in Hm as (y0 & Hx & Hm).
    apply bind_Ret_inv in Hm as (ys0 & Hl & Hm).
    injection Hm as <-.
    apply elem_of_cons in Hy as [->|Hy].
    + exists x. split; [left | done].
    + destruct (IH _ Hl _ Hy) as (x' & ? & ?). exists x'. split; [by right | done].
Qed.

Lemma lineString_Ret `{JsNumber} (l l' : list Position) :
  lineString l = Ret l' → l' = l ∧ 2 ≤ length l.
Proof. unfold lineString. case_decide; [done|]. intros [= <-]. split; [done | lia]. Qed.

Lemma last_snoc_eq {A : Type} (l : list A) (x : A) : list.last (l ++ [x]) = Some x.
Proof. apply last_snoc. Qed.

(** ** Pruning (src/utils/mow-path.ts) *)

Section PruneFacts.
Context `{Turf}.
Variable pruneDistance : num.

Lemma spaced_cons (a b : Position) (l : list Position) :
  spaced pruneDistance (a :: b :: l)
  ↔ far pruneDistance a b ∧ spaced pruneDistance (b :: l).
Proof. done. Qed.

Lemma spaced_snoc (acc : list Position) (x : Position) :
  spaced pruneDistance (acc ++ [x])
  ↔ spaced pruneDistance acc ∧ farFromLast pruneDistance acc x.
Proof.
  induction acc as [|a acc IH]; [unfold farFromLast; simpl; tauto|].
  destruct acc as [|b acc]; [unfold farFromLast; simpl; tauto|].
  change ((a :: b :: acc) ++ [x]) with (a :: b :: (acc ++ [x])).
  rewrite !spaced_cons.
  change (b :: acc ++ [x]) with ((b :: acc) ++ [x]).
  rewrite IH. unfold farFromLast.
  change (list.last (a :: b :: acc)) with (list.last (b :: acc)). tauto.
Qed.

Lemma spaced_app_l (l1 l2 : list Position) :
  spaced pruneDistance (l1 ++ l2) → spaced pruneDistance l1.
Proof.
  induction l1 as [|a l1 IH]; [done|].
  destruct l1 as [|b l1]; [done|].
  change ((a :: b :: l1) ++ l2) with (a :: b :: (l1 ++ l2)).
  rewrite !spaced_cons. intros [? ?]. split; [done|]. by apply IH.
Qed.

Lemma pruneStep_far (acc : list Position) (x : Position) :
  farFromLast pruneDistance acc x → pruneStep pruneDistance acc x = acc ++ [x].
Proof.
  unfold farFromLast, pruneStep, far.
  destruct (list.last acc); [intros -> | ]; done.
Qed.

Lemma pruneStep_spaced (acc : list Position) (x : Position) :
  spaced pruneDistance acc → spaced pruneDistance (pruneStep pruneDistance acc x).
Proof.
  intros Hacc. unfold pruneStep.
  destruct (list.last acc) as [a|] eqn:Hlast.
  - destruct (ngt (distance a x meters) pruneDistance) eqn:Hfar; [|done].
    apply spaced_snoc. split; [done|]. unfold farFromLast. by rewrite Hlast.
  - apply spaced_snoc. split; [done|]. unfold farFromLast. by rewrite Hlast.
Qed.

Lemma prune_spaced (l acc : list Position) :
  spaced pruneDistance acc → spaced pruneDistance (foldl (pruneStep pruneDistance) acc l).
Proof.
  revert acc. induction l as [|x l IH]; intros acc Hacc; simpl; [done|].
  apply IH, pruneStep_spaced, Hacc.
Qed.

Lemma prune_fixed (l acc : list Position) :
  spaced pruneDistance (acc ++ l) → foldl (pruneStep pruneDistance) acc l = acc ++ l.
Proof.
  revert acc. induction l as [|x l IH]; intros acc Hsp; simpl.
  - by rewrite app_nil_r.
  - replace (acc ++ x :: l) with ((acc ++ [x]) ++ l) in * by (by rewrite <- app_assoc).
    rewrite pruneStep_far; [by apply IH|].
    apply spaced_app_l, spaced_snoc in Hsp. tauto.
Qed.

Lemma prunedCoordinates_fixed (l : list Position) :
  prunedCoordinates (prunedCoordinates l pruneDistance) pruneDistance
  = prunedCoordinates l pruneDistance.
Proof.
  unfold prunedCoordinates at 1. apply prune_fixed; simpl.
  apply prune_spaced. exact I.
Qed.

(** Only the first vertex survives when none of the others is far from it. *)
Lemma prune_near_first (first : Position) (rest : list Position) :
  Forall (λ v, ngt (distance first v meters) pruneDistance = false) rest →
  foldl (pruneStep pruneDistance) [first] rest = [first].
Proof.
  induction rest as [|x rest IH]; intros Hall; simpl; [done|].
  apply Forall_cons in Hall as [Hx Hrest].
  unfold pruneStep at 2. simpl. rewrite Hx. by apply IH.
Qed.

(** C7. Pruning is idempotent: pruning the result of [pruneExcessPoints]
    again with the same [pruneDistance] gives that same result, for every
    path (null included) and every distance; when the first pruning throws
    there is no polyline to prune again, and the composition throws alike. *)
Theorem prune_idempotent (path : option LineString) :
  (pruneExcessPoints path pruneDistance ≫= λ pruned, pruneExcessPoints pruned pruneDistance)
  = pruneExcessPoints path pruneDistance.
Proof.
  destruct path as [coordinates|]; simpl; [|done].
  destruct (lineString (prunedCoordinates coordinates pruneDistance)) as [line| |] eqn:Hline;
    simpl; [|done|done].
  destruct (lineString_Ret _ _ Hline) as [-> _].
  rewrite prunedCoordinates_fixed. by rewrite Hline.
Qed.

(** C9. [pruneExcessPoints] is not total on non-null paths: when fewer than
    two vertices survive the pruning -- in particular when the path has
    fewer than two coordinates, or when no vertex is farther than
    [pruneDistance] from the first -- building the result throws the
    library's error and no polyline is returned. *)
Theorem prune_throws_when_short (coordinates : list Position) :
  length coordinates < 2
  ∨ (∃ first rest, coordinates = first :: rest ∧
       Forall (λ v, ngt (distance first v meters) pruneDistance = false) rest)
  ∨ length (prunedCoordinates coordinates pruneDistance) < 2 →
  pruneExcessPoints (Some coordinates) pruneDistance = Throw TurfError.
Proof.
  intros Hshort.
  assert (length (prunedCoordinates coordinates pruneDistance) < 2) as Hlen.
  { destruct Hshort as [Hlen|[(first & rest & -> & Hnear)|Hlen]]; [| |done].
    - destruct coordinates as [|a [|b l]]; simpl in *; [lia | | lia].
      unfold prunedCoordinates. simpl. lia.
    - unfold prunedCoordinates. simpl. unfold pruneStep at 2. simpl.
      rewrite prune_near_first by done. simpl. lia. }
  unfold pruneExcessPoints, lineString. by case_decide.
Qed.
End PruneFacts.

(** ** Junction detection (src/utils/voronoi-roadmap.ts) *)

Section BranchPointFacts.
Context `{Turf}.

Lemma occurrences_snoc (k x : Key) (l : list Key) :
  occurrences k (l ++ [x]) = occurrences k l + (if decide (x = k) then 1 else 0).
Proof.
  unfold occurrences. rewrite filter_app, length_app. f_equal.
  rewrite filter_cons, filter_nil. by case_decide.
Qed.

Lemma elem_of_setAdd (k x : Key) (s : list Key) : k ∈ setAdd x s ↔ k = x ∨ k ∈ s.
Proof.
  unfold setAdd. case_decide as Hx.
  - split; [by right | intros [->|?]; done].
  - rewrite elem_of_app, list_elem_of_singleton. tauto.
Qed.

Lemma countEndpoint_ok (st : gmap Key nat * list Key) (seen : list Key) (x : Key) :
  countsOk st seen → countsOk (countEndpoint st x) (seen ++ [x]).
Proof.
  destruct st as [pointMap keys]. intros [Hcount Hkeys]. simpl in *.
  unfold countEndpoint. split; simpl; intros k; rewrite occurrences_snoc.
  - destruct (decide (x = k)) as [->|Hne].
    + rewrite lookup_insert_eq. simpl. by rewrite Hcount.
    + rewrite lookup_insert_ne by done. rewrite Hcount. lia.
  - specialize (Hcount x). rewrite Hcount.
    pose proof (Hkeys k) as Hk. pose proof (Hkeys x) as Hx.
    destruct (decide (2 < occurrences x seen + 1)) as [Hbig|Hsmall].
    + rewrite elem_of_setAdd. destruct (decide (x = k)) as [->|Hne].
      * split; [intros _; lia | by left].
      * rewrite Hk. split; [intros [->|?]; [done | lia] | intros ?; right; lia].
    + destruct (decide (x = k)) as [->|Hne]; [|rewrite Hk; lia].
      rewrite Hk. lia.
Qed.

Lemma identify_fold (segments : list LineString) (st : gmap Key nat * list Key)
    (seen : list Key) :
  Forall (λ segment, length segment = 2) segments →
  countsOk st seen →
  ∃ st',
    foldM (λ st segment,
             '(start, end_) ← startEnd segment;
             Ret (countEndpoint (countEndpoint st (pointKey start)) (pointKey end_)))
          st segments = Ret st'
    ∧ countsOk st' (seen ++ endpointKeys segments).
Proof.
  intros Hall. revert st seen.
  induction Hall as [|segment segments Hlen _ IH]; intros st seen Hok.
  - exists st. split; [done|]. unfold endpointKeys. simpl. by rewrite app_nil_r.
  - destruct segment as [|a [|b [|c rest]]]; simpl in Hlen; try lia.
    destruct (IH (countEndpoint (countEndpoint st (pointKey a)) (pointKey b))
                 ((seen ++ [pointKey a]) ++ [pointKey b])) as (st' & Hrun & Hok').
    { by apply countEndpoint_ok, countEndpoint_ok. }
    exists st'. split; [exact Hrun|].
    unfold endpointKeys in *. simpl.
    by rewrite <- !app_assoc in Hok'.
Qed.

(** The segments that the roadmap extraction hands to junction detection
    have two coordinates each. *)
Lemma keepSegment_two (obstacles : list Polygon) (st : list LineString * gset SegmentKey)
    (segmentCoords : Position * Position) :
  Forall (λ segment, length segment = 2) st.1 →
  Forall (λ segment, length segment = 2) (keepSegment obstacles st segmentCoords).1.
Proof.
  destruct st as [segments segmentSet]. simpl. intros Hall. unfold keepSegment.
  case_match; [done|]. destruct (getSegmentKey segmentCoords) as [sortedCoords segmentKey].
  case_decide; [done|]. simpl. apply Forall_app. split; [done|]. by constructor.
Qed.

Lemma extracted_segments_have_two_coordinates (boundary : Polygon) (obstacles : list Polygon)
    (cells : list Polygon) (st st' : list LineString * gset SegmentKey) :
  Forall (λ segment, length segment = 2) st.1 →
  foldM (clipCell boundary obstacles) st cells = Ret st' →
  Forall (λ segment, length segment = 2) st'.1.
Proof.
  revert st. induction cells as [|cell cells IH]; intros st Hall; simpl.
  - by intros [= <-].
  - intros Hrun. apply bind_Ret_inv in Hrun as (st1 & Hclip & Hrun).
    apply (IH st1); [|done].
    unfold clipCell in Hclip.
    apply bind_Ret_inv in Hclip as (clipped & _ & Hclip).
    apply bind_Ret_inv in Hclip as (coordinates & _ & [= <-]).
    clear Hrun. revert st Hall.
    induction (consecutive coordinates) as [|pair pairs IHp]; intros st Hall; simpl; [done|].
    by apply IHp, keepSegment_two.
Qed.

(** C8. Junction detection on the segments it is fed (two coordinates each)
    returns, and a fingerprint is among the branch points exactly when it
    occurs more than twice among the endpoints of the segments, both
    endpoints of every segment counted; a fingerprint that occurs once or
    twice is not a branch point. *)
Theorem branch_points_are_the_keys_seen_more_than_twice (segments : list LineString) :
  Forall (λ segment, length segment = 2) segments →
  ∃ branchPointKeys,
    identifyBranchPoints segments = Ret branchPointKeys
    ∧ ∀ k, k ∈ branchPointKeys ↔ 2 < occurrences k (endpointKeys segments).
Proof.
  intros Hall.
  destruct (identify_fold segments (∅, []) [] Hall) as (st' & Hrun & _ & Hkeys).
  { split; simpl; intros k.
    - by rewrite lookup_empty.
    - unfold occurrences. simpl. rewrite elem_of_nil. lia. }
  exists st'.2. split; [|exact Hkeys].
  unfold identifyBranchPoints. by rewrite Hrun.
Qed.
End BranchPointFacts.

(** ** Cell labels (coverage-grid.ts) *)

Section GridFacts.
Context `{Turf}.

Lemma obstacleScan_unvisited (obstaclesPolygons : list Polygon) (c : Position) :
  obstacleScan obstaclesPolygons c unvisited
  = if existsb (λ obstacle, booleanContains obstacle c) obstaclesPolygons
    then unvisitable else unvisited.
Proof.
  induction obstaclesPolygons as [|o rest IH]; simpl; [done|].
  by destruct (booleanContains o c).
Qed.

Lemma markCell_label (boundaryPolygon : option Polygon) (obstaclesPolygons : list Polygon)
    (feature : Polygon * nat * nat) (cell : Cell) :
  markCell boundaryPolygon obstaclesPolygons feature = Ret cell →
  ∃ eroded,
    boundaryPolygon = Some eroded
    ∧ cellCentroid cell = centroid (geometry cell)
    ∧ visitState cell =
        if negb (booleanContains eroded (cellCentroid cell))
           || existsb (λ obstacle, booleanContains obstacle (cellCentroid cell))
                      obstaclesPolygons
        then unvisitable else unvisited.
Proof.
  destruct feature as [[cellPolygon row] col]. unfold markCell.
  destruct boundaryPolygon as [eroded|]; simpl; [|done].
  intros [= <-]. exists eroded. simpl. split; [done|]. split; [done|].
  destruct (booleanContains eroded (centroid cellPolygon)); simpl; [|done].
  apply obstacleScan_unvisited.
Qed.

(** The grid builder returns whenever the erosion leaves a polygon and the
    bounding box has its first two corners. *)
Lemma getCoverageGrid_returns (boundary : Polygon) (obstacles : option (list Polygon))
    (mbb : Polygon) (laneWidth startPoint : num) (eroded : Polygon)
    (p1 p2 : Position) (ring : Ring) (rest : list Ring) :
  buffer boundary (dec (-1) 2) meters = Some eroded →
  mbb = (p1 :: p2 :: ring) :: rest →
  ∃ grid, getCoverageGrid boundary obstacles mbb laneWidth startPoint = Ret grid.
Proof.
  intros Heroded ->. unfold getCoverageGrid. rewrite Heroded. simpl.
  match goal with |- ∃ grid, mapM _ ?cells = _ => generalize cells end.
  intros cells. induction cells as [|[[cellPolygon row] col] cells [grid IH]]; simpl.
  - by eexists.
  - rewrite IH. simpl. by eexists.
Qed.

(** C5. Every cell of the grid that [getCoverageGrid] returns carries the
    centroid of its polygon, and is labelled [unvisitable] when that
    centroid is not contained in the boundary eroded by 1 cm
    ([turf.buffer(boundary, -0.01)] in metres) or is contained in one of the
    obstacles, and [unvisited] in every other case; the grid builder never
    labels a cell [visited]. *)
Theorem cells_are_labelled_by_their_centroid (boundary : Polygon)
    (obstacles : option (list Polygon)) (mbb : Polygon) (laneWidth startPoint : num)
    (grid : list Cell) :
  getCoverageGrid boundary obstacles mbb laneWidth startPoint = Ret grid →
  ∀ cell, cell ∈ grid →
    ∃ eroded,
      buffer boundary (dec (-1) 2) meters = Some eroded
      ∧ cellCentroid cell = centroid (geometry cell)
      ∧ visitState cell =
          (if negb (booleanContains eroded (cellCentroid cell))
              || existsb (λ obstacle, booleanContains obstacle (cellCentroid cell))
                         (default [] obstacles)
           then unvisitable else unvisited)
      ∧ visitState cell ≠ visited.
Proof.
  unfold getCoverageGrid. intros Hgrid cell Hcell.
  apply bind_Ret_inv in Hgrid as (ring & _ & Hgrid).
  apply bind_Ret_inv in Hgrid as (p1 & _ & Hgrid).
  apply bind_Ret_inv in Hgrid as (p2 & _ & Hgrid).
  destruct (mapM_Ret_elem _ _ _ Hgrid cell Hcell) as (feature & _ & Hmark).
  apply markCell_label in Hmark as (eroded & Heroded & Hcentroid & Hlabel).
  exists eroded. repeat split; try done.
  rewrite Hlabel. by case_match.
Qed.
End GridFacts.

(** ** The resume of a pass (mow-path.ts) *)

Section ResumeFacts.
Context `{Turf}.

(** C6. A pass that is given an existing path, finds an unvisited cell and
    gets no route from the last vertex of the path to the centroid of the
    first such cell returns the path it was given, and the grid with every
    cell's visit state as it was: the failed routing is not an error. *)
Theorem resume_without_route_returns_path_unchanged (fuel : nat)
    (coordinates : LineString) (boundary : Polygon) (obstacles : option (list Polygon))
    (roadmap : option (list LineString)) (coverageGrid : list Cell)
    (lastEndPoint : Position) (firstUnvisited : Cell) (others : list Cell) :
  list.last coordinates = Some lastEndPoint →
  filter (λ feature, visitState feature = unvisited) coverageGrid
    = firstUnvisited :: others →
  calculateClearPath fuel roadmap lastEndPoint (cellCentroid firstUnvisited)
                     boundary obstacles = Ret None →
  calculateMowPath fuel (Some coordinates) boundary obstacles roadmap coverageGrid
    = Ret (Some coordinates, coverageGrid).
Proof.
  intros Hlast Hcells Hroute. unfold calculateMowPath.
  rewrite Hlast, Hcells. simpl. by rewrite Hroute.
Qed.
End ResumeFacts.

(** ** The minimum bounding box (boundaries.ts) *)

Section CalipersFacts.
Context `{Turf}.
Variable convexHull : Polygon.
Variable ring : Ring.

Let numPoints := length ring - 1.
Let pivot := centroid convexHull.

Lemma calipersStep_Ret (minArea : num) (best : option Polygon) (angle : num) (i : nat) :
  i < numPoints →
  ∃ a b,
    ring !! i = Some a ∧ ring !! ((i + 1) `mod` numPoints) = Some b
    ∧ calipersStep convexHull ring numPoints pivot (minArea, best, angle) i
      = Ret (if nlt (edgeBoxArea convexHull a b) minArea
             then (edgeBoxArea convexHull a b,
                   Some (transformRotate
                           (bboxPolygon (bbox (transformRotate convexHull
                                                 (nneg (bearing a b)) pivot)))
                           (bearing a b) pivot),
                   bearing a b)
             else (minArea, best, bearing a b)).
Proof.
  intros Hi. subst numPoints.
  destruct (lookup_lt_is_Some_2 ring i) as [a Ha]; [lia|].
  destruct (lookup_lt_is_Some_2 ring ((i + 1) `mod` (length ring - 1))) as [b Hb].
  { pose proof (Nat.mod_upper_bound (i + 1) (length ring - 1)). lia. }
  exists a, b. split; [done|]. split; [done|].
  unfold calipersStep. rewrite Ha, Hb. simpl.
  unfold edgeBoxArea. fold pivot. by case_match.
Qed.

Local Arguments calipersStep : simpl never.

Lemma calipers_prefix (k : nat) :
  k ≤ numPoints →
  ∃ st,
    foldM (calipersStep convexHull ring numPoints pivot) (Infinity, None, dec 0 0) (seq 0 k)
      = Ret st
    ∧ calipersInv convexHull ring k st.
Proof.
  induction k as [|k IH]; intros Hk.
  - eexists. split; [done|]. repeat split; simpl; try done; lia.
  - destruct IH as ([[minArea best] angle] & Hrun & Hnone & Hiff & _); [lia|].
    destruct (calipersStep_Ret minArea best angle k) as (a & b & Ha & Hb & Hstep); [lia|].
    rewrite seq_S, foldM_app, Hrun. simpl in Hnone, Hiff |- *. rewrite Hstep. simpl.
    eexists. split; [done|].
    assert (∀ a' b', ring !! (S k - 1) = Some a' →
                     ring !! (S k `mod` numPoints) = Some b' → bearing a b = bearing a' b')
      as Hangle.
    { intros a' b'. replace (S k - 1) with k by lia. replace (S k) with (k + 1) by lia.
      fold numPoints in Hb. rewrite Ha, Hb. by intros [= ->] [= ->]. }
    destruct (nlt (edgeBoxArea convexHull a b) minArea) eqn:Hlt; repeat split; simpl;
      try done; try (intros; by apply Hangle).
    + intros Hfails. exfalso.
      destruct best as [box|].
      * assert (Some box = None) as Hbox; [|done].
        apply Hiff. intros i Hi. apply Hfails. lia.
      * rewrite Hnone in Hlt by done.
        specialize (Hfails k (Nat.lt_succ_diag_r k) a b Ha). fold numPoints in Hb.
        rewrite Hfails in Hlt; done.
    + intros Hbest i Hi. destruct (decide (i = k)) as [->|Hne].
      * intros a' b'. fold numPoints. rewrite Ha, Hb. intros [= <-] [= <-].
        by rewrite <- (Hnone Hbest).
      * apply Hiff; [done|lia].
    + intros Hfails. apply Hiff. intros i Hi. apply Hfails. lia.
Qed.

Lemma calipersLoop_Ret :
  ∃ st, calipersLoop convexHull ring numPoints pivot = Ret st
        ∧ calipersInv convexHull ring numPoints st.
Proof. apply calipers_prefix. lia. Qed.

End CalipersFacts.

Section BoundingBoxFacts.
Context `{Turf}.


(** A ring of two coordinates or more leaves the centroid a coordinate to
    average. *)
Lemma coordCount_first_ring (ring : Ring) (rest : list Ring) :
  2 ≤ length ring → coordCount (ring :: rest) ≠ 0.
Proof. unfold coordCount. rewrite fmap_cons. simpl. lia. Qed.

(** The last edge exists exactly when the ring has two coordinates or more. *)
Lemma lastEdgeBearing_is_Some (ring : Ring) :
  is_Some (lastEdgeBearing ring) ↔ 2 ≤ length ring.
Proof.
  unfold lastEdgeBearing. case_decide as Hlen; [|split; [by intros [? ?] | lia]].
  split; [done|]. intros _.
  destruct (lookup_lt_is_Some_2 ring (length ring - 2)) as [a ->]; [lia|].
  destruct (lookup_lt_is_Some_2 ring 0) as [b ->]; [lia|]. simpl. eauto.
Qed.

(** C4. For a hull ring with at least one edge and a positive orientation
    offset [delta], [getMinBoundingBox] returns (through the library's
    polygon constructor) the bounding box of the hull rotated about its
    centroid by [-(theta + delta)], rotated back by [theta + delta], where
    [theta] is the bearing of the last edge the calipers considered, whichever
    edge won. *)
Theorem mbb_with_offset_uses_last_edge (convexHull : Polygon) (ring : Ring)
    (rest : list Ring) (delta theta : num) :
  convexHull = ring :: rest →
  lastEdgeBearing ring = Some theta →
  ngt delta (dec 0 0) = true →
  let turned := nadd theta delta in
  let box :=
    transformRotate
      (bboxPolygon (bbox (transformRotate convexHull (nneg turned) (centroid convexHull))))
      turned (centroid convexHull) in
  getMinBoundingBox convexHull delta = polygon box
  ∧ ∀ mbb, getMinBoundingBox convexHull delta = Ret mbb → mbb = box.
Proof.
  intros Hhull Hlast Hpos turned box.
  assert (getMinBoundingBox convexHull delta = polygon box) as Hrun.
  { unfold lastEdgeBearing in Hlast.
    destruct (decide (2 ≤ length ring)) as [Hlen|]; [|done].
    unfold getMinBoundingBox, ring0, centroidOf. rewrite Hhull at 1. simpl.
    rewrite decide_False by (rewrite Hhull; by apply coordCount_first_ring). simpl.
    destruct (calipersLoop_Ret convexHull ring)
      as ([[minArea best] angle] & -> & _ & _ & Hangle).
    simpl in *. rewrite Hpos.
    destruct (ring !! (length ring - 2)) as [a|] eqn:Ha; [|done].
    destruct (ring !! 0) as [b|] eqn:Hb; [|done].
    simpl in Hlast. injection Hlast as <-.
    rewrite (Hangle a b); [done | lia | |].
    - by replace (length ring - 1 - 1) with (length ring - 2) by lia.
    - by rewrite Nat.Div0.mod_same. }
  split; [done|].
  intros mbb. rewrite Hrun. unfold polygon. case_match; [|done]. by intros [= <-].
Qed.
End BoundingBoxFacts.

(** ** The orchestration *)

Section AppFacts.
Context `{Turf}.

Lemma filter_none_of {A : Type} (P : A → Prop) `{∀ x, Decision (P x)} (l : list A) :
  Forall (λ x, ¬ P x) l → filter P l = [].
Proof.
  induction 1 as [|x l Hx _ IH]; [done|].
  rewrite filter_cons. by case_decide.
Qed.

Lemma attempt_keeps {A : Type} (P : Globals → Prop) (m : res A) (g : Globals)
    (k : A → Outcome * Globals) :
  P g → (∀ a, P (k a).2) → P (attempt m g k).2.
Proof. intros Hg Hk. destruct m; simpl; auto. Qed.

Lemma sweepAll_obstacles (fuel : nat) (bounds : Polygon) (grid : list Cell) (g : Globals) :
  obstacles (sweepAll fuel bounds grid g).2 = obstacles g.
Proof.
  unfold sweepAll.
  destruct (sweepLoop fuel bounds (obstacles g) (voronoiPaths g) (mkSweep None 0 grid 0))
    as [r st].
  apply (attempt_keeps (λ g', obstacles g' = obstacles g)); [done|]. intros _.
  apply (attempt_keeps (λ g', obstacles g' = obstacles g)); [done|]. intros path.
  by destruct path.
Qed.

(** When no raw obstacle is clipped, the working boundary is the raw one and
    every raw obstacle is kept. *)
Lemma nothing_clipped_keeps_every_obstacle (bounds : Polygon) (obs : list Polygon) :
  Forall (λ obstacle, booleanWithin obstacle bounds = true) obs →
  differenceObstaclesFromBoundary bounds (Some obs) = Some bounds
  ∧ removeOrphanedObstacles bounds (Some obs) = Some obs.
Proof.
  intros Hall. unfold differenceObstaclesFromBoundary, removeOrphanedObstacles.
  rewrite filter_none_of.
  - split; [done|]. f_equal. induction Hall as [|o obs Ho _ IH]; [done|].
    rewrite filter_cons. case_decide; [by rewrite IH|done].
  - eapply Forall_impl; [exact Hall|]. simpl. by intros o ->.
Qed.

(** The working boundary lies inside the raw one: an obstacle within it is
    within the raw boundary. *)
Lemma within_working_boundary `{!TurfDifferenceLaws} (bounds : Polygon)
    (obstacles : option (list Polygon)) (working inner : Polygon) :
  differenceObstaclesFromBoundary bounds obstacles = Some working →
  booleanWithin inner working = true → booleanWithin inner bounds = true.
Proof.
  unfold differenceObstaclesFromBoundary. destruct obstacles as [obs|]; [|by intros [= <-]].
  case_decide; [by intros [= <-]|]. apply within_difference.
Qed.

(** C2 (as the code has it). Whenever the conditioner leaves a working
    boundary (the raw boundary minus the raw obstacles that are not within
    it), the working obstacle set is the raw obstacles that are fully
    contained, that is within the raw boundary, and that lie within the
    working boundary as well, in their order; it is null when there are no
    raw obstacles.  So an obstacle that is not within the raw boundary is
    never kept, and when every raw obstacle is fully contained the working
    boundary is the raw one and every obstacle is kept.  This holds however
    the rest of the pipeline ends, and uses that what [turf.difference]
    leaves of a polygon lies inside it. *)
Theorem working_obstacles_are_the_contained_ones_within_the_working_boundary
    `{!TurfDifferenceLaws} (fuel : nat) (bounds : Polygon) (g : Globals)
    (working : Polygon) :
  differenceObstaclesFromBoundary bounds (rawObstacles g) = Some working →
  obstacles (generateAll fuel bounds g).2
  = (filter (λ obstacle, booleanWithin obstacle bounds = true
                         ∧ booleanWithin obstacle working = true) <$> rawObstacles g)
  ∧ (∀ obs,
       rawObstacles g = Some obs →
       Forall (λ obstacle, booleanWithin obstacle bounds = true) obs →
       working = bounds ∧ obstacles (generateAll fuel bounds g).2 = Some obs).
Proof.
  intros Hworking.
  assert (obstacles (generateAll fuel bounds g).2
          = removeOrphanedObstacles working (rawObstacles g)) as ->.
  { unfold generateAll. simpl. rewrite Hworking.
    set (kept := removeOrphanedObstacles working (rawObstacles g)).
    apply (attempt_keeps (λ g', obstacles g' = kept)); [done|]. intros mbb.
    apply (attempt_keeps (λ g', obstacles g' = kept)); [done|]. intros grid.
    apply (attempt_keeps (λ g', obstacles g' = kept)); [done|]. intros heading.
    apply (attempt_keeps (λ g', obstacles g' = kept)); [done|]. intros roadmap.
    by rewrite sweepAll_obstacles. }
  split.
  - unfold removeOrphanedObstacles. destruct (rawObstacles g) as [obs|]; [|done].
    simpl. f_equal. apply list_filter_iff. intros obstacle. split; [|by intros [_ ?]].
    intros Hin. split; [|done]. by eapply within_working_boundary.
  - intros obs Hraw Hall. rewrite Hraw in *.
    destruct (nothing_clipped_keeps_every_obstacle bounds obs Hall) as [Hsame Hkept].
    assert (working = bounds) as -> by congruence. done.
Qed.

Local Arguments getCoverage : simpl never.

Lemma getCoverage_unvisitable `{!JsNumberLaws} (grid : list Cell) :
  Forall (λ cell, visitState cell = unvisitable) grid →
  getCoverage (Some grid) = NaN.
Proof.
  intros Hall. unfold getCoverage.
  rewrite !filter_none_of; [apply ndiv_zero_zero | |];
    (eapply Forall_impl; [exact Hall|]); simpl; intros c ->; done.
Qed.

(** C10. When no cell of the coverage grid is visited or unvisited (all are
    unvisitable), the coverage ratio is 0/0, that is NaN; the loop condition
    [coverage < 0.99] is false; the loop runs no pass, whatever the budget
    for unrolling it; and the mow path that the pipeline stores is null:
    neither an empty polyline nor an error.  The last part is stated both
    for the loop-and-prune half of [generateAll] and for [generateAll] itself
    whenever its earlier stages produce that grid. *)
Theorem all_unvisitable_gives_null_path `{!JsNumberLaws} (fuel : nat) (grid : list Cell) :
  Forall (λ cell, visitState cell = unvisitable) grid →
  getCoverage (Some grid) = NaN
  ∧ nlt (getCoverage (Some grid)) (dec 99 2) = false
  ∧ (∀ bounds obs roadmap,
       sweepLoop fuel bounds obs roadmap (mkSweep None 0 grid 0)
       = (Ret (), mkSweep None 0 grid 0))
  ∧ (∀ bounds g,
       sweepAll fuel bounds grid g
       = (Finished, setMowPath None (setCoverageGrid (Some grid) g)))
  ∧ (∀ bounds g working hull mbb heading roadmap,
       differenceObstaclesFromBoundary bounds (rawObstacles g) = Some working →
       getConvexHull working = Some hull →
       getMinBoundingBox hull (mbbOrientation g) = Ret mbb →
       getCoverageGrid working (removeOrphanedObstacles working (rawObstacles g)) mbb
                       (laneWidth g) (startPoint g) = Ret grid →
       getTravelHeading grid = Ret heading →
       calculateVoronoiRoadmap fuel working
         (removeOrphanedObstacles working (rawObstacles g)) = Ret roadmap →
       (generateAll fuel bounds g).1 = Finished
       ∧ mowPath (generateAll fuel bounds g).2 = None
       ∧ pathMarkers (generateAll fuel bounds g).2 = pathMarkers g).
Proof.
  intros Hall.
  pose proof (getCoverage_unvisitable grid Hall) as Hnan.
  assert (nlt (getCoverage (Some grid)) (dec 99 2) = false) as Hcond.
  { rewrite Hnan. apply nlt_NaN_l. }
  assert (∀ bounds obs roadmap,
            sweepLoop fuel bounds obs roadmap (mkSweep None 0 grid 0)
            = (Ret (), mkSweep None 0 grid 0)) as Hloop.
  { intros. destruct fuel; simpl; by rewrite Hcond. }
  assert (∀ bounds g,
            sweepAll fuel bounds grid g
            = (Finished, setMowPath None (setCoverageGrid (Some grid) g))) as Hsweep.
  { intros. unfold sweepAll. by rewrite Hloop. }
  do 4 (split; [done|]).
  intros bounds g working hull mbb heading roadmap Hw Hhull Hmbb Hgrid Hhead Hroad.
  unfold generateAll. simpl. rewrite Hw, Hhull. simpl. rewrite Hmbb. simpl.
  rewrite Hgrid. simpl. rewrite Hhead. simpl. rewrite Hroad. simpl.
  by rewrite Hsweep.
Qed.
End AppFacts.

(** ** The clear-path router (voronoi-roadmap.ts) *)

Section ListFacts.
Context {A : Type}.
Implicit Types (l : list A) (a b x : A).

Lemma consecutive_cons a b l : consecutive (a :: b :: l) = (a, b) :: consecutive (b :: l).
Proof. done. Qed.

Lemma elem_of_consecutive_app a b l1 l2 :
  (a, b) ∈ consecutive (l1 ++ l2)
  ↔ (a, b) ∈ consecutive l1 ∨ (a, b) ∈ consecutive l2
    ∨ (list.last l1 = Some a ∧ head l2 = Some b).
Proof.
  induction l1 as [|x l1 IH].
  - simpl. unfold consecutive at 2. simpl. rewrite elem_of_nil. intuition congruence.
  - destruct l1 as [|y l1].
    + simpl. destruct l2 as [|z l2].
      * unfold consecutive. simpl. rewrite !elem_of_nil. intuition congruence.
      * rewrite consecutive_cons, elem_of_cons.
        unfold consecutive at 2. simpl. rewrite elem_of_nil. intuition congruence.
    + change ((x :: y :: l1) ++ l2) with (x :: y :: (l1 ++ l2)).
      rewrite !consecutive_cons, !elem_of_cons.
      change (y :: l1 ++ l2) with ((y :: l1) ++ l2). rewrite IH.
      change (list.last (x :: y :: l1)) with (list.last (y :: l1)). tauto.
Qed.

Lemma elem_of_consecutive_snoc a b l x :
  (a, b) ∈ consecutive (l ++ [x])
  ↔ (a, b) ∈ consecutive l ∨ (list.last l = Some a ∧ b = x).
Proof.
  rewrite elem_of_consecutive_app. unfold consecutive at 2. simpl.
  rewrite elem_of_nil. intuition congruence.
Qed.


Lemma elem_of_consecutive_r a b l : (a, b) ∈ consecutive l → b ∈ l.
Proof.
  unfold consecutive. intros Hin. apply elem_of_zip_r in Hin.
  destruct l; [by apply elem_of_nil in Hin | by right].
Qed.
End ListFacts.

Section RouterFacts.
Context `{Turf}.
Variable R : Position → Position → Prop.
Variable pts : list Position.
Variable startKey endKey : Key.

Lemma chained_app (Q : Position → Position → Prop) (l1 l2 : list Position) :
  chained Q (l1 ++ l2)
  ↔ chained Q l1 ∧ chained Q l2
    ∧ (∀ a b, list.last l1 = Some a → head l2 = Some b → Q a b).
Proof.
  unfold chained. setoid_rewrite elem_of_consecutive_app.
  split.
  - intros Hall. repeat split; intros; apply Hall; auto.
  - intros (H1 & H2 & H3) a b [?|[?|[? ?]]]; auto.
Qed.

Lemma lookup_pushAdj {V : Type} (k k' : Key) (v : V) (m : gmap Key (list V)) :
  pushAdj k v m !! k'
  = if decide (k = k') then Some (default [] (m !! k) ++ [v]) else m !! k'.
Proof.
  unfold pushAdj. case_decide as Hk.
  - subst. by rewrite lookup_insert_eq.
  - by rewrite lookup_insert_ne.
Qed.





End RouterFacts.

(** *** The search tables *)

Section SearchFacts.
Context `{Turf}.
Variable startKey endKey : Key.
Variable graph : gmap Key (list Edge).

Lemma reached_insert (previous : gmap Key (Key * LineString)) (n k : Key)
    (v : Key * LineString) :
  reached previous startKey k → reached (<[n := v]> previous) startKey k.
Proof.
  intros [->|Hsome]; [by left|]. right.
  destruct (decide (n = k)) as [->|Hne].
  - rewrite lookup_insert_eq. eauto.
  - by rewrite lookup_insert_ne.
Qed.

Lemma relax_reached (cur : Key) (cd : num) (st : Search) (e : Edge) (k : Key) :
  reached st.1.2 startKey k → reached (relax cur cd st e).1.2 startKey k.
Proof.
  destruct st as [[distances previous] pq]. unfold relax. simpl.
  destruct (distances !! node e) as [known|]; [|done].
  destruct (nlt (nadd cd (edgeDistance e)) known); [|done].
  simpl. apply reached_insert.
Qed.

Lemma relax_ok (cur : Key) (cd : num) (st : Search) (e : Edge) (edges : list Edge) :
  searchOk graph startKey endKey st → reached st.1.2 startKey cur → cur ≠ endKey →
  graph !! cur = Some edges → e ∈ edges →
  searchOk graph startKey endKey (relax cur cd st e).
Proof.
  destruct st as [[distances previous] pq]. intros [Hprev Hpq] Hcur Hne Hedges He.
  unfold relax. simpl in *.
  destruct (distances !! node e) as [known|]; [|done].
  destruct (nlt (nadd cd (edgeDistance e)) known); [|done].
  split; simpl.
  - intros n m p. destruct (decide (node e = n)) as [<-|Hn].
    + rewrite lookup_insert_eq. intros [= <- <-].
      split; [by apply reached_insert|]. split; [done|]. by exists edges, e.
    + rewrite lookup_insert_ne by done. intros Hlook.
      destruct (Hprev n m p Hlook) as (Hm & Hend & Hedge).
      split; [by apply reached_insert|done].
  - intros k d. rewrite elem_of_app, list_elem_of_singleton.
    intros [Hk|[= -> ->]].
    + apply reached_insert. by apply (Hpq k d).
    + right. rewrite lookup_insert_eq. eauto.
Qed.

Lemma foldl_relax_ok (cur : Key) (cd : num) (edges es : list Edge) (st : Search) :
  (∀ e, e ∈ es → e ∈ edges) →
  searchOk graph startKey endKey st → reached st.1.2 startKey cur → cur ≠ endKey →
  graph !! cur = Some edges →
  searchOk graph startKey endKey (foldl (relax cur cd) st es).
Proof.
  revert st. induction es as [|e es IH]; intros st Hsub Hok Hcur Hne Hedges; simpl; [done|].
  apply IH; [| | |done|done].
  - intros e' He'. apply Hsub. by right.
  - eapply relax_ok; [done|done|done|exact Hedges|]. apply Hsub. by left.
  - by apply relax_reached.
Qed.

Lemma elem_of_pqInsert (x y : Key * num) (pq : list (Key * num)) :
  y ∈ pqInsert x pq ↔ y = x ∨ y ∈ pq.
Proof.
  induction pq as [|z pq IH]; simpl.
  - rewrite list_elem_of_singleton, elem_of_nil. tauto.
  - case_match.
    + rewrite elem_of_cons. tauto.
    + rewrite !elem_of_cons, IH. tauto.
Qed.

Lemma elem_of_pqSort (y : Key * num) (pq : list (Key * num)) : y ∈ pqSort pq ↔ y ∈ pq.
Proof.
  unfold pqSort.
  assert (∀ acc, y ∈ foldl (λ sorted x, pqInsert x sorted) acc pq ↔ y ∈ acc ∨ y ∈ pq) as Hgen.
  { induction pq as [|x pq IH]; intros acc; simpl.
    - rewrite elem_of_nil. tauto.
    - rewrite IH, elem_of_pqInsert, elem_of_cons. tauto. }
  rewrite Hgen, elem_of_nil. tauto.
Qed.

(** The walk back along the predecessors ends only at a node without a
    predecessor, and such a node is the start. *)
Lemma reconstruct_start (fuel : nat) (previous : gmap Key (Key * LineString))
    (n : Key) (acc fullPath : list Position) :
  searchOk graph startKey endKey (∅, previous, []) →
  reached previous startKey n →
  reconstruct fuel previous n acc = Ret fullPath →
  previous !! startKey = None.
Proof.
  intros [Hprev _]. simpl in Hprev.
  revert n acc. induction fuel as [|fuel IH]; intros n acc Hn; simpl.
  - destruct (previous !! n) as [prev|] eqn:Hlook; [done|]. intros _.
    destruct Hn as [->|[? ?]]; [done | congruence].
  - destruct (previous !! n) as [[m p]|] eqn:Hlook.
    + simpl. intros Hrec. destruct (Hprev n m p Hlook) as (Hm & _).
      by apply (IH m _ Hm Hrec).
    + intros _. destruct Hn as [->|[? ?]]; [done | congruence].
Qed.

Lemma reconstruct_route (fuel : nat) (previous : gmap Key (Key * LineString))
    (n : Key) (acc fullPath : list Position) :
  searchOk graph startKey endKey (∅, previous, []) →
  reached previous startKey n →
  reconstruct fuel previous n acc = Ret fullPath →
  ∃ chain, fullPath = chain ++ acc ∧ Route graph startKey endKey n chain.
Proof.
  intros Hok Hn Hrun.
  pose proof (reconstruct_start fuel previous n acc fullPath Hok Hn Hrun) as Hstart.
  destruct Hok as [Hprev _]. simpl in Hprev.
  revert n acc Hn Hrun. induction fuel as [|fuel IH]; intros n acc Hn; simpl.
  - destruct (previous !! n) as [prev|] eqn:Hlook; [done|].
    intros [= <-]. exists []. split; [done|].
    destruct Hn as [->|[? ?]]; [constructor | congruence].
  - destruct (previous !! n) as [[m p]|] eqn:Hlook.
    + simpl. intros Hrec.
      destruct (Hprev n m p Hlook) as (Hm & Hend & edges & e & Hedges & He & <- & <-).
      destruct (IH m _ Hm Hrec) as (chain & -> & Hroute).
      exists (chain ++ edgePath e). split; [by rewrite <- app_assoc|].
      eapply route_snoc; [done|done|done|done|]. congruence.
    + intros [= <-]. exists []. split; [done|].
      destruct Hn as [->|[? ?]]; [constructor | congruence].
Qed.

Local Arguments reconstruct : simpl never.
Local Arguments pqSort : simpl never.
Local Arguments lineString : simpl never.

(** A path that the search returns was rebuilt from tables in good order,
    starting at a reached node. *)
Lemma dijkstraLoop_found (fuel : nat) (st : Search) (line : LineString) :
  searchOk graph startKey endKey st →
  dijkstraLoop fuel graph endKey st = Ret (Some line) →
  ∃ fuel' previous fullPath,
    searchOk graph startKey endKey (∅, previous, [])
    ∧ reached previous startKey endKey
    ∧ reconstruct fuel' previous endKey [] = Ret fullPath
    ∧ lineString fullPath = Ret line.
Proof.
  revert st. induction fuel as [|fuel IH]; intros [[distances previous] pq] Hok.
  - simpl. by destruct (pqSort _) as [|[cur d] rest].
  - simpl. destruct (pqSort _) as [|[cur d] rest] eqn:Hsort; [done|].
    assert (reached previous startKey cur) as Hcur.
    { destruct Hok as [_ Hpq]. simpl in Hpq. apply (Hpq cur d). apply elem_of_pqSort.
      rewrite Hsort. by left. }
    assert (searchOk graph startKey endKey (distances, previous, rest)) as Hrest.
    { destruct Hok as [Hprev Hpq]. simpl in Hpq. split; [done|]. simpl. intros k d' Hk.
      apply (Hpq k d'). apply elem_of_pqSort. rewrite Hsort. by right. }
    case_decide as Hend.
    + subst cur.
      destruct (reconstruct (S fuel) previous endKey []) as [fullPath| |] eqn:Hrec;
        simpl; [|done|done].
      destruct (lineString fullPath) as [found| |] eqn:Hline; simpl; [|done|done].
      intros [= <-]. exists (S fuel), previous, fullPath.
      split; [|done]. split; [apply Hok|].
      simpl. intros k d' Hk. by apply elem_of_nil in Hk.
    + destruct (graph !! cur) as [edges|] eqn:Hedges; simpl; [|done].
      apply IH.
      destruct (distances !! cur) as [cd|]; [|done].
      by apply (foldl_relax_ok cur cd edges edges).
Qed.

Lemma searchOk_initial (distances : gmap Key num) (d : num) :
  searchOk graph startKey endKey (distances, ∅, [(startKey, d)]).
Proof.
  split; simpl.
  - intros n m p. by rewrite lookup_empty.
  - intros k d'. rewrite list_elem_of_singleton. intros [= -> _]. by left.
Qed.

End SearchFacts.

(** *** Walks in a graph in good order *)

Section WalkFacts.
Context `{Turf}.
Variable R : Position → Position → Prop.
Variable pts : list Position.
Variable startKey endKey : Key.
Variable graph : gmap Key (list Edge).


(** *** The pass that drops repeated fingerprints *)

Lemma chained_nil (Q : Position → Position → Prop) : chained Q [].
Proof. intros a b Hab. unfold consecutive in Hab. simpl in Hab. by apply elem_of_nil in Hab. Qed.

Lemma chained_singleton (Q : Position → Position → Prop) (x : Position) : chained Q [x].
Proof. intros a b Hab. unfold consecutive in Hab. simpl in Hab. by apply elem_of_nil in Hab. Qed.




End WalkFacts.

(** *** What holds of every returned path: its ends have the fingerprints
    of the two points asked for *)

Section RouterFingerprints.
Context `{Turf}.






(** How a path found on the roadmap is produced: the graph is that of the
    temporary roadmap, the search runs on it and returns a walk from the
    node of [start] to the node of [end_], and repeated fingerprints are
    dropped from that walk. *)
Lemma router_path_comes_from_routerRoadmap (fuel : nat) (roads : list LineString)
    (start end_ : Position) (boundary : Polygon) (obstacles : option (list Polygon))
    (found : LineString) :
  let avoid := boundaryAndObstacles boundary (default [] obstacles) in
  isPathClear [start; end_] avoid = false →
  calculateClearPath fuel (Some roads) start end_ boundary obstacles = Ret (Some found) →
  ∃ temp graph walk,
    routerRoadmap roads start end_ avoid = Ret temp
    ∧ calculateAdjacencyGraph temp = Ret graph
    ∧ getDijkstraPath fuel graph start end_ = Ret (Some walk)
    ∧ Route graph (pointKey start) (pointKey end_) (pointKey end_) walk
    ∧ 2 ≤ length walk
    ∧ found = foldl dropRepeat [] walk
    ∧ ∃ sp ep sr er,
        startPath (stitchEndpoints roads start end_ avoid) = Some sp
        ∧ endPath (stitchEndpoints roads start end_ avoid) = Some ep
        ∧ temporaryRoadmap roads sp ep sr er = Ret temp.
Proof.
  intros avoid Hdirect. unfold calculateClearPath, routerRoadmap. fold avoid.
  rewrite Hdirect. simpl.
  destruct (startPath (stitchEndpoints roads start end_ avoid)) as [sp|]; [|done].
  destruct (endPath (stitchEndpoints roads start end_ avoid)) as [ep|]; [|done].
  destruct (startRoadSegment (stitchEndpoints roads start end_ avoid)) as [sr|]; [|done].
  destruct (endRoadSegment (stitchEndpoints roads start end_ avoid)) as [er|]; [|done].
  intros Hrun.
  assert (∀ temp, temporaryRoadmap roads sp ep sr er = Ret temp →
                  ∃ sp' ep' sr' er',
                    Some sp = Some sp' ∧ Some ep = Some ep'
                    ∧ temporaryRoadmap roads sp' ep' sr' er' = Ret temp) as Hstitches.
  { intros temp Htemp. by exists sp, ep, sr, er. }
  apply bind_Ret_inv in Hrun as (temp & Htemp & Hrun).
  apply bind_Ret_inv in Hrun as (graph & Hgraph & Hrun).
  apply bind_Ret_inv in Hrun as (dijkstraPath & Hsearch & Hrun).
  destruct dijkstraPath as [walk|]; [|done].
  apply bind_Ret_inv in Hrun as (line & Hline & [= <-]).
  apply lineString_Ret in Hline as [-> _].
  exists temp, graph, walk. do 3 (split; [done|]).
  unfold getDijkstraPath in Hsearch. case_decide; [done|].
  apply (dijkstraLoop_found (pointKey start) (pointKey end_) graph) in Hsearch;
    [|apply searchOk_initial].
  destruct Hsearch as (fuel' & previous & full & Hprev & Hend & Hrec & Hfull).
  apply lineString_Ret in Hfull as [-> Hlen].
  destruct (reconstruct_route (pointKey start) (pointKey end_) graph fuel' previous
              (pointKey end_) [] full Hprev Hend Hrec) as (chain & -> & Hroute).
  rewrite app_nil_r in *. split; [done|]. split; [lia|]. split; [done|].
  by apply Hstitches.
Qed.

End RouterFingerprints.

Section RouterSoundness.
Context `{Turf}.









End RouterSoundness.

(** * Further results

    ** Pruned paths and passes (mow-path.ts) *)

Section PruneShape.
Context `{Turf}.
Variable pruneDistance : num.

Lemma prune_fold_shape (l acc : list Position) :
  ∃ kept, foldl (pruneStep pruneDistance) acc l = acc ++ kept ∧ kept `sublist_of` l
          ∧ (acc = [] → head kept = head l).
Proof.
  revert acc. induction l as [|x l IH]; intros acc; simpl.
  - exists []. by rewrite app_nil_r.
  - destruct (IH (pruneStep pruneDistance acc x)) as (kept & -> & Hsub & Hhead).
    unfold pruneStep in *. destruct (list.last acc) as [a|] eqn:Hlast.
    + destruct (ngt (distance a x meters) pruneDistance).
      * exists (x :: kept). rewrite <- app_assoc. split; [done|].
        split; [by apply sublist_skip|]. intros ->. done.
      * exists kept. split; [done|]. split; [by apply sublist_cons|]. intros ->. done.
    + exists (x :: kept). rewrite <- app_assoc. split; [done|].
      split; [by apply sublist_skip|]. done.
Qed.

Lemma pruneExcessPoints_shape (coordinates pruned : list Position) :
  pruneExcessPoints (Some coordinates) pruneDistance = Ret (Some pruned) →
  2 ≤ length pruned
  ∧ head pruned = head coordinates
  ∧ pruned `sublist_of` coordinates
  ∧ spaced pruneDistance pruned.
Proof.
  unfold pruneExcessPoints. intros Hrun.
  apply bind_Ret_inv in Hrun as (line & Hline & [= <-]).
  apply lineString_Ret in Hline as [-> Hlen].
  split; [done|].
  destruct (prune_fold_shape coordinates []) as (kept & Hkept & Hsub & Hhead).
  unfold prunedCoordinates. rewrite Hkept. simpl.
  split; [by apply Hhead|]. split; [done|].
  change kept with ([] ++ kept). rewrite <- Hkept. by apply prune_spaced.
Qed.

(** X1. A path that [pruneExcessPoints] returns has two coordinates or
    more, starts with the first coordinate of the path it was given, is a
    selection of that path's coordinates in their order, and has every
    coordinate farther than [pruneDistance] (in metres) from the one kept
    before it. *)
Theorem pruned_path_is_a_spaced_selection (coordinates pruned : list Position) :
  pruneExcessPoints (Some coordinates) pruneDistance = Ret (Some pruned) →
  2 ≤ length pruned
  ∧ head pruned = head coordinates
  ∧ pruned `sublist_of` coordinates
  ∧ spaced pruneDistance pruned.
Proof. apply pruneExcessPoints_shape. Qed.
End PruneShape.

Section PassFacts.
Context `{Turf}.

Lemma cellAdvanced_refl (c : Cell) : cellAdvanced c c.
Proof. unfold cellAdvanced. tauto. Qed.

Lemma cellAdvanced_trans (a b c : Cell) :
  cellAdvanced a b → cellAdvanced b c → cellAdvanced a c.
Proof.
  unfold cellAdvanced. intros (-> & -> & -> & -> & Hab) (-> & -> & -> & -> & Hbc).
  do 4 (split; [done|]).
  destruct Hab as [Hab|[Ha Hb]], Hbc as [Hbc|[Hb' Hc]].
  - left. congruence.
  - right. split; congruence.
  - right. split; congruence.
  - congruence.
Qed.

Lemma advanced_refl (grid : list Cell) : advanced grid grid.
Proof. apply Forall_Forall2_diag, Forall_forall. intros c _. apply cellAdvanced_refl. Qed.

Lemma advanced_trans (g1 g2 g3 : list Cell) :
  advanced g1 g2 → advanced g2 g3 → advanced g1 g3.
Proof. apply Forall2_trans, cellAdvanced_trans. Qed.

Lemma advanced_lookup (g g' : list Cell) (i : nat) (c' : Cell) :
  advanced g g' → g' !! i = Some c' → ∃ c, g !! i = Some c ∧ cellAdvanced c c'.
Proof. intros Hadv Hc'. by apply (Forall2_lookup_r _ _ _ _ _ Hadv Hc'). Qed.



Lemma advanced_count (g g' : list Cell) :
  advanced g g' → unvisitedCount g' ≤ unvisitedCount g.
Proof.
  unfold unvisitedCount.
  induction 1 as [|c c' g g' (_ & _ & _ & _ & Hstate) _ IH]; [done|].
  rewrite !filter_cons.
  destruct (decide (visitState c' = unvisited)) as [Hc'|Hc'];
    destruct (decide (visitState c = unvisited)) as [Hc|Hc]; simpl; try lia.
  destruct Hstate as [?|[? ?]]; congruence.
Qed.

Lemma advanced_count_lt (g g' : list Cell) (i : nat) (c c' : Cell) :
  advanced g g' → g !! i = Some c → g' !! i = Some c' →
  visitState c = unvisited → visitState c' ≠ unvisited →
  unvisitedCount g' < unvisitedCount g.
Proof.
  intros Hadv. revert i.
  induction Hadv as [|a a' g g' Ha Hrest IH]; intros i Hc Hc' Hu Hv; [done|].
  pose proof (advanced_count _ _ Hrest) as Hle.
  unfold unvisitedCount in *. rewrite !filter_cons.
  destruct i as [|i]; simpl in Hc, Hc'.
  - injection Hc as ->. injection Hc' as ->.
    destruct (decide (visitState c' = unvisited)); [done|].
    destruct (decide (visitState c = unvisited)); [|done]. simpl. lia.
  - specialize (IH i Hc Hc' Hu Hv).
    destruct Ha as (_ & _ & _ & _ & Hstate).
    destruct (decide (visitState a' = unvisited)) as [Ha'|Ha'];
      destruct (decide (visitState a = unvisited)) as [Ha0|Ha0]; simpl; try lia.
    destruct Hstate as [?|[? ?]]; congruence.
Qed.

Lemma markVisited_advanced (i : nat) (grid : list Cell) :
  (∀ c, grid !! i = Some c → visitState c ≠ unvisitable) →
  advanced grid (markVisited i grid).
Proof.
  intros Hlive. unfold markVisited. apply Forall2_alter_r; [apply advanced_refl|].
  intros c c' Hc Hc' (Hg & Hr & Hcl & Hce & Hstate). unfold cellAdvanced. simpl.
  do 4 (split; [done|]).
  assert (c' = c) as -> by congruence.
  specialize (Hlive c Hc). destruct (visitState c); [by right | by left | done].
Qed.

Lemma markVisited_lookup (i : nat) (grid : list Cell) (c : Cell) :
  grid !! i = Some c →
  ∃ c', markVisited i grid !! i = Some c' ∧ visitState c' = visited.
Proof.
  intros Hc. unfold markVisited. rewrite list_lookup_alter, decide_True by done.
  rewrite Hc. simpl. eauto.
Qed.

Lemma rowLive_advanced (g g' : list Cell) (row : Row) :
  advanced g g' → rowLive g row → rowLive g' row.
Proof.
  intros Hadv Hrow. eapply Forall_impl; [exact Hrow|].
  intros [i c] Hlive c' Hc'. simpl in *.
  destruct (advanced_lookup _ _ _ _ Hadv Hc') as (c0 & Hc0 & _ & _ & _ & _ & Hstate).
  specialize (Hlive c0 Hc0).
  destruct Hstate as [->|[_ ->]]; done.
Qed.

Lemma traverseRow_spec (Q : Position → Prop) (rowIndex : nat) (rest : Row) :
  ∀ (prevCell : Cell) (waypoints : list Position) (grid : list Cell),
  rowLive grid rest →
  Q (cellCentroid prevCell) → Forall (λ ic : nat * Cell, Q (cellCentroid ic.2)) rest →
  ∃ extra,
    (traverseRow rowIndex prevCell rest waypoints grid).1.2 = waypoints ++ extra
    ∧ Forall Q extra
    ∧ advanced grid (traverseRow rowIndex prevCell rest waypoints grid).2.
Proof.
  induction rest as [|[i cell] rest IH]; intros prevCell waypoints grid Hlive Hprev HQ; simpl.
  - exists []. rewrite app_nil_r. split; [done|]. split; [done|]. apply advanced_refl.
  - apply Forall_cons in Hlive as [Hi Hlive]. apply Forall_cons in HQ as [Hcell HQ].
    simpl in Hi, Hcell.
    pose proof (markVisited_advanced i grid Hi) as Hmark.
    case_decide.
    { exists [cellCentroid prevCell]. split; [done|]. split; [by constructor|].
      apply advanced_refl. }
    case_decide.
    { exists [cellCentroid cell]. split; [done|]. split; [by constructor|done]. }
    destruct (IH cell (match rest with [] => waypoints ++ [cellCentroid cell] | _ => waypoints end)
                 (markVisited i grid)) as (extra & Hwp & Hextra & Hadv);
      [by eapply rowLive_advanced|done|done|].
    destruct rest as [|next rest].
    + exists (cellCentroid cell :: extra). rewrite Hwp, <- app_assoc.
      split; [done|]. split; [by constructor|]. by eapply advanced_trans.
    + exists extra. split; [done|]. split; [done|]. by eapply advanced_trans.
Qed.

Lemma elem_of_drop_in {A : Type} (l : list A) (n : nat) (x : A) : x ∈ drop n l → x ∈ l.
Proof.
  rewrite !list_elem_of_lookup. intros [i Hi]. rewrite lookup_drop in Hi. eauto.
Qed.

Lemma elem_of_indexed {A : Type} (l : list A) (i : nat) (x : A) :
  (i, x) ∈ indexed l ↔ l !! i = Some x.
Proof.
  unfold indexed. rewrite list_elem_of_lookup. split.
  - intros (j & Hj). rewrite lookup_zip_with in Hj.
    destruct (seq 0 (length l) !! j) as [k|] eqn:Hk; simpl in Hj; [|done].
    destruct (l !! j) as [y|] eqn:Hy; simpl in Hj; [|done].
    injection Hj as <- <-. apply lookup_seq in Hk as [-> _]. done.
  - intros Hx. exists i. rewrite lookup_zip_with, Hx.
    rewrite (proj2 (lookup_seq 0 (length l) i i)); [done|].
    split; [done|]. by eapply lookup_lt_Some.
Qed.

Lemma unvisitedRow_elem (grid : list Cell) (rowIndex i : nat) (c : Cell) :
  (i, c) ∈ unvisitedRow grid rowIndex
  ↔ grid !! i = Some c ∧ gridRow c = rowIndex ∧ visitState c = unvisited.
Proof.
  unfold unvisitedRow. rewrite list_elem_of_filter, elem_of_indexed. simpl. tauto.
Qed.

Lemma findEntry_elem (avoid : MultiPolygon) (p : Position) (row : Row) (i k : nat)
    (entry : nat * Cell) :
  findEntry avoid p row i = Some (k, entry) →
  i ≤ k ∧ row !! (k - i) = Some entry.
Proof.
  revert i. induction row as [|cell row IH]; intros i; simpl; [done|].
  case_match.
  - intros [= <- <-]. rewrite Nat.sub_diag. done.
  - intros Hfind. destruct (IH _ Hfind) as [Hle Hlook].
    split; [lia|]. replace (k - i) with (S (k - (i + 1))) by lia. done.
Qed.

Lemma onUnvisited_advanced (g g' : list Cell) (q : Position) :
  advanced g g' → onUnvisited g' q → onUnvisited g q.
Proof.
  intros Hadv (c' & Hin & Hstate & <-).
  apply list_elem_of_lookup in Hin as [i Hi].
  destruct (advanced_lookup _ _ _ _ Hadv Hi) as (c & Hc & _ & _ & _ & Hce & Hst).
  exists c. split; [by eapply list_elem_of_lookup_2|]. split; [|done].
  destruct Hst as [?|[? ?]]; congruence.
Qed.

Lemma sweepRow_spec (avoid : MultiPolygon) (rowIndex : nat) (waypoints : list Position)
    (grid : list Cell) :
  let out := sweepRow avoid rowIndex waypoints grid in
  advanced grid out.2
  ∧ (∃ extra, out.1.2 = waypoints ++ extra ∧ Forall (onUnvisited grid) extra)
  ∧ (out = (false, waypoints, grid)
     ∨ (unvisitedCount out.2 < unvisitedCount grid ∧ length waypoints < length out.1.2))
  ∧ (waypoints = [] → unvisitedRow grid rowIndex ≠ [] →
     unvisitedCount out.2 < unvisitedCount grid).
Proof.
  unfold sweepRow. cbv zeta.
  destruct (unvisitedRow grid rowIndex) as [|first others] eqn:Hrow.
  { simpl. split; [apply advanced_refl|]. split; [exists []; by rewrite app_nil_r|].
    split; [by left|done]. }
  set (row := if decide (rowIndex `mod` 2 = 1) then reverse (first :: others)
              else first :: others).
  assert (∀ ic, ic ∈ row → ic ∈ first :: others) as Hsub.
  { intros ic. unfold row. case_decide; [by rewrite elem_of_reverse|done]. }
  assert (∃ ic, head row = Some ic) as [[i0 cell0] Hhead].
  { unfold row. case_decide; [|by eexists].
    rewrite head_reverse. rewrite last_cons. destruct (list.last others); by eexists. }
  clearbody row. rewrite <- Hrow in Hsub.
  assert (∀ k i cell, row !! k = Some (i, cell) →
            let out := traverseRow rowIndex cell (drop (k + 1) row)
                         (waypoints ++ [cellCentroid cell]) (markVisited i grid) in
            advanced grid out.2
            ∧ (∃ extra, out.1.2 = waypoints ++ extra ∧ Forall (onUnvisited grid) extra)
            ∧ unvisitedCount out.2 < unvisitedCount grid
            ∧ length waypoints < length out.1.2) as Hgo.
  { intros k i cell Hk.
    assert ((i, cell) ∈ unvisitedRow grid rowIndex) as Hcell.
    { apply Hsub. by eapply list_elem_of_lookup_2. }
    apply unvisitedRow_elem in Hcell as (Hi & _ & Hstate).
    assert (advanced grid (markVisited i grid)) as Hmark.
    { apply markVisited_advanced. intros c Hc. assert (c = cell) as -> by congruence.
      by rewrite Hstate. }
    assert (∀ ic, ic ∈ row → onUnvisited grid (cellCentroid ic.2)) as Hon.
    { intros [j c] Hjc. apply Hsub, unvisitedRow_elem in Hjc as (Hj & _ & Hs).
      exists c. split; [by eapply list_elem_of_lookup_2|done]. }
    destruct (traverseRow_spec (onUnvisited grid) rowIndex (drop (k + 1) row) cell
                (waypoints ++ [cellCentroid cell]) (markVisited i grid))
      as (extra & Hwp & Hextra & Hadv).
    - apply Forall_forall. intros [j c] Hjc c0 Hc0. simpl in *.
      apply elem_of_drop_in in Hjc. apply Hsub, unvisitedRow_elem in Hjc as (Hj & _ & Hs).
      destruct (advanced_lookup _ _ _ _ Hmark Hc0) as (c1 & Hc1 & _ & _ & _ & _ & Hst).
      assert (c1 = c) as -> by congruence.
      destruct Hst as [->|[_ ->]]; [by rewrite Hs|done].
    - apply (Hon (i, cell)). by eapply list_elem_of_lookup_2.
    - apply Forall_forall. intros ic Hic. apply Hon. by apply elem_of_drop_in in Hic.
    - simpl. split; [by eapply advanced_trans|]. split.
      + exists (cellCentroid cell :: extra). rewrite Hwp, <- app_assoc. split; [done|].
        constructor; [|done]. apply (Hon (i, cell)). by eapply list_elem_of_lookup_2.
      + split.
        * destruct (markVisited_lookup i grid cell Hi) as (c' & Hc' & Hv).
          eapply Nat.le_lt_trans; [by apply advanced_count|].
          eapply (advanced_count_lt _ _ i cell c'); try done. by rewrite Hv.
        * rewrite Hwp, !length_app. simpl. lia. }
  destruct (list.last waypoints) as [prevEndPoint|] eqn:Hlast.
  - destruct (findEntry avoid prevEndPoint row 0) as [[k [i cell]]|] eqn:Hfind.
    + apply findEntry_elem in Hfind as [_ Hk]. rewrite Nat.sub_0_r in Hk.
      destruct (Hgo k i cell Hk) as (Hadv & Hextra & Hlt & Hlen). simpl in *.
      split; [exact Hadv|]. split; [exact Hextra|]. split; [by right|done].
    + simpl. split; [apply advanced_refl|]. split; [exists []; by rewrite app_nil_r|].
      split; [by left|]. intros ->. done.
  - rewrite Hhead. simpl.
    destruct (Hgo 0 i0 cell0) as (Hadv & Hextra & Hlt & Hlen).
    { by rewrite <- head_lookup. }
    simpl in *. split; [exact Hadv|]. split; [exact Hextra|]. split; [by right|done].
Qed.

Lemma sweepRows_spec (avoid : MultiPolygon) (rows : list nat) :
  ∀ (waypoints : list Position) (grid : list Cell),
  let out := sweepRows avoid rows waypoints grid in
  advanced grid out.2
  ∧ (∃ extra, out.1 = waypoints ++ extra ∧ Forall (onUnvisited grid) extra)
  ∧ (out = (waypoints, grid)
     ∨ (unvisitedCount out.2 < unvisitedCount grid ∧ length waypoints < length out.1))
  ∧ (waypoints = [] → (∃ r, r ∈ rows ∧ unvisitedRow grid r ≠ []) →
     unvisitedCount out.2 < unvisitedCount grid).
Proof.
  induction rows as [|rowIndex rows IH]; intros waypoints grid; cbv zeta.
  { simpl. split; [apply advanced_refl|]. split; [exists []; by rewrite app_nil_r|].
    split; [by left|]. intros _ (r & Hr & _). by apply elem_of_nil in Hr. }
  simpl.
  destruct (sweepRow_spec avoid rowIndex waypoints grid) as (Hadv1 & Hex1 & Hch1 & Hpr1).
  destruct (sweepRow avoid rowIndex waypoints grid) as [[returned wp1] g1]. simpl in *.
  destruct Hex1 as (extra1 & -> & Hextra1).
  destruct returned.
  { simpl. split; [done|]. split; [by exists extra1|].
    destruct Hch1 as [?|Hch1]; [done|]. split; [by right|]. intros _ _. apply Hch1. }
  destruct (IH (waypoints ++ extra1) g1) as (Hadv2 & (extra2 & Hwp2 & Hextra2) & Hch2 & Hpr2).
  assert (unvisitedCount (sweepRows avoid rows (waypoints ++ extra1) g1).2 ≤ unvisitedCount g1)
    as Hle by (by apply advanced_count).
  split; [by eapply advanced_trans|]. split; [|split].
  - exists (extra1 ++ extra2). rewrite Hwp2, <- app_assoc. split; [done|].
    apply Forall_app. split; [done|]. eapply Forall_impl; [exact Hextra2|].
    intros q. by apply onUnvisited_advanced.
  - destruct Hch1 as [[= Hwp ->]|[Hlt Hlen]].
    + assert (extra1 = []) as ->.
      { apply (app_inv_head waypoints). by rewrite app_nil_r. }
      rewrite app_nil_r in *. destruct Hch2 as [Hch2|Hch2]; [by left | by right].
    + right. split; [lia|]. rewrite Hwp2, !length_app in *. lia.
  - intros -> (r & Hr & Hrow).
    destruct Hch1 as [[= Hwp ->]|[Hlt Hlen]]; [|lia].
    apply elem_of_cons in Hr as [->|Hr].
    + specialize (Hpr1 eq_refl Hrow). lia.
    + simpl in Hwp. subst extra1. apply Hpr2; [done|]. by exists r.
Qed.

Lemma clear_path_has_two_coordinates (fuel : nat) (roadmap : option (list LineString))
    (start end_ : Position) (boundary : Polygon) (obstacles : option (list Polygon))
    (found : LineString) :
  calculateClearPath fuel roadmap start end_ boundary obstacles = Ret (Some found) →
  2 ≤ length found.
Proof.
  unfold calculateClearPath.
  set (avoid := boundaryAndObstacles boundary (default [] obstacles)).
  destruct (isPathClear [start; end_] avoid); [by intros [= <-]|].
  intros Hrun. destruct roadmap as [roads|]; simpl in Hrun; [|done].
  destruct (startPath (stitchEndpoints roads start end_ avoid)) as [sp|]; [|done].
  destruct (endPath (stitchEndpoints roads start end_ avoid)) as [ep|]; [|done].
  destruct (startRoadSegment (stitchEndpoints roads start end_ avoid)) as [sr|]; [|done].
  destruct (endRoadSegment (stitchEndpoints roads start end_ avoid)) as [er|]; [|done].
  apply bind_Ret_inv in Hrun as (temp & _ & Hrun).
  apply bind_Ret_inv in Hrun as (graph & _ & Hrun).
  apply bind_Ret_inv in Hrun as (dijkstraPath & _ & Hrun).
  destruct dijkstraPath as [fullPath|]; [|done].
  apply bind_Ret_inv in Hrun as (line & Hline & [= <-]).
  by apply lineString_Ret in Hline as [-> ?].
Qed.

(** What one pass does to the path and to the grid. *)
Lemma pass_spec (fuel : nat) (path path' : option LineString) (boundary : Polygon)
    (obstacles : option (list Polygon)) (roadmap : option (list LineString))
    (grid grid' : list Cell) :
  calculateMowPath fuel path boundary obstacles roadmap grid = Ret (path', grid') →
  advanced grid grid'
  ∧ match path with
    | None =>
        ∃ waypoints,
          path' = Some waypoints ∧ Forall (onUnvisited grid) waypoints
          ∧ ((waypoints = [] ∧ grid' = grid)
             ∨ (waypoints ≠ [] ∧ unvisitedCount grid' < unvisitedCount grid))
          ∧ ((∃ r, r < getRowCount grid ∧ unvisitedRow grid r ≠ []) → waypoints ≠ [])
    | Some coordinates =>
        (path' = path ∧ grid' = grid)
        ∨ ∃ added,
            path' = Some (coordinates ++ added) ∧ 2 ≤ length added
            ∧ (rowsInRange grid → unvisitedCount grid' < unvisitedCount grid)
    end.
Proof.
  unfold calculateMowPath.
  set (avoid := boundaryAndObstacles boundary (default [] obstacles)).
  destruct (sweepRows_spec avoid (seq 0 (getRowCount grid)) [] grid)
    as (Hadv & (extra & Hwp & Hextra) & Hch & Hpr).
  destruct (sweepRows avoid (seq 0 (getRowCount grid)) [] grid) as [waypoints g1] eqn:Hsweep.
  simpl in *. subst extra.
  assert ((∃ r, r < getRowCount grid ∧ unvisitedRow grid r ≠ []) →
          unvisitedCount g1 < unvisitedCount grid) as Hprogress.
  { intros (r & Hr & Hrow). apply Hpr; [done|]. exists r. split; [|done].
    apply elem_of_seq. lia. }
  destruct path as [coordinates|].
  - destruct (filter _ grid) as [|firstUnvisited others] eqn:Hcells.
    { intros [= <- <-]. split; [apply advanced_refl|]. by left. }
    intros Hrun. apply bind_Ret_inv in Hrun as (lastEndPoint & _ & Hrun).
    apply bind_Ret_inv in Hrun as (pathToStart & Hroute & Hrun).
    destruct pathToStart as [toStart|].
    + injection Hrun as Hp Hg. subst path' grid'. split; [exact Hadv|]. right.
      exists (toStart ++ waypoints). split; [by rewrite app_assoc|].
      apply clear_path_has_two_coordinates in Hroute. rewrite length_app.
      split; [lia|]. intros Hrange. apply Hprogress.
      assert (firstUnvisited ∈ filter (λ feature, visitState feature = unvisited) grid)
        as Hfirst by (rewrite Hcells; by left).
      apply list_elem_of_filter in Hfirst as [Hstate Hin].
      exists (gridRow firstUnvisited). split.
      * by apply (proj1 (Forall_forall _ _) Hrange).
      * apply list_elem_of_lookup in Hin as [i Hi]. intros Hnil.
        assert ((i, firstUnvisited) ∈ unvisitedRow grid (gridRow firstUnvisited)) as Hrow.
        { by apply unvisitedRow_elem. }
        rewrite Hnil in Hrow. by apply elem_of_nil in Hrow.
    + injection Hrun as Hp Hg. subst path' grid'. split; [apply advanced_refl|]. by left.
  - intros [= <- <-]. split; [done|]. exists waypoints. split; [done|]. split; [done|].
    split.
    + destruct Hch as [[= -> ->]|[Hlt Hlen]]; [by left|]. right. split; [|done].
      intros ->. simpl in Hlen. lia.
    + intros Hrow. specialize (Hprogress Hrow).
      destruct Hch as [[= -> ->]|[Hlt Hlen]]; [lia|]. intros ->. simpl in Hlen. lia.
Qed.
End PassFacts.

Section PassResults.
Context `{Turf}.

(** X2. Whatever a pass returns, it has only appended to the path it was
    given (a null path counts as empty), and it has only turned unvisited
    cells into visited ones: every cell keeps its polygon, row, column and
    centroid, and no cell changes its state in any other way.  A pass that
    appends nothing leaves the grid as it was; a resumed pass appends
    nothing or at least two coordinates. *)
Theorem pass_only_appends_and_only_visits (fuel : nat) (path path' : option LineString)
    (boundary : Polygon) (obstacles : option (list Polygon))
    (roadmap : option (list LineString)) (grid grid' : list Cell) :
  calculateMowPath fuel path boundary obstacles roadmap grid = Ret (path', grid') →
  advanced grid grid'
  ∧ ∃ added,
      path' = Some (default [] path ++ added)
      ∧ (added = [] → grid' = grid)
      ∧ (is_Some path → added = [] ∨ 2 ≤ length added).
Proof.
  intros Hrun. apply pass_spec in Hrun as [Hadv Hrun]. split; [done|].
  destruct path as [coordinates|]; simpl.
  - destruct Hrun as [[-> ->]|(added & -> & Hlen & _)].
    + exists []. by rewrite app_nil_r; auto.
    + exists added. split; [done|]. split; [|auto]. intros ->. simpl in Hlen. lia.
  - destruct Hrun as (waypoints & -> & _ & Hch & _). exists waypoints.
    split; [done|]. split; [|by intros [? ?]].
    intros ->. by destruct Hch as [[_ ->]|[? _]].
Qed.

Lemma fresh_pass_returns (fuel : nat) (boundary : Polygon)
    (obstacles : option (list Polygon)) (roadmap : option (list LineString))
    (grid : list Cell) :
  ∃ waypoints grid',
    calculateMowPath fuel None boundary obstacles roadmap grid = Ret (Some waypoints, grid')
    ∧ Forall (onUnvisited grid) waypoints.
Proof.
  destruct (calculateMowPath fuel None boundary obstacles roadmap grid)
    as [[path' grid']| |] eqn:Hrun.
  - apply pass_spec in Hrun as [_ (waypoints & -> & Hon & _)]. by exists waypoints, grid'.
  - unfold calculateMowPath in Hrun. by destruct (sweepRows _ _ _ _).
  - unfold calculateMowPath in Hrun. by destruct (sweepRows _ _ _ _).
Qed.

(** X3. A pass that starts without a path always returns a path, whatever
    the boundary, the obstacles, the roadmap and the budget, and every
    coordinate of that path is the centroid of a cell that was unvisited in
    the grid it was given: the sweep never stops on an unvisitable cell. *)
Theorem fresh_pass_stops_only_on_unvisited_cells (fuel : nat) (boundary : Polygon)
    (obstacles : option (list Polygon)) (roadmap : option (list LineString))
    (grid : list Cell) :
  ∃ waypoints grid',
    calculateMowPath fuel None boundary obstacles roadmap grid = Ret (Some waypoints, grid')
    ∧ Forall (onUnvisited grid) waypoints.
Proof. apply fresh_pass_returns. Qed.

(** X4. When the grid has an unvisited cell whose row index is below the
    row count, a pass that starts without a path returns a path that is not
    empty and leaves fewer unvisited cells than it found. *)
Theorem fresh_pass_makes_progress (fuel : nat) (boundary : Polygon)
    (obstacles : option (list Polygon)) (roadmap : option (list LineString))
    (grid : list Cell) (cell : Cell) :
  cell ∈ grid → visitState cell = unvisited → gridRow cell < getRowCount grid →
  ∃ waypoints grid',
    calculateMowPath fuel None boundary obstacles roadmap grid = Ret (Some waypoints, grid')
    ∧ waypoints ≠ []
    ∧ unvisitedCount grid' < unvisitedCount grid.
Proof.
  intros Hin Hstate Hrow.
  destruct (fresh_pass_returns fuel boundary obstacles roadmap grid)
    as (waypoints & grid' & Hrun & _).
  exists waypoints, grid'. split; [done|].
  apply pass_spec in Hrun as [_ (waypoints' & [= <-] & _ & Hch & Hpr)].
  assert (waypoints ≠ []) as Hne.
  { apply Hpr. exists (gridRow cell). split; [done|].
    apply list_elem_of_lookup in Hin as [i Hi]. intros Hnil.
    assert ((i, cell) ∈ unvisitedRow grid (gridRow cell)) as Hc by (by apply unvisitedRow_elem).
    rewrite Hnil in Hc. by apply elem_of_nil in Hc. }
  split; [done|]. by destruct Hch as [[? _]|[_ ?]].
Qed.
End PassResults.

Section LoopFacts.
Context `{Turf}.



End LoopFacts.

(** ** The coverage grid (coverage-grid.ts) *)

Section NumberingFacts.
Context `{Turf}.

Lemma numbering_first : numbering [(0, 0)] 0 0.
Proof.
  unfold numbering, inRow. simpl. do 2 (split; [done|]).
  split; [set_solver|]. split.
  - intros r. rewrite filter_cons, filter_nil. by case_decide.
  - split; [done|]. apply NoDup_singleton.
Qed.

Lemma inRow_snoc (r : nat) (labels : list (nat * nat)) (l : nat * nat) :
  inRow r (labels ++ [l]) = inRow r labels ++ (if decide (l.1 = r) then [l] else []).
Proof. unfold inRow. rewrite filter_app, filter_cons, filter_nil. by case_decide. Qed.

Lemma numbering_new_row (labels : list (nat * nat)) (row col : nat) :
  numbering labels row col → numbering (labels ++ [(row + 1, 0)]) (row + 1) 0.
Proof.
  intros (Hlast & Hhead & Hrows & Hcols & Hlen & Hdup).
  assert (∀ l, l ∈ labels → l.1 ≤ row) as Hle.
  { intros l Hl. assert (l.1 ∈ (list_to_set (fst <$> labels) : gset nat)) as Hin.
    { apply elem_of_list_to_set, list_elem_of_fmap. by exists l. }
    rewrite Hrows in Hin. apply elem_of_set_seq in Hin. lia. }
  assert (inRow (row + 1) labels = []) as Hnone.
  { unfold inRow. apply filter_none_of. apply Forall_forall. intros l Hl.
    specialize (Hle l Hl). lia. }
  unfold numbering. rewrite last_snoc. split; [done|].
  split; [by destruct labels|].
  split.
  { rewrite fmap_app, list_to_set_app_L, Hrows.
    change (fst <$> [(row + 1, 0)]) with [row + 1].
    replace (S (row + 1)) with (S (S row)) by lia.
    rewrite (set_seq_S_end_union_L 0 (S row)).
    replace (0 + S row) with (row + 1) by lia.
    generalize (set_seq 0 (S row) : gset nat). intros X. clear.
    apply set_eq. intros x.
    rewrite !elem_of_union, elem_of_list_to_set, list_elem_of_singleton, elem_of_singleton.
    tauto. }
  split.
  { intros r. rewrite inRow_snoc. simpl. case_decide as Hr.
    - subst r. rewrite Hnone. done.
    - rewrite app_nil_r. apply Hcols. }
  split.
  { rewrite inRow_snoc. simpl. rewrite decide_True by done. by rewrite Hnone. }
  apply NoDup_app. split; [done|]. split; [|apply NoDup_singleton].
  intros l Hl Hin. apply list_elem_of_singleton in Hin as ->.
  specialize (Hle _ Hl). simpl in Hle. lia.
Qed.

Lemma numbering_same_row (labels : list (nat * nat)) (row col : nat) :
  numbering labels row col → numbering (labels ++ [(row, col + 1)]) row (col + 1).
Proof.
  intros (Hlast & Hhead & Hrows & Hcols & Hlen & Hdup).
  unfold numbering. rewrite last_snoc. split; [done|].
  split; [by destruct labels|].
  split.
  { rewrite fmap_app, list_to_set_app_L, Hrows.
    change (fst <$> [(row, col + 1)]) with [row].
    assert (row ∈ (set_seq 0 (S row) : gset nat)) as Hin by (apply elem_of_set_seq; lia).
    revert Hin. generalize (set_seq 0 (S row) : gset nat). intros X Hin. clear -Hin.
    apply set_eq. intros x.
    rewrite !elem_of_union, elem_of_list_to_set, list_elem_of_singleton.
    split; [intros [? | ->]; done | by left]. }
  split.
  { intros r. rewrite inRow_snoc. simpl. case_decide as Hr.
    - subst r. rewrite fmap_app, length_app, Hcols, Hlen.
      change (length [(row, col + 1)]) with 1.
      change (snd <$> [(row, col + 1)]) with [col + 1].
      replace (S col + 1) with (S (S col)) by lia.
      rewrite (seq_S (S col)). by replace (0 + S col) with (col + 1) by lia.
    - rewrite app_nil_r. apply Hcols. }
  split.
  { rewrite inRow_snoc. simpl. rewrite decide_True by done. rewrite length_app, Hlen.
    simpl. lia. }
  apply NoDup_app. split; [done|]. split; [|apply NoDup_singleton].
  intros l Hl Hin. apply list_elem_of_singleton in Hin as ->.
  assert ((col + 1) ∈ snd <$> inRow row labels) as Hcol.
  { apply list_elem_of_fmap. exists (row, col + 1). split; [done|].
    unfold inRow. by apply list_elem_of_filter. }
  rewrite Hcols, Hlen in Hcol. apply elem_of_seq in Hcol. lia.
Qed.

Lemma numberCell_eq (row col : nat) (previous : option Position)
    (done : list (Polygon * nat * nat)) (cell : Polygon) :
  numberCell (row, col, previous, done) cell
  = match previous with
    | None => (row, col, Some (centroid cell), done ++ [(cell, row, col)])
    | Some p =>
        if negb (nseq (centroid cell).1 p.1)
        then (row + 1, 0, Some (centroid cell), done ++ [(cell, row + 1, 0)])
        else (row, col + 1, Some (centroid cell), done ++ [(cell, row, col + 1)])
    end.
Proof.
  unfold numberCell. destruct previous as [p|]; [|done].
  by destruct (negb (nseq (centroid cell).1 p.1)).
Qed.

Lemma numberCell_fold (grid : list Polygon) :
  ∀ (row col : nat) (previous : option Position) (done : list (Polygon * nat * nat)),
  (done = [] ∧ previous = None ∧ row = 0 ∧ col = 0)
  ∨ (is_Some previous ∧ numbering (labelsOf done) row col) →
  let out := foldl numberCell (row, col, previous, done) grid in
  (λ f : Polygon * nat * nat, f.1.1) <$> out.2
    = ((λ f : Polygon * nat * nat, f.1.1) <$> done) ++ grid
  ∧ (out.2 = [] ∨ ∃ row' col', numbering (labelsOf out.2) row' col').
Proof.
  induction grid as [|cell grid IH]; intros row col previous done Hinv; cbv zeta.
  - simpl. rewrite app_nil_r. split; [done|].
    destruct Hinv as [(-> & _)|[_ Hnum]]; [by left|]. right. eauto.
  - change (foldl numberCell (row, col, previous, done) (cell :: grid))
      with (foldl numberCell (numberCell (row, col, previous, done) cell) grid).
    rewrite numberCell_eq.
    destruct Hinv as [(-> & -> & -> & ->)|[[p ->] Hnum]].
    + destruct (IH 0 0 (Some (centroid cell)) [(cell, 0, 0)]) as [Hcells Hlabels].
      { right. split; [eauto|]. apply numbering_first. }
      split; [exact Hcells|exact Hlabels].
    + destruct (negb (nseq (centroid cell).1 p.1)).
      * destruct (IH (row + 1) 0 (Some (centroid cell)) (done ++ [(cell, row + 1, 0)]))
          as [Hcells Hlabels].
        { right. split; [eauto|]. unfold labelsOf. rewrite fmap_app.
          by apply (numbering_new_row _ row col). }
        rewrite fmap_app, <- app_assoc in Hcells. split; [exact Hcells|exact Hlabels].
      * destruct (IH row (col + 1) (Some (centroid cell)) (done ++ [(cell, row, col + 1)]))
          as [Hcells Hlabels].
        { right. split; [eauto|]. unfold labelsOf. rewrite fmap_app.
          by apply (numbering_same_row _ row col). }
        rewrite fmap_app, <- app_assoc in Hcells. split; [exact Hcells|exact Hlabels].
Qed.

Lemma numberCells_spec (grid : list Polygon) :
  (λ f : Polygon * nat * nat, f.1.1) <$> numberCells grid = grid
  ∧ (numberCells grid = [] ∨ ∃ row col, numbering (labelsOf (numberCells grid)) row col).
Proof.
  unfold numberCells. apply (numberCell_fold grid 0 0 None []). by left.
Qed.

Lemma mapM_markCell_fields (boundaryPolygon : option Polygon) (obstaclesPolygons : list Polygon)
    (features : list (Polygon * nat * nat)) (cells : list Cell) :
  mapM (markCell boundaryPolygon obstaclesPolygons) features = Ret cells →
  (λ c, (geometry c, gridRow c, gridCol c)) <$> cells = features.
Proof.
  revert cells. induction features as [|[[poly row] col] features IH]; intros cells; simpl.
  - by intros [= <-].
  - intros Hrun. apply bind_Ret_inv in Hrun as (cell & Hcell & Hrun).
    apply bind_Ret_inv in Hrun as (rest & Hrest & [= <-]).
    rewrite fmap_cons, (IH _ Hrest). f_equal.
    unfold markCell in Hcell. apply bind_Ret_inv in Hcell as (eroded & _ & [= <-]). done.
Qed.

(** The shape of every grid that the builder returns. *)
Lemma getCoverageGrid_shape (boundary : Polygon) (obstacles : option (list Polygon))
    (mbb : Polygon) (laneWidth startPoint : num) (grid : list Cell) :
  getCoverageGrid boundary obstacles mbb laneWidth startPoint = Ret grid →
  ∃ (ring : Ring) (p1 p2 : Position) (numbered : list (Polygon * nat * nat)),
    head mbb = Some ring ∧ ring !! 0 = Some p1 ∧ ring !! 1 = Some p2
    ∧ numbered
      = numberCells
          (squareGrid
             (bbox (transformRotate mbb
                      (nadd (nneg (bearing p1 p2)) (nmul (dec 90 0) startPoint))
                      (centroid mbb)))
             laneWidth meters)
    ∧ geometry <$> grid
      = (λ f : Polygon * nat * nat,
           transformRotate f.1.1 (nsub (bearing p1 p2) (nmul (dec 90 0) startPoint))
                           (centroid mbb)) <$> numbered
    ∧ cellLabel <$> grid = labelsOf numbered.
Proof.
  unfold getCoverageGrid, ring0. intros Hrun.
  destruct (head mbb) as [ring|]; simpl in Hrun; [|done].
  destruct (ring !! 0) as [p1|] eqn:Hp1; simpl in Hrun; [|done].
  destruct (ring !! 1) as [p2|] eqn:Hp2; simpl in Hrun; [|done].
  exists ring, p1, p2. eexists.
  split; [reflexivity|]. split; [exact Hp1|]. split; [exact Hp2|]. split; [reflexivity|].
  apply mapM_markCell_fields in Hrun.
  split.
  - transitivity ((λ f : Polygon * nat * nat, f.1.1)
                    <$> ((λ c, (geometry c, gridRow c, gridCol c)) <$> grid)).
    { by rewrite <- list_fmap_compose. }
    rewrite Hrun. by rewrite <- list_fmap_compose.
  - transitivity ((λ f : Polygon * nat * nat, (f.1.2, f.2))
                    <$> ((λ c, (geometry c, gridRow c, gridCol c)) <$> grid)).
    { by rewrite <- list_fmap_compose. }
    rewrite Hrun. unfold labelsOf. by rewrite <- list_fmap_compose.
Qed.
End NumberingFacts.

Section GridShape.
Context `{Turf}.

Lemma inRow_cellLabel (r : nat) (grid : list Cell) :
  snd <$> inRow r (cellLabel <$> grid) = gridCol <$> filter (λ c, gridRow c = r) grid.
Proof.
  unfold inRow. induction grid as [|c grid IH]; [done|].
  rewrite fmap_cons, !filter_cons. unfold cellLabel at 1. simpl.
  destruct (decide (gridRow c = r)); [|done].
  rewrite !fmap_cons. simpl. by f_equal.
Qed.

Lemma built_grid_numbering (boundary : Polygon) (obstacles : option (list Polygon))
    (mbb : Polygon) (laneWidth startPoint : num) (grid : list Cell) :
  getCoverageGrid boundary obstacles mbb laneWidth startPoint = Ret grid →
  grid = [] ∨ ∃ row col, numbering (cellLabel <$> grid) row col.
Proof.
  intros Hrun.
  apply getCoverageGrid_shape in Hrun
    as (ring & p1 & p2 & numbered & _ & _ & _ & -> & _ & Hlabels).
  rewrite Hlabels.
  match type of Hlabels with _ = labelsOf (numberCells ?cells) =>
    destruct (numberCells_spec cells) as [_ [Hnil|Hnum]] end.
  - left. rewrite Hnil in Hlabels. by destruct grid.
  - by right.
Qed.

(** X6. The grid that [getCoverageGrid] returns has exactly the cells of
    the square grid laid over the bounding box of the rotated rectangle, in
    their order, each turned back about the centroid of the rectangle by the
    bearing of its first edge less [90 * startPoint]: no cell is dropped,
    whatever its label. *)
Theorem grid_keeps_every_cell_of_the_square_grid (boundary : Polygon)
    (obstacles : option (list Polygon)) (mbb : Polygon) (laneWidth startPoint : num)
    (grid : list Cell) :
  getCoverageGrid boundary obstacles mbb laneWidth startPoint = Ret grid →
  ∃ (ring : Ring) (p1 p2 : Position),
    head mbb = Some ring ∧ ring !! 0 = Some p1 ∧ ring !! 1 = Some p2
    ∧ geometry <$> grid
      = (λ cell, transformRotate cell (nsub (bearing p1 p2) (nmul (dec 90 0) startPoint))
                                 (centroid mbb))
        <$> squareGrid
              (bbox (transformRotate mbb
                       (nadd (nneg (bearing p1 p2)) (nmul (dec 90 0) startPoint))
                       (centroid mbb)))
              laneWidth meters.
Proof.
  intros Hrun.
  apply getCoverageGrid_shape in Hrun
    as (ring & p1 & p2 & numbered & Hring & Hp1 & Hp2 & -> & Hgeo & _).
  exists ring, p1, p2. do 3 (split; [done|]). rewrite Hgeo.
  match goal with |- context [numberCells ?cells] =>
    destruct (numberCells_spec cells) as [Hcells _]; rewrite <- Hcells at 2 end.
  by rewrite <- list_fmap_compose.
Qed.

(** X7. In a grid that [getCoverageGrid] returns no two cells have the
    same [(gridRow, gridCol)] pair, the first cell is cell [(0, 0)], and the
    columns of the cells of every row count 0, 1, 2, ... in grid order. *)
Theorem grid_labels_count_rows_and_columns (boundary : Polygon)
    (obstacles : option (list Polygon)) (mbb : Polygon) (laneWidth startPoint : num)
    (grid : list Cell) :
  getCoverageGrid boundary obstacles mbb laneWidth startPoint = Ret grid →
  NoDup (cellLabel <$> grid)
  ∧ (∀ first, head grid = Some first → cellLabel first = (0, 0))
  ∧ (∀ r, gridCol <$> filter (λ cell, gridRow cell = r) grid
          = seq 0 (length (filter (λ cell, gridRow cell = r) grid))).
Proof.
  intros Hrun. apply built_grid_numbering in Hrun as [->|(row & col & Hnum)].
  { split; [apply NoDup_nil_2|]. split; [done|]. intros r. done. }
  destruct Hnum as (_ & Hhead & _ & Hcols & _ & Hdup).
  split; [done|]. split.
  - intros first Hfirst. destruct grid as [|c grid]; [done|].
    simpl in Hfirst, Hhead. congruence.
  - intros r. specialize (Hcols r). rewrite inRow_cellLabel in Hcols.
    rewrite Hcols. f_equal.
    rewrite <- (length_fmap snd), inRow_cellLabel. by rewrite length_fmap.
Qed.

Lemma numbering_rowsInRange (grid : list Cell) (row col : nat) :
  numbering (cellLabel <$> grid) row col → getRowCount grid = S row ∧ rowsInRange grid.
Proof.
  intros (_ & _ & Hrows & _).
  assert (fst <$> (cellLabel <$> grid) = gridRow <$> grid) as Heq.
  { by rewrite <- list_fmap_compose. }
  rewrite Heq in Hrows.
  assert (getRowCount grid = S row) as Hcount.
  { unfold getRowCount. rewrite Hrows. apply size_set_seq. }
  split; [done|]. unfold rowsInRange. rewrite Hcount.
  apply Forall_forall. intros c Hc.
  assert (gridRow c ∈ (list_to_set (gridRow <$> grid) : gset nat)) as Hin.
  { apply elem_of_list_to_set, list_elem_of_fmap. by exists c. }
  rewrite Hrows in Hin. apply elem_of_set_seq in Hin. lia.
Qed.

(** X8. In a grid that [getCoverageGrid] returns every cell's row index is
    below the row count that a pass computes ([getRowCount], the number of
    distinct row indices), which is one more than the row index of the last
    cell: the row loop of a pass reaches every row. *)
Theorem built_grid_has_its_rows_within_the_row_count (boundary : Polygon)
    (obstacles : option (list Polygon)) (mbb : Polygon) (laneWidth startPoint : num)
    (grid : list Cell) :
  getCoverageGrid boundary obstacles mbb laneWidth startPoint = Ret grid →
  rowsInRange grid
  ∧ ∀ final, list.last grid = Some final → getRowCount grid = S (gridRow final).
Proof.
  intros Hrun. apply built_grid_numbering in Hrun as [->|(row & col & Hnum)].
  { split; [by apply Forall_nil|done]. }
  destruct (numbering_rowsInRange grid row col Hnum) as [Hcount Hrange].
  split; [done|]. intros final Hfinal.
  destruct Hnum as (Hlast & _). rewrite fmap_last, Hfinal in Hlast.
  simpl in Hlast. injection Hlast as Hrow _. by rewrite Hrow.
Qed.

(** X9. On a grid that [getCoverageGrid] returns, [getTravelHeading]
    throws a TypeError when the grid has no cell, and returns a heading when
    it has one. *)
Theorem travel_heading_needs_a_cell (boundary : Polygon)
    (obstacles : option (list Polygon)) (mbb : Polygon) (laneWidth startPoint : num)
    (grid : list Cell) :
  getCoverageGrid boundary obstacles mbb laneWidth startPoint = Ret grid →
  (grid = [] → getTravelHeading grid = Throw TypeError)
  ∧ (grid ≠ [] → ∃ heading, getTravelHeading grid = Ret heading).
Proof.
  intros Hrun. split; [by intros ->|]. intros Hne.
  apply built_grid_numbering in Hrun as [->|(row & col & Hnum)]; [done|].
  destruct Hnum as (_ & Hhead & _).
  destruct grid as [|first grid]; [done|].
  simpl in Hhead. injection Hhead as Hrow _.
  unfold getTravelHeading. rewrite filter_cons, decide_True by done.
  simpl. rewrite last_cons.
  destruct (list.last (filter (λ feature, gridRow feature = 0) grid)); simpl; eauto.
Qed.
End GridShape.

(** ** The least rectangle (boundaries.ts) *)

Section MinimumBox.
Context `{Turf} `{!JsOrderLaws}.
Variable convexHull : Polygon.
Variable ring : Ring.

Local Arguments calipersStep : simpl never.

Lemma calipers_minimum (k : nat) :
  k ≤ length ring - 1 →
  ∃ st,
    foldM (calipersStep convexHull ring (length ring - 1) (centroid convexHull))
          (Infinity, None, dec 0 0) (seq 0 k) = Ret st
    ∧ leastBelow convexHull ring k st.1.1
    ∧ ((st.1.2 = None ∧ st.1.1 = Infinity)
       ∨ ∃ i a b,
           i < k ∧ hullEdge ring i a b
           ∧ st.1.2 = Some (edgeBox convexHull a b)
           ∧ st.1.1 = edgeBoxArea convexHull a b
           ∧ nlt (edgeBoxArea convexHull a b) Infinity = true).
Proof.
  induction k as [|k IH]; intros Hk.
  - eexists. split; [done|]. split; [intros j a b Hj; lia|]. by left.
  - destruct IH as ([[minArea best] angle] & Hrun & Hleast & Hbest); [lia|].
    destruct (calipersStep_Ret convexHull ring minArea best angle k)
      as (a & b & Ha & Hb & Hstep); [lia|].
    rewrite seq_S, foldM_app, Hrun. simpl in Hleast, Hbest |- *. rewrite Hstep. simpl.
    eexists. split; [done|].
    assert (hullEdge ring k a b) as Hedge by (split; [lia|done]).
    destruct (nlt (edgeBoxArea convexHull a b) minArea) eqn:Hlt; simpl.
    + split.
      * intros j a' b' Hj Hj'. destruct (decide (j = k)) as [->|Hne].
        -- destruct Hj' as (_ & Ha' & Hb'). rewrite Ha in Ha'. rewrite Hb in Hb'.
           injection Ha' as <-. injection Hb' as <-. apply nlt_irrefl.
        -- destruct (nlt (edgeBoxArea convexHull a' b') (edgeBoxArea convexHull a b))
             eqn:Hless; [|done].
           rewrite <- (Hleast j a' b'); [|lia|done]. symmetry.
           by eapply nlt_trans.
      * right. exists k, a, b. split; [lia|]. split; [done|]. split; [done|]. split; [done|].
        destruct Hbest as [[_ ->]|(i & a0 & b0 & _ & _ & _ & -> & Hfin)]; [done|].
        by eapply nlt_trans.
    + split.
      * intros j a' b' Hj Hj'. destruct (decide (j = k)) as [->|Hne].
        -- destruct Hj' as (_ & Ha' & Hb'). rewrite Ha in Ha'. rewrite Hb in Hb'.
           injection Ha' as <-. injection Hb' as <-. done.
        -- apply (Hleast j a' b'); [lia|done].
      * destruct Hbest as [?|(i & a0 & b0 & Hi & ?)]; [by left|].
        right. exists i, a0, b0. split; [lia|done].
Qed.
End MinimumBox.

Section MinimumBoxResult.
Context `{Turf} `{!JsOrderLaws}.

(** X10. Without a positive orientation offset, the rectangle that
    [getMinBoundingBox] returns is the one recorded for some edge of the hull
    ring (the bounding box of the hull turned by minus the edge's bearing,
    turned back), its area is below [Infinity], and no edge of the ring gives
    a rectangle of smaller area.  This uses that [<] on numbers is
    irreflexive and transitive. *)
Theorem minimum_box_is_not_beaten_by_any_edge (convexHull : Polygon) (orientation : num)
    (box : Polygon) :
  ngt orientation (dec 0 0) = false →
  getMinBoundingBox convexHull orientation = Ret box →
  ∃ ring i a b,
    head convexHull = Some ring ∧ hullEdge ring i a b
    ∧ box = edgeBox convexHull a b
    ∧ nlt (edgeBoxArea convexHull a b) Infinity = true
    ∧ ∀ j a' b', hullEdge ring j a' b' →
        nlt (edgeBoxArea convexHull a' b') (edgeBoxArea convexHull a b) = false.
Proof.
  intros Hoff. unfold getMinBoundingBox, ring0, centroidOf, calipersLoop.
  destruct (head convexHull) as [ring|]; simpl; [|done].
  case_decide; simpl; [done|].
  destruct (calipers_minimum convexHull ring (length ring - 1))
    as ([[minArea best] angle] & -> & Hleast & Hbest); [done|].
  simpl in *. rewrite Hoff.
  destruct Hbest as [[-> _]|(i & a & b & Hi & Hedge & -> & -> & Hfin)]; [done|].
  unfold polygon. case_match; [|done]. intros [= <-].
  exists ring, i, a, b. do 4 (split; [done|]).
  intros j a' b' Hj. apply (Hleast j); [apply Hj|done].
Qed.
End MinimumBoxResult.

(** ** The roadmap (voronoi-roadmap.ts) *)

Section VoronoiPoints.
Context `{Turf}.

Lemma voronoi_points_fold (points : list Position) :
  ∀ (st : gset Key * list Position) (seen : list Position),
  st.1 = list_to_set (pointKey <$> st.2) →
  NoDup (pointKey <$> st.2) → st.2 `sublist_of` seen →
  (∀ p, p ∈ seen → pointKey p ∈ st.1) →
  let out := foldl (λ (st : gset Key * list Position) point,
                      let key := pointKey point in
                      if decide (key ∈ st.1) then st
                      else ({[key]} ∪ st.1, st.2 ++ [point])) st points in
  NoDup (pointKey <$> out.2) ∧ out.2 `sublist_of` seen ++ points
  ∧ (∀ p, p ∈ seen ++ points → pointKey p ∈ pointKey <$> out.2).
Proof.
  induction points as [|point points IH]; intros [keys kept] seen Hkeys Hdup Hsub Hseen;
    cbv zeta; simpl in *.
  - rewrite app_nil_r. split; [done|]. split; [done|].
    intros p Hp. specialize (Hseen p Hp). rewrite Hkeys in Hseen.
    by apply elem_of_list_to_set in Hseen.
  - replace (seen ++ point :: points) with ((seen ++ [point]) ++ points)
      by (by rewrite <- app_assoc).
    case_decide as Hin.
    + apply (IH (keys, kept)); simpl; try done.
      * apply sublist_inserts_r. done.
      * intros p. rewrite elem_of_app, list_elem_of_singleton. intros [?| ->]; auto.
    + apply (IH ({[pointKey point]} ∪ keys, kept ++ [point])); simpl.
      * rewrite fmap_app, list_to_set_app_L, Hkeys. simpl.
        apply set_eq. intros k. rewrite !elem_of_union, !elem_of_singleton, elem_of_empty.
        tauto.
      * rewrite fmap_app. apply NoDup_app. split; [done|]. split; [|apply NoDup_singleton].
        intros k Hk Hk'. apply list_elem_of_singleton in Hk' as ->.
        apply Hin. rewrite Hkeys. by apply elem_of_list_to_set.
      * by apply sublist_app.
      * intros p Hp. apply elem_of_union. apply elem_of_app in Hp as [Hp|Hp].
        -- right. by apply Hseen.
        -- left. apply list_elem_of_singleton in Hp as ->. by apply elem_of_singleton.
Qed.

(** X11. The Voronoi sites are a selection, in order, of the vertices of
    the boundary followed by those of the obstacles; no two sites have the
    same fingerprint, and every vertex has the fingerprint of some site. *)
Theorem voronoi_sites_have_distinct_fingerprints (boundary : Polygon)
    (obstacles : list Polygon) :
  let vertices := coordAll boundary ++ coordAllFC obstacles in
  let sites := getVoronoiPoints boundary obstacles in
  NoDup (pointKey <$> sites)
  ∧ sites `sublist_of` vertices
  ∧ ∀ p, p ∈ vertices → pointKey p ∈ pointKey <$> sites.
Proof.
  unfold getVoronoiPoints.
  apply (voronoi_points_fold (coordAll boundary ++ coordAllFC obstacles) (∅, []) []);
    simpl; try done.
  - apply NoDup_nil_2.
  - intros p Hp. by apply elem_of_nil in Hp.
Qed.
End VoronoiPoints.

Section SegmentKeys.
Context `{Turf} `{!JsOrderLaws} `{!JsSubtractionLaws}.

Lemma nlt_asym (x y : num) : nlt x y = true → nlt y x = false.
Proof.
  intros Hxy. destruct (nlt y x) eqn:Hyx; [|done].
  rewrite <- (nlt_irrefl x). symmetry. by eapply nlt_trans.
Qed.

(** When the comparator exchanges the pair. *)
Lemma exchanged (a b : Position) :
  ngt (compareCoords a b) (dec 0 0)
  = nlt b.1 a.1 || (negb (nlt a.1 b.1) && nlt b.2 a.2).
Proof.
  unfold ngt, compareCoords. rewrite nsub_truthy.
  destruct (nlt a.1 b.1) eqn:Hab; simpl.
  - rewrite nsub_positive. by rewrite (nlt_asym _ _ Hab).
  - destruct (nlt b.1 a.1) eqn:Hba; simpl; by rewrite nsub_positive.
Qed.

(** X12. For two positions whose coordinates are comparable (no NaN among
    them), the key of the segment from [a] to [b] is the key of the segment
    from [b] to [a].  This uses the order facts and the sign of a difference
    of doubles. *)
Theorem segment_key_ignores_direction (a b : Position) :
  comparable a b →
  (getSegmentKey (a, b)).2 = (getSegmentKey (b, a)).2.
Proof.
  intros [Hfirst Hsecond]. unfold getSegmentKey. rewrite !exchanged.
  destruct (nlt b.1 a.1) eqn:Hba1; simpl.
  { by rewrite (nlt_asym _ _ Hba1). }
  destruct (nlt a.1 b.1) eqn:Hab1; simpl; [done|].
  destruct (nlt b.2 a.2) eqn:Hba2; simpl.
  { by rewrite (nlt_asym _ _ Hba2). }
  destruct (nlt a.2 b.2) eqn:Hab2; simpl; [done|].
  destruct Hfirst as [?|[?|Hfirst]]; [congruence..|].
  destruct Hsecond as [?|[?|Hsecond]]; [congruence..|].
  unfold pointKey. by rewrite Hfirst, Hsecond.
Qed.
End SegmentKeys.

Section KeptSegments.
Context `{Turf}.


End KeptSegments.

Section NoJunction.
Context `{Turf}.

Lemma adjacency_total (adj : gmap Key (list LineString)) (rest : list LineString) :
  Forall (λ segment, 2 ≤ length segment) rest →
  ∃ adj',
    foldM (λ adj segment,
             '(start, end_) ← startEnd segment;
             Ret (pushAdj (pointKey end_) segment (pushAdj (pointKey start) segment adj)))
          adj rest = Ret adj'.
Proof.
  intros Hall. revert adj. induction Hall as [|segment rest Hlen _ IH]; intros adj; simpl.
  - by eexists.
  - destruct segment as [|a [|b tail]]; simpl in Hlen; try lia. simpl. apply IH.
Qed.

(** X14. When no fingerprint is an end of more than two of the segments
    (a chain or a simple loop), junction detection finds no branch point and
    joining returns an empty roadmap, whatever the budget. *)
Theorem no_junction_gives_an_empty_roadmap (fuel : nat) (segments : list LineString) :
  Forall (λ segment, length segment = 2) segments →
  (∀ k, occurrences k (endpointKeys segments) ≤ 2) →
  (identifyBranchPoints segments ≫= joinSegments fuel segments) = Ret [].
Proof.
  intros Hall Hfew.
  destruct (identify_fold segments (∅, []) [] Hall) as (st' & Hrun & _ & Hkeys).
  { split; simpl; intros k.
    - by rewrite lookup_empty.
    - unfold occurrences. simpl. rewrite elem_of_nil. lia. }
  unfold identifyBranchPoints. rewrite Hrun. destruct st' as [pointMap keys]. simpl in *.
  assert (keys = []) as ->.
  { destruct keys as [|k keys]; [done|]. exfalso.
    assert (2 < occurrences k (endpointKeys segments)) as Hmany.
    { apply Hkeys. by left. }
    specialize (Hfew k). lia. }
  unfold joinSegments.
  destruct (adjacency_total ∅ segments) as [adj ->]; [|done].
  eapply Forall_impl; [exact Hall|]. simpl. intros segment ->. done.
Qed.
End NoJunction.

Section GraphFacts.
Context `{Turf}.

Lemma pushAdj_keeps {V : Type} (k k' : Key) (v v' : V) (m : gmap Key (list V))
    (l : list V) :
  m !! k = Some l → v ∈ l → ∃ l', pushAdj k' v' m !! k = Some l' ∧ v ∈ l'.
Proof.
  intros Hl Hv. rewrite lookup_pushAdj. case_decide as Hk.
  - subst k'. rewrite Hl. simpl. eexists. split; [done|]. apply elem_of_app. by left.
  - eauto.
Qed.

Lemma pushAdj_new {V : Type} (k : Key) (v : V) (m : gmap Key (list V)) :
  ∃ l, pushAdj k v m !! k = Some l ∧ v ∈ l.
Proof.
  rewrite lookup_pushAdj, decide_True by done. eexists. split; [done|].
  apply elem_of_app. right. by left.
Qed.

Lemma pushAdj_elem {V : Type} (k k' : Key) (v v' : V) (m : gmap Key (list V))
    (l : list V) :
  pushAdj k' v' m !! k = Some l → v ∈ l →
  (k = k' ∧ v = v') ∨ ∃ l0, m !! k = Some l0 ∧ v ∈ l0.
Proof.
  rewrite lookup_pushAdj. case_decide as Hk.
  - subst k'. intros [= <-]. rewrite elem_of_app, list_elem_of_singleton.
    intros [Hold| ->]; [|by left]. right.
    destruct (m !! k) as [l0|]; simpl in Hold; [eauto | by apply elem_of_nil in Hold].
  - intros Hl Hv. right. eauto.
Qed.

Lemma addRoad_Ret (graph graph' : gmap Key (list Edge)) (road : LineString) :
  addRoad graph road = Ret graph' →
  ∃ a z,
    head road = Some a ∧ list.last road = Some z ∧ 2 ≤ length road
    ∧ graph' = pushAdj (pointKey z) (mkEdge (pointKey a) (lineLength road meters) (reverse road))
                 (pushAdj (pointKey a) (mkEdge (pointKey z) (lineLength road meters) road)
                    graph).
Proof.
  unfold addRoad.
  destruct (head road) as [a|]; simpl; [|done].
  destruct (list.last road) as [z|]; simpl; [|done].
  destruct (lineString (reverse road)) as [reversedRoad| |] eqn:Hrev; simpl; [|done|done].
  apply lineString_Ret in Hrev as [-> Hlen]. rewrite length_reverse in Hlen.
  intros [= <-]. by exists a, z.
Qed.

Lemma addRoad_total (graph : gmap Key (list Edge)) (road : LineString) :
  (∃ graph', addRoad graph road = Ret graph') ↔ 2 ≤ length road.
Proof.
  split.
  - intros [graph' Hadd]. by apply addRoad_Ret in Hadd as (a & z & _ & _ & ? & _).
  - intros Hlen. unfold addRoad.
    destruct road as [|a road]; [simpl in Hlen; lia|]. simpl.
    rewrite last_cons. destruct (list.last road) as [z|]; simpl.
    + unfold lineString. rewrite decide_False; [by eexists|].
      rewrite length_reverse. simpl in *. lia.
    + unfold lineString. rewrite decide_False; [by eexists|].
      rewrite length_reverse. simpl in *. lia.
Qed.

Lemma addRoad_inv (done : list LineString) (graph graph' : gmap Key (list Edge))
    (road : LineString) :
  fromRoads done graph → mirrored graph → holdsRoads done graph →
  addRoad graph road = Ret graph' →
  fromRoads (done ++ [road]) graph' ∧ mirrored graph' ∧ holdsRoads (done ++ [road]) graph'.
Proof.
  intros Hfrom Hmirror Hholds Hadd.
  apply addRoad_Ret in Hadd as (a & z & Ha & Hz & Hlen & ->).
  set (forward := mkEdge (pointKey z) (lineLength road meters) road).
  set (backward := mkEdge (pointKey a) (lineLength road meters) (reverse road)).
  split; [|split].
  - intros k edges e Hk He.
    destruct (pushAdj_elem _ _ _ _ _ _ Hk He) as [[-> ->]|(l1 & Hk1 & He1)].
    { exists road. split; [apply elem_of_app; right; by left|]. split; [by right|done]. }
    destruct (pushAdj_elem _ _ _ _ _ _ Hk1 He1) as [[-> ->]|(l0 & Hk0 & He0)].
    { exists road. split; [apply elem_of_app; right; by left|]. split; [by left|done]. }
    destruct (Hfrom k l0 e Hk0 He0) as (r & Hr & Hpath & Hdist).
    exists r. split; [apply elem_of_app; by left|done].
  - intros k edges e Hk He.
    destruct (pushAdj_elem _ _ _ _ _ _ Hk He) as [[-> ->]|(l1 & Hk1 & He1)].
    { simpl. destruct (pushAdj_new (pointKey a) forward graph) as (l & Hl & Hin).
      destruct (pushAdj_keeps (pointKey a) (pointKey z) forward backward _ l Hl Hin)
        as (l' & Hl' & Hin').
      exists l', forward. simpl. by rewrite reverse_involutive. }
    destruct (pushAdj_elem _ _ _ _ _ _ Hk1 He1) as [[-> ->]|(l0 & Hk0 & He0)].
    { simpl. destruct (pushAdj_new (pointKey z) backward
                         (pushAdj (pointKey a) forward graph)) as (l & Hl & Hin).
      exists l, backward. done. }
    destruct (Hmirror k l0 e Hk0 He0) as (edges' & e' & Hk' & He' & Hback).
    destruct (pushAdj_keeps (node e) (pointKey a) e' forward graph edges' Hk' He')
      as (l & Hl & Hin).
    destruct (pushAdj_keeps (node e) (pointKey z) e' backward _ l Hl Hin) as (l' & Hl' & Hin').
    by exists l', e'.
  - intros r Hr. apply elem_of_app in Hr as [Hr|Hr].
    + destruct (Hholds r Hr) as (a' & z' & edges & Ha' & Hz' & Hk & He).
      destruct (pushAdj_keeps _ (pointKey a) _ forward graph edges Hk He) as (l & Hl & Hin).
      destruct (pushAdj_keeps _ (pointKey z) _ backward _ l Hl Hin) as (l' & Hl' & Hin').
      by exists a', z', l'.
    + apply list_elem_of_singleton in Hr as ->.
      destruct (pushAdj_new (pointKey a) forward graph) as (l & Hl & Hin).
      destruct (pushAdj_keeps (pointKey a) (pointKey z) forward backward _ l Hl Hin)
        as (l' & Hl' & Hin').
      by exists a, z, l'.
Qed.

Lemma calculateAdjacencyGraph_inv (roads : list LineString) :
  ∀ (done : list LineString) (g0 graph : gmap Key (list Edge)),
  fromRoads done g0 → mirrored g0 → holdsRoads done g0 →
  foldM addRoad g0 roads = Ret graph →
  fromRoads (done ++ roads) graph ∧ mirrored graph ∧ holdsRoads (done ++ roads) graph.
Proof.
  induction roads as [|road roads IH]; intros done g0 graph Hfrom Hmirror Hholds; simpl.
  - intros [= <-]. by rewrite app_nil_r.
  - intros Hrun. apply bind_Ret_inv in Hrun as (g1 & Hadd & Hrun).
    destruct (addRoad_inv done g0 g1 road Hfrom Hmirror Hholds Hadd) as (? & ? & ?).
    replace (done ++ road :: roads) with ((done ++ [road]) ++ roads)
      by (by rewrite <- app_assoc).
    by apply (IH (done ++ [road]) g1).
Qed.

Lemma calculateAdjacencyGraph_mirrors (roads : list LineString)
    (graph : gmap Key (list Edge)) :
  calculateAdjacencyGraph roads = Ret graph →
  fromRoads roads graph ∧ mirrored graph ∧ holdsRoads roads graph.
Proof.
  apply (calculateAdjacencyGraph_inv roads [] ∅).
  - intros k edges e. by rewrite lookup_empty.
  - intros k edges e. by rewrite lookup_empty.
  - intros road Hroad. by apply elem_of_nil in Hroad.
Qed.

(** X15. In the graph that [calculateAdjacencyGraph] returns, every edge
    runs along one of the roads, forwards or backwards, with the length of
    that road in metres; every edge has its opposite, stored under its
    target, of the same length and with the polyline reversed; and every
    road is an edge from the fingerprint of its first vertex to that of its
    last. *)
Theorem adjacency_graph_mirrors_the_roads (roads : list LineString)
    (graph : gmap Key (list Edge)) :
  calculateAdjacencyGraph roads = Ret graph →
  fromRoads roads graph ∧ mirrored graph ∧ holdsRoads roads graph.
Proof. apply calculateAdjacencyGraph_mirrors. Qed.

(** X16. [calculateAdjacencyGraph] returns a graph exactly when every road
    has two coordinates or more; a shorter road makes it throw. *)
Theorem adjacency_graph_needs_two_coordinates_per_road (roads : list LineString) :
  (∃ graph, calculateAdjacencyGraph roads = Ret graph)
  ↔ Forall (λ road, 2 ≤ length road) roads.
Proof.
  unfold calculateAdjacencyGraph. generalize (∅ : gmap Key (list Edge)) as g0.
  induction roads as [|road roads IH]; intros g0; simpl.
  - split; [done|]. by eexists.
  - rewrite Forall_cons. split.
    + intros [graph Hrun]. apply bind_Ret_inv in Hrun as (g1 & Hadd & Hrun). split.
      * apply (addRoad_total g0). eauto.
      * apply (IH g1). eauto.
    + intros [Hlen Hrest]. apply (addRoad_total g0) in Hlen as [g1 ->]. simpl.
      by apply IH.
Qed.
End GraphFacts.

Section SearchResults.
Context `{Turf}.

(** X17. The search returns null at once, whatever the budget, when the
    fingerprint of the start or of the end is not a node of the graph.  When
    both are the same node of the graph, the search finds it with an empty
    path, and building the result from no coordinates throws. *)
Theorem search_between_unknown_or_equal_nodes (fuel : nat) (graph : gmap Key (list Edge))
    (start end_ : Position) :
  (pointKey start ∉ dom graph ∨ pointKey end_ ∉ dom graph →
   getDijkstraPath fuel graph start end_ = Ret None)
  ∧ (pointKey start ∈ dom graph → pointKey end_ = pointKey start →
     getDijkstraPath (S fuel) graph start end_ = Throw TurfError).
Proof.
  unfold getDijkstraPath. split.
  - intros Hmissing. by rewrite decide_True.
  - intros Hstart Hsame. rewrite Hsame. rewrite decide_False by tauto.
    simpl. destruct (decide (pointKey start = pointKey start)) as [_|Hne]; [|done].
    by rewrite lookup_empty.
Qed.

Lemma route_vertices (roads : list LineString) (graph : gmap Key (list Edge))
    (from final to : Key) (line : list Position) :
  fromRoads roads graph → Route graph from final to line →
  ∀ p, p ∈ line → ∃ road, road ∈ roads ∧ p ∈ road.
Proof.
  intros Hfrom. induction 1 as [|m l edges e Hroute IH Hedges He _ _]; intros p Hp.
  - by apply elem_of_nil in Hp.
  - apply elem_of_app in Hp as [Hp|Hp]; [by apply IH|].
    destruct (Hfrom m edges e Hedges He) as (road & Hroad & Hpath & _).
    exists road. split; [done|].
    destruct Hpath as [Hpath|Hpath]; rewrite Hpath in Hp; [done|].
    by apply elem_of_reverse.
Qed.

Lemma getDijkstraPath_route (fuel : nat) (graph : gmap Key (list Edge))
    (start end_ : Position) (line : LineString) :
  getDijkstraPath fuel graph start end_ = Ret (Some line) →
  Route graph (pointKey start) (pointKey end_) (pointKey end_) line ∧ 2 ≤ length line.
Proof.
  unfold getDijkstraPath. case_decide; [done|]. intros Hsearch.
  apply (dijkstraLoop_found (pointKey start) (pointKey end_) graph) in Hsearch;
    [|apply searchOk_initial].
  destruct Hsearch as (fuel' & previous & full & Hprev & Hend & Hrec & Hfull).
  apply lineString_Ret in Hfull as [-> Hlen].
  destruct (reconstruct_route (pointKey start) (pointKey end_) graph fuel' previous
              (pointKey end_) [] full Hprev Hend Hrec) as (chain & -> & Hroute).
  rewrite app_nil_r in *. done.
Qed.

(** X18. A path that the search returns on the graph of a roadmap is a
    walk in that graph from the fingerprint of the start to that of the end
    (the polylines of its edges, one after the other) that takes no edge out
    of the end node and no edge into the start node; it has two coordinates
    or more, and each of its coordinates is a coordinate of a road. *)
Theorem found_path_walks_the_roads (fuel : nat) (roads : list LineString)
    (graph : gmap Key (list Edge)) (start end_ : Position) (line : LineString) :
  calculateAdjacencyGraph roads = Ret graph →
  getDijkstraPath fuel graph start end_ = Ret (Some line) →
  Route graph (pointKey start) (pointKey end_) (pointKey end_) line
  ∧ 2 ≤ length line
  ∧ ∀ p, p ∈ line → ∃ road, road ∈ roads ∧ p ∈ road.
Proof.
  intros Hgraph Hsearch.
  apply calculateAdjacencyGraph_mirrors in Hgraph as (Hfrom & _ & _).
  apply getDijkstraPath_route in Hsearch as [Hroute Hlen].
  split; [done|]. split; [done|]. by eapply route_vertices.
Qed.

Lemma dropRepeat_distinct (l acc : list Position) :
  chained (λ a b, pointKey a ≠ pointKey b) acc →
  chained (λ a b, pointKey a ≠ pointKey b) (foldl dropRepeat acc l)
  ∧ ∀ p, p ∈ foldl dropRepeat acc l → p ∈ acc ++ l.
Proof.
  revert acc. induction l as [|x l IH]; intros acc Hacc; simpl.
  { rewrite app_nil_r. done. }
  assert (∀ p, p ∈ (acc ++ [x]) ++ l → p ∈ acc ++ x :: l) as Hsnoc.
  { intros p. by rewrite <- app_assoc. }
  unfold dropRepeat at 2 4.
  destruct (list.last acc) as [a|] eqn:Hlast.
  - case_decide as Hkey.
    + destruct (IH (acc ++ [x])) as [Hch Hin]; [|split; [done|]; intros p Hp; by apply Hsnoc, Hin].
      apply chained_app. split; [done|]. split; [apply chained_singleton|].
      intros a' b' Ha' [= <-]. congruence.
    + destruct (IH acc Hacc) as [Hch Hin]. split; [done|].
      intros p Hp. specialize (Hin p Hp). apply elem_of_app in Hin as [?|?];
        apply elem_of_app; [by left | right; by right].
  - apply last_None in Hlast as ->.
    destruct (IH [x]) as [Hch Hin]; [apply chained_singleton|]. done.
Qed.

(** X19. When the direct line is not clear, no two consecutive coordinates
    of a path that the router returns have the same fingerprint: the final
    pass leaves no repeat, whatever the roadmap. *)
Theorem routed_path_has_no_repeated_fingerprint (fuel : nat)
    (roads : list LineString) (start end_ : Position) (boundary : Polygon)
    (obstacles : option (list Polygon)) (found : LineString) :
  let avoid := boundaryAndObstacles boundary (default [] obstacles) in
  isPathClear [start; end_] avoid = false →
  calculateClearPath fuel (Some roads) start end_ boundary obstacles = Ret (Some found) →
  chained (λ a b, pointKey a ≠ pointKey b) found.
Proof.
  intros avoid Hdirect Hrun.
  destruct (router_path_comes_from_routerRoadmap fuel roads start end_ boundary obstacles
              found Hdirect Hrun) as (temp & graph & walk & _ & _ & _ & _ & _ & -> & _).
  destruct (dropRepeat_distinct walk []) as [Hch _]; [apply chained_nil|]. done.
Qed.
End SearchResults.

Section StitchFacts.
Context `{Turf} `{!JsOrderLaws}.

Lemma bestHop_step (hop : LineString → LineString) (roads : list LineString)
    (avoid : MultiPolygon) (k : nat) (short : num) (path : option LineString)
    (segment : option (nat * LineString)) (road : LineString) :
  bestHop hop roads avoid k short path segment → roads !! k = Some road →
  let better := nlt (lineLength (hop road) kilometers) short && isPathClear (hop road) avoid in
  bestHop hop roads avoid (S k)
    (if better then lineLength (hop road) kilometers else short)
    (if better then Some (hop road) else path)
    (if better then Some (k, road) else segment).
Proof.
  intros [Hleast Hbest] Hroad better. unfold better.
  destruct (nlt (lineLength (hop road) kilometers) short) eqn:Hlt; simpl.
  - destruct (isPathClear (hop road) avoid) eqn:Hclear; simpl.
    + split.
      * intros j road' Hj Hroad' Hclear'. destruct (decide (j = k)) as [->|Hne].
        -- assert (road' = road) as -> by congruence. apply nlt_irrefl.
        -- destruct (nlt (lineLength (hop road') kilometers) (lineLength (hop road) kilometers))
             eqn:Hless; [|done].
           rewrite <- (Hleast j road'); [|lia|done|done]. symmetry. by eapply nlt_trans.
      * right. exists k, road. split; [lia|]. do 5 (split; [done|]).
        destruct Hbest as [(_ & _ & ->)|(i & r & _ & _ & _ & _ & _ & -> & Hfin)]; [done|].
        by eapply nlt_trans.
    + split.
      * intros j road' Hj Hroad' Hclear'. destruct (decide (j = k)) as [->|Hne].
        -- assert (road' = road) as -> by congruence. congruence.
        -- apply (Hleast j road'); [lia|done|done].
      * destruct Hbest as [?|(i & r & Hi & ?)]; [by left|]. right. exists i, r.
        split; [lia|done].
  - split.
    + intros j road' Hj Hroad' Hclear'. destruct (decide (j = k)) as [->|Hne].
      * assert (road' = road) as -> by congruence. done.
      * apply (Hleast j road'); [lia|done|done].
    + destruct Hbest as [?|(i & r & Hi & ?)]; [by left|]. right. exists i, r.
      split; [lia|done].
Qed.

Lemma indexed_snoc {A : Type} (l : list A) (x : A) :
  indexed (l ++ [x]) = indexed l ++ [(length l, x)].
Proof.
  unfold indexed. rewrite length_app. simpl.
  replace (length l + 1) with (S (length l)) by lia.
  rewrite seq_S. simpl. rewrite zip_with_app; [done|]. by rewrite length_seq.
Qed.

Lemma stitch_prefix (roads : list LineString) (start end_ : Position) (avoid : MultiPolygon) :
  ∀ done,
  (∃ rest, roads = done ++ rest) →
  let st := foldl (tryRoad start end_ avoid)
                  (mkStitch Infinity Infinity None None None None) (indexed done) in
  bestHop (startHop start) roads avoid (length done)
          (shortStartDistance st) (startPath st) (startRoadSegment st)
  ∧ bestHop (endHop end_) roads avoid (length done)
            (shortEndDistance st) (endPath st) (endRoadSegment st).
Proof.
  induction done as [|road done IH] using rev_ind; intros [rest Hroads]; cbv zeta.
  - simpl. split; (split; [intros j r Hj; lia | by left]).
  - rewrite indexed_snoc, foldl_app. simpl.
    destruct IH as [Hstart Hend]. { exists (road :: rest). by rewrite Hroads, <- app_assoc. }
    assert (roads !! length done = Some road) as Hroad.
    { rewrite Hroads, <- app_assoc. simpl. by apply list_lookup_middle. }
    set (st := foldl (tryRoad start end_ avoid)
                 (mkStitch Infinity Infinity None None None None) (indexed done)) in *.
    pose proof (bestHop_step _ _ _ _ _ _ _ road Hstart Hroad) as Hstart'.
    pose proof (bestHop_step _ _ _ _ _ _ _ road Hend Hroad) as Hend'.
    rewrite length_app. simpl. replace (length done + 1) with (S (length done)) by lia.
    unfold tryRoad. simpl. unfold startHop, endHop in *. simpl in *.
    destruct (nlt (lineLength [start; nearestPointOnLine road start] kilometers)
                  (shortStartDistance st)
              && isPathClear [start; nearestPointOnLine road start] avoid);
      simpl;
      destruct (nlt (lineLength [nearestPointOnLine road end_; end_] kilometers)
                    (shortEndDistance st)
                && isPathClear [nearestPointOnLine road end_; end_] avoid);
      simpl; done.
Qed.

(** X20. For each of the two endpoints of a query, the stitch that the
    router records is a straight hop to the nearest point of one of the
    roads, it is clear of the forbidden region, its length (in kilometres,
    the library's default) is below [Infinity], and no road has a clear hop
    that is shorter; nothing is recorded exactly as long as no road has a
    clear hop shorter than what is recorded.  This uses that [<] on numbers
    is irreflexive and transitive. *)
Theorem stitches_are_the_nearest_clear_hops (roads : list LineString)
    (start end_ : Position) (avoid : MultiPolygon) :
  let st := stitchEndpoints roads start end_ avoid in
  bestHop (startHop start) roads avoid (length roads)
          (shortStartDistance st) (startPath st) (startRoadSegment st)
  ∧ bestHop (endHop end_) roads avoid (length roads)
            (shortEndDistance st) (endPath st) (endRoadSegment st).
Proof.
  apply (stitch_prefix roads start end_ avoid roads). exists []. by rewrite app_nil_r.
Qed.
End StitchFacts.

Section JoinFacts.
Context `{Turf}.
Variable segments : list LineString.
Variable branchPoints : list Key.

Lemma trail_ends (from key : Key) (path : list Position) :
  Trail segments branchPoints from key path →
  head path = Some (keyCoord from)
  ∧ ((path = [keyCoord from] ∧ key = from)
     ∨ (2 ≤ length path ∧ ∃ z, list.last path = Some z ∧ pointKey z = key)).
Proof.
  induction 1 as [|key path segment a b next Htrail [Hhead Hlast] Hinner Hseg Hends Hnext].
  - split; [done|]. by left.
  - split.
    + destruct path; [done|]. done.
    + right. rewrite length_app, last_snoc. simpl. split; [|eauto].
      destruct Hlast as [[-> _]|[? _]]; simpl; lia.
Qed.

Lemma adjacency_fold_ok (rest : list LineString) :
  ∀ (done : list LineString) (adj0 adj : gmap Key (list LineString)),
  (∀ k edges e, adj0 !! k = Some edges → e ∈ edges →
     e ∈ done ∧ ∃ a b, startEnd e = Ret (a, b) ∧ (k = pointKey a ∨ k = pointKey b)) →
  foldM (λ adj segment,
           '(start, end_) ← startEnd segment;
           Ret (pushAdj (pointKey end_) segment (pushAdj (pointKey start) segment adj)))
        adj0 rest = Ret adj →
  ∀ k edges e, adj !! k = Some edges → e ∈ edges →
    e ∈ done ++ rest ∧ ∃ a b, startEnd e = Ret (a, b) ∧ (k = pointKey a ∨ k = pointKey b).
Proof.
  induction rest as [|segment rest IH]; intros done adj0 adj Hok; simpl.
  - intros [= <-]. by rewrite app_nil_r.
  - intros Hrun. apply bind_Ret_inv in Hrun as (adj1 & Hstep & Hrun).
    apply bind_Ret_inv in Hstep as ([a b] & Hends & [= <-]).
    replace (done ++ segment :: rest) with ((done ++ [segment]) ++ rest)
      by (by rewrite <- app_assoc).
    refine (IH _ _ _ _ Hrun). clear IH Hrun.
    intros k edges e Hk He.
    destruct (pushAdj_elem _ _ _ _ _ _ Hk He) as [[-> ->]|(l1 & Hk1 & He1)].
    { split; [apply elem_of_app; right; by left|]. exists a, b. auto. }
    destruct (pushAdj_elem _ _ _ _ _ _ Hk1 He1) as [[-> ->]|(l0 & Hk0 & He0)].
    { split; [apply elem_of_app; right; by left|]. exists a, b. auto. }
    destruct (Hok k l0 e Hk0 He0) as [Hin Hrest].
    split; [apply elem_of_app; by left|done].
Qed.

(** *** What the walk emits *)

Lemma walkEdge_inv (from key : Key) (path : list Position)
    (st st' : gset SegmentKey * list (Key * list Position) * list LineString)
    (edge : LineString) (a b : Position) :
  isEntry segments branchPoints from (key, path) → from ∈ branchPoints →
  edge ∈ segments → startEnd edge = Ret (a, b) → key = pointKey a ∨ key = pointKey b →
  Forall (isEntry segments branchPoints from) st.1.2 →
  Forall (isRoad segments branchPoints) st.2 →
  walkEdge branchPoints key path st edge = Ret st' →
  Forall (isEntry segments branchPoints from) st'.1.2
  ∧ Forall (isRoad segments branchPoints) st'.2.
Proof.
  destruct st as [[visited stack] connected]. simpl.
  intros [Htrail Hinner] Hfrom Hedge Hends Hkey Hstack Hroads. simpl in *.
  unfold walkEdge. rewrite Hends. simpl.
  case_decide as Hvisited; [by intros [= <-]|].
  set (nextKey := if decide (key = pointKey a) then pointKey b else pointKey a).
  set (newPath := if decide (key = pointKey a) then path ++ [b] else path ++ [a]).
  assert (∃ next, newPath = path ++ [next] ∧ nextKey = pointKey next
                  ∧ ((key = pointKey a ∧ next = b) ∨ (key = pointKey b ∧ next = a)))
    as (next & Hpath & Hnext & Hside).
  { unfold newPath, nextKey. case_decide as Hside.
    - exists b. auto.
    - exists a. split; [done|]. split; [done|]. right. by destruct Hkey. }
  assert (Trail segments branchPoints from nextKey newPath) as Hnew.
  { rewrite Hpath, Hnext. by eapply trail_step. }
  clearbody nextKey newPath.
  case_decide as Hjunction.
  - intros Hrun. apply bind_Ret_inv in Hrun as (joined & Hline & [= <-]). simpl.
    apply lineString_Ret in Hline as [-> Hlen].
    split; [done|]. apply Forall_app. split; [done|]. constructor; [|done].
    destruct (trail_ends _ _ _ Hnew) as [Hhead Hlast].
    exists from, nextKey, next. do 4 (split; [done|]). split; [done|].
    rewrite Hpath, last_snoc. done.
  - intros [= <-]. simpl. split; [|done]. constructor; [|done].
    split; [done|]. by right.
Qed.

Lemma walkEdges_inv (from key : Key) (path : list Position) (edges : list LineString) :
  isEntry segments branchPoints from (key, path) → from ∈ branchPoints →
  Forall (λ e, e ∈ segments ∧ ∃ a b, startEnd e = Ret (a, b)
                                      ∧ (key = pointKey a ∨ key = pointKey b)) edges →
  ∀ st st',
  Forall (isEntry segments branchPoints from) st.1.2 →
  Forall (isRoad segments branchPoints) st.2 →
  foldM (walkEdge branchPoints key path) st edges = Ret st' →
  Forall (isEntry segments branchPoints from) st'.1.2
  ∧ Forall (isRoad segments branchPoints) st'.2.
Proof.
  intros Hentry Hfrom Hedges.
  induction Hedges as [|edge edges (Hedge & a & b & Hends & Hkey) _ IH];
    intros st st' Hstack Hroads; simpl.
  - by intros [= <-].
  - intros Hrun. apply bind_Ret_inv in Hrun as (st1 & Hstep & Hrun).
    destruct (walkEdge_inv from key path st st1 edge a b) as [Hstack1 Hroads1]; try done.
    by apply (IH st1).
Qed.

Lemma walkStack_inv (adj : gmap Key (list LineString)) (from : Key) (fuel : nat) :
  adjacencyOk segments adj → from ∈ branchPoints →
  ∀ stack visited connected out,
  Forall (isEntry segments branchPoints from) stack →
  Forall (isRoad segments branchPoints) connected →
  walkStack fuel adj branchPoints stack visited connected = Ret out →
  Forall (isRoad segments branchPoints) out.2.
Proof.
  intros Hadj Hfrom.
  induction fuel as [|fuel IH]; intros stack visited connected out Hstack Hroads; simpl.
  - destruct stack as [|[key path] stack]; [by intros [= <-] | done].
  - destruct stack as [|[key path] stack]; [by intros [= <-]|].
    apply Forall_cons in Hstack as [Hentry Hstack].
    intros Hrun. apply bind_Ret_inv in Hrun as ([[visited' stack'] connected'] & Hedges & Hrun).
    destruct (walkEdges_inv from key path (default [] (adj !! key)) Hentry Hfrom)
      with (st := (visited, stack, connected)) (st' := (visited', stack', connected'))
      as [Hstack' Hroads']; try done.
    { destruct (adj !! key) as [edges|] eqn:Hlook; simpl; [|done].
      apply Forall_forall. intros e He. by apply (Hadj key edges). }
    by apply (IH stack' visited' connected').
Qed.

(** X21. Every road that [joinSegments] returns is a trail from a branch
    point to a branch point: it has two coordinates or more, starts at the
    coordinate read back from a branch-point fingerprint, every further
    vertex is the far end of a segment that has the node reached so far as
    one of its ends, its last vertex has the fingerprint of a branch point,
    and no node in between is a branch point. *)
Theorem joined_roads_run_between_junctions (fuel : nat) (roads : list LineString) :
  joinSegments fuel segments branchPoints = Ret roads →
  Forall (isRoad segments branchPoints) roads.
Proof.
  unfold joinSegments. intros Hrun.
  apply bind_Ret_inv in Hrun as (adj & Hadj & Hrun).
  apply bind_Ret_inv in Hrun as (st & Hwalk & [= <-]).
  assert (adjacencyOk segments adj) as Hok.
  { intros k edges e Hk He.
    apply (adjacency_fold_ok segments [] ∅ adj) with (edges := edges); [|done|done|done].
    intros k' edges' e'. by rewrite lookup_empty. }
  clear Hadj.
  assert (∀ keys (st0 : gset SegmentKey * list LineString),
            (∀ k, k ∈ keys → k ∈ branchPoints) →
            Forall (isRoad segments branchPoints) st0.2 →
            foldM (λ (st : gset SegmentKey * list LineString) branchKey,
                     let initialCoord : Position := (Number branchKey.1, Number branchKey.2) in
                     walkStack fuel adj branchPoints [(branchKey, [initialCoord])] st.1 st.2)
                  st0 keys = Ret st →
            Forall (isRoad segments branchPoints) st.2) as Hgen.
  { induction keys as [|k keys IH]; intros st0 Hkeys Hroads; simpl.
    - by intros [= <-].
    - intros Hfold. apply bind_Ret_inv in Hfold as (st1 & Hstack & Hfold).
      apply (IH st1); [intros k' Hk'; apply Hkeys; by right| |done].
      apply (walkStack_inv adj k fuel Hok) in Hstack; [done|apply Hkeys; by left| |done].
      constructor; [|done]. split; [apply trail_start|]. left. done. }
  by apply (Hgen branchPoints (∅, [])).
Qed.
End JoinFacts.

Section JoinTermination.
Context `{Turf}.
Variable segments : list LineString.
Variable branchPoints : list Key.

Lemma segmentKeys_elem (e : LineString) (a b : Position) :
  e ∈ segments → startEnd e = Ret (a, b) → (getSegmentKey (a, b)).2 ∈ segmentKeys segments.
Proof.
  intros He Hends. unfold segmentKeys. apply elem_of_list_to_set, list_elem_of_bind.
  exists e. split; [|done].
  destruct e as [|a' [|b' rest]]; simpl in Hends; try done.
  injection Hends as -> ->. by left.
Qed.

Lemma size_list_to_set_le (l : list SegmentKey) :
  size (list_to_set l : gset SegmentKey) ≤ length l.
Proof.
  induction l as [|x l IH].
  - rewrite list_to_set_nil, size_empty. done.
  - rewrite list_to_set_cons, size_union_alt, size_singleton. simpl.
    pose proof (subseteq_size (list_to_set l ∖ {[x]}) (list_to_set l : gset SegmentKey)) as Hle.
    assert (size (list_to_set l ∖ {[x]} : gset SegmentKey) ≤ size (list_to_set l : gset SegmentKey)).
    { apply Hle. intros y Hy. apply elem_of_difference in Hy. tauto. }
    lia.
Qed.

Lemma size_segmentKeys : size (segmentKeys segments) ≤ length segments.
Proof.
  unfold segmentKeys. etransitivity; [apply size_list_to_set_le|].
  generalize segments. intros l. induction l as [|e l IH]; [done|].
  rewrite bind_cons, length_app.
  match goal with |- context [length (l ≫= ?f)] => set (n := length (l ≫= f)) in * end.
  destruct e as [|a [|b rest]]; simpl; lia.
Qed.

Lemma pending_le (visited : gset SegmentKey) : pending segments visited ≤ length segments.
Proof.
  unfold pending. etransitivity; [|apply size_segmentKeys].
  apply subseteq_size. intros y Hy. apply elem_of_difference in Hy. tauto.
Qed.

Lemma pending_visit (visited : gset SegmentKey) (k : SegmentKey) :
  k ∈ segmentKeys segments → k ∉ visited →
  pending segments ({[k]} ∪ visited) < pending segments visited.
Proof.
  intros Hk Hnew. unfold pending. apply subset_size. split.
  - intros y Hy. apply elem_of_difference in Hy as [Hy Hy']. apply elem_of_difference.
    split; [done|]. intros ?. apply Hy'. apply elem_of_union. by right.
  - intros Hsub. assert (k ∈ segmentKeys segments ∖ ({[k]} ∪ visited)) as Hin.
    { apply Hsub. by apply elem_of_difference. }
    apply elem_of_difference in Hin as [_ Hin]. apply Hin, elem_of_union. left.
    by apply elem_of_singleton.
Qed.

Local Arguments pending : simpl never.

Lemma walkEdge_total (key : Key) (path : list Position)
    (st : gset SegmentKey * list (Key * list Position) * list LineString)
    (edge : LineString) :
  path ≠ [] → edge ∈ segments → (∃ a b, startEnd edge = Ret (a, b)) →
  ∃ st',
    walkEdge branchPoints key path st edge = Ret st'
    ∧ length st'.1.2 + pending segments st'.1.1 ≤ length st.1.2 + pending segments st.1.1
    ∧ (Forall (λ entry : Key * list Position, entry.2 ≠ []) st.1.2 →
       Forall (λ entry : Key * list Position, entry.2 ≠ []) st'.1.2).
Proof.
  destruct st as [[visited stack] connected]. intros Hpath Hedge (a & b & Hends).
  unfold walkEdge. rewrite Hends. simpl.
  case_decide as Hvisited; [eexists; split; [done|]; simpl; split; [lia|done]|].
  assert (pending segments ({[(getSegmentKey (a, b)).2]} ∪ visited)
          < pending segments visited) as Hlt.
  { apply pending_visit; [by eapply segmentKeys_elem|done]. }
  unfold getSegmentKey in Hlt. simpl in Hlt.
  set (newPath := if decide (key = pointKey a) then path ++ [b] else path ++ [a]).
  assert (2 ≤ length newPath ∧ newPath ≠ []) as [Hlen Hne].
  { unfold newPath. destruct path; [done|]. case_decide; simpl; split; try done;
      rewrite length_app; simpl; lia. }
  clearbody newPath.
  case_decide as Hjunction.
  - unfold lineString. rewrite decide_False by lia. simpl.
    eexists. split; [done|]. simpl. split; [lia|done].
  - eexists. split; [done|]. simpl. split; [lia|]. intros Hstack. by constructor.
Qed.

Lemma walkEdges_total (key : Key) (path : list Position) (edges : list LineString) :
  path ≠ [] →
  Forall (λ e, e ∈ segments ∧ ∃ a b, startEnd e = Ret (a, b)) edges →
  ∀ st,
  ∃ st',
    foldM (walkEdge branchPoints key path) st edges = Ret st'
    ∧ length st'.1.2 + pending segments st'.1.1 ≤ length st.1.2 + pending segments st.1.1
    ∧ (Forall (λ entry : Key * list Position, entry.2 ≠ []) st.1.2 →
       Forall (λ entry : Key * list Position, entry.2 ≠ []) st'.1.2).
Proof.
  intros Hpath Hedges. induction Hedges as [|edge edges [Hedge Hends] _ IH]; intros st; simpl.
  - exists st. split; [done|]. split; [lia|done].
  - destruct (walkEdge_total key path st edge Hpath Hedge Hends) as (st1 & -> & Hle1 & Hne1).
    simpl. destruct (IH st1) as (st' & -> & Hle & Hne).
    exists st'. split; [done|]. split; [lia|]. auto.
Qed.

Lemma walkStack_total (adj : gmap Key (list LineString)) (fuel : nat) :
  adjacencyOk segments adj →
  ∀ stack visited connected,
  Forall (λ entry : Key * list Position, entry.2 ≠ []) stack →
  length stack + pending segments visited ≤ fuel →
  ∃ out, walkStack fuel adj branchPoints stack visited connected = Ret out.
Proof.
  intros Hadj. induction fuel as [|fuel IH]; intros stack visited connected Hstack Hfuel.
  - destruct stack; [by eexists | simpl in Hfuel; lia].
  - destruct stack as [|[key path] stack]; [by eexists|]. simpl in Hfuel |- *.
    apply Forall_cons in Hstack as [Hpath Hstack]. simpl in Hpath.
    destruct (walkEdges_total key path (default [] (adj !! key)) Hpath)
      with (st := (visited, stack, connected)) as ([[visited' stack'] connected'] & -> & Hle & Hne).
    { destruct (adj !! key) as [edges|] eqn:Hlook; simpl; [|done].
      apply Forall_forall. intros e He.
      destruct (Hadj key edges e Hlook He) as (Hin & a & b & Hends & _). eauto. }
    simpl in *. apply IH; [by apply Hne|lia].
Qed.

(** X22. When every segment has two coordinates or more and the budget
    exceeds the number of segments, [joinSegments] returns a roadmap: the
    junction walk neither throws nor runs out, whatever the branch points. *)
Theorem joining_returns_within_the_segment_count (fuel : nat) :
  Forall (λ segment, 2 ≤ length segment) segments →
  length segments < fuel →
  ∃ roads, joinSegments fuel segments branchPoints = Ret roads.
Proof.
  intros Hall Hfuel. unfold joinSegments.
  destruct (adjacency_total ∅ segments Hall) as [adj Hadj]. rewrite Hadj. simpl.
  assert (adjacencyOk segments adj) as Hok.
  { intros k edges e Hk He.
    apply (adjacency_fold_ok segments [] ∅ adj) with (edges := edges); [|done|done|done].
    intros k' edges' e'. by rewrite lookup_empty. }
  match goal with |- ∃ roads, (foldM ?f _ branchPoints ≫= _) = _ =>
    assert (∀ keys (st0 : gset SegmentKey * list LineString),
              ∃ st, foldM f st0 keys = Ret st) as Hgen end.
  { induction keys as [|k keys IH]; intros st0; simpl; [by eexists|].
    destruct (walkStack_total adj fuel Hok [(k, [(Number k.1, Number k.2)])] st0.1 st0.2)
      as [st1 ->].
    - by repeat constructor.
    - simpl. pose proof (pending_le st0.1). lia.
    - simpl. apply IH. }
  destruct (Hgen branchPoints (∅, [])) as [st ->]. simpl. by eexists.
Qed.
End JoinTermination.

(** ** Runs of the pipeline *)

Section RunFacts.
Context `{Turf}.

(** A property of the signals that no stage of the pipeline disturbs once
    the boundary and the obstacles are assigned. *)
Lemma generateAll_keeps (P : Globals → Prop) (fuel : nat) (bounds : Polygon) (g : Globals) :
  (∀ g v, P g → P (setConvexHull v g)) →
  (∀ g v, P g → P (setMinBoundingBox v g)) →
  (∀ g v, P g → P (setCoverageGrid v g)) →
  (∀ g v, P g → P (setTravelHeading v g)) →
  (∀ g v, P g → P (setVoronoiPaths v g)) →
  (∀ g v, P g → P (setMowPath v g)) →
  (∀ g v, P g → P (setPathMarkers v g)) →
  (differenceObstaclesFromBoundary bounds (rawObstacles g) = None →
   P (setBoundary None g)) →
  (∀ working,
     differenceObstaclesFromBoundary bounds (rawObstacles g) = Some working →
     P (setObstacles (removeOrphanedObstacles working (rawObstacles g))
          (setBoundary (Some working) g))) →
  P (generateAll fuel bounds g).2.
Proof.
  intros Hhull Hmbb Hgrid Hhead Hroads Hpath Hmarks Hnull Hworking.
  unfold generateAll. simpl.
  destruct (differenceObstaclesFromBoundary bounds (rawObstacles g)) as [working|] eqn:Hdiff;
    [|by apply Hnull].
  specialize (Hworking working eq_refl). simpl.
  apply attempt_keeps; [by apply Hhull|]. intros mbb.
  apply attempt_keeps; [by apply Hmbb, Hhull|]. intros grid.
  apply attempt_keeps; [by apply Hgrid, Hmbb, Hhull|]. intros heading.
  apply attempt_keeps; [by apply Hhead, Hgrid, Hmbb, Hhull|]. intros roadmap.
  unfold sweepAll. destruct (sweepLoop _ _ _ _ _) as [r st].
  assert (P (setCoverageGrid (Some (sweepGrid st))
               (setVoronoiPaths (Some roadmap)
                  (setTravelHeading heading
                     (setCoverageGrid (Some grid)
                        (setMinBoundingBox (Some mbb)
                           (setConvexHull (getConvexHull working)
                              (setObstacles (removeOrphanedObstacles working (rawObstacles g))
                                 (setBoundary (Some working) g))))))))) as Hstate.
  { by apply Hgrid, Hroads, Hhead, Hgrid, Hmbb, Hhull. }
  apply attempt_keeps; [done|]. intros _.
  apply attempt_keeps; [done|]. intros path.
  destruct path; simpl; [by apply Hmarks, Hpath | by apply Hpath].
Qed.

(** X23. However a run of [generateAll] ends, it leaves the lane width,
    the start corner, the orientation offset and the raw obstacles as they
    were. *)
Theorem run_only_reads_the_settings (fuel : nat) (bounds : Polygon) (g : Globals) :
  let g' := (generateAll fuel bounds g).2 in
  laneWidth g' = laneWidth g ∧ startPoint g' = startPoint g
  ∧ mbbOrientation g' = mbbOrientation g ∧ rawObstacles g' = rawObstacles g.
Proof.
  apply (generateAll_keeps
           (λ g', laneWidth g' = laneWidth g ∧ startPoint g' = startPoint g
                  ∧ mbbOrientation g' = mbbOrientation g ∧ rawObstacles g' = rawObstacles g));
    try done.
Qed.

(** X24. When the coverage grid comes out empty (the lane is wider than
    the rectangle), the run stores the working boundary, the obstacles, the
    hull, the rectangle and the empty grid, and then stops with the TypeError
    of [getTravelHeading]: the heading, the roadmap, the path and the markers
    keep the values they had. *)
Theorem empty_grid_stops_the_run (fuel : nat) (bounds : Polygon) (g : Globals)
    (working hull mbb : Polygon) :
  differenceObstaclesFromBoundary bounds (rawObstacles g) = Some working →
  getConvexHull working = Some hull →
  getMinBoundingBox hull (mbbOrientation g) = Ret mbb →
  getCoverageGrid working (removeOrphanedObstacles working (rawObstacles g)) mbb
                  (laneWidth g) (startPoint g) = Ret [] →
  generateAll fuel bounds g
  = (Thrown TypeError,
     setCoverageGrid (Some [])
       (setMinBoundingBox (Some mbb)
          (setConvexHull (Some hull)
             (setObstacles (removeOrphanedObstacles working (rawObstacles g))
                (setBoundary (Some working) g))))).
Proof.
  intros Hdiff Hhull Hmbb Hgrid. unfold generateAll. simpl.
  rewrite Hdiff. simpl. rewrite Hhull. simpl. rewrite Hmbb. simpl. by rewrite Hgrid.
Qed.

(** X25. When a run that had a working boundary finishes, either it stored
    a null path and left the markers alone, or the path it stored has two
    coordinates or more, each farther than half the lane width from the one
    before it, and the markers it stored are those of that path. *)
Theorem finished_run_stores_a_pruned_path_and_its_markers (fuel : nat) (bounds : Polygon)
    (g : Globals) (working : Polygon) :
  differenceObstaclesFromBoundary bounds (rawObstacles g) = Some working →
  (generateAll fuel bounds g).1 = Finished →
  let g' := (generateAll fuel bounds g).2 in
  (mowPath g' = None ∧ pathMarkers g' = pathMarkers g)
  ∨ ∃ p,
      mowPath g' = Some p ∧ 2 ≤ length p
      ∧ spaced (ndiv (laneWidth g) (dec 2 0)) p
      ∧ pathMarkers g' = Some (createPathMarkers p (laneWidth g)).
Proof.
  intros Hdiff. unfold generateAll. simpl. rewrite Hdiff. simpl.
  destruct (hull ← defined (getConvexHull working); getMinBoundingBox hull (mbbOrientation g))
    as [mbb| |]; simpl; [|done|done].
  destruct (getCoverageGrid _ _ _ _ _) as [grid| |]; simpl; [|done|done].
  destruct (getTravelHeading grid) as [heading| |]; simpl; [|done|done].
  destruct (calculateVoronoiRoadmap _ _ _) as [roadmap| |]; simpl; [|done|done].
  unfold sweepAll. destruct (sweepLoop _ _ _ _ _) as [r st]. simpl.
  destruct r as [[]| |]; simpl; [|done|done].
  destruct (pruneExcessPoints (sweepPath st) _) as [path| |] eqn:Hprune; simpl; [|done|done].
  destruct path as [p|]; simpl; intros _; [|by left].
  right. exists p. split; [done|].
  destruct (sweepPath st) as [coordinates|]; [|done].
  apply pruneExcessPoints_shape in Hprune as (Hlen & _ & _ & Hspaced). done.
Qed.
End RunFacts.

(** ** The markers (path-markers.ts) *)

Section MarkerFacts.
Context `{Turf}.


End MarkerFacts.

(** * Worked examples on the planar implementation *)

Section Checks.
Context `{Turf}.


End Checks.

Module Examples.
Import Planar.
Local Open Scope Z_scope.

Global Instance planar_laws : JsNumberLaws.
Proof. split; [done | by intros []]. Qed.

(** The pipeline on the plot without obstacles: full coverage, and a
    back-and-forth path. *)
Example plot_is_covered :
  let out := generateAll 50 plot
               (mkGlobals (whole 2) (whole 0) (whole 0) None None None None None None
                          (whole 0) None None None) in
  out.1 = Finished
  ∧ getCoverage (coverageGrid out.2) = whole 1
  ∧ mowPath out.2
    = Some (pz <$> [(900, 900); (900, 100); (700, 100); (700, 900); (500, 900);
                    (500, 100); (300, 100); (300, 900); (100, 900); (100, 100)]).
Proof. vm_compute. done. Qed.

(** C7, tried on a path with two vertices 10 cm apart among its five. *)
Example prune_twice_example :
  let path := Some (pz <$> [(0, 0); (10, 0); (300, 0); (300, 5); (300, 400)]) in
  pruneExcessPoints path (whole 1) = Ret (Some (pz <$> [(0, 0); (300, 0); (300, 400)]))
  ∧ (pruneExcessPoints path (whole 1) ≫= λ p, pruneExcessPoints p (whole 1))
    = pruneExcessPoints path (whole 1).
Proof. vm_compute. done. Qed.

Lemma prune_throws_when_short_witness :
  pruneExcessPoints (Some (pz <$> [(0, 0); (10, 0); (20, 0)])) (whole 1) = Throw TurfError.
Proof.
  apply prune_throws_when_short. right. left.
  eexists _, _. split; [reflexivity|]. repeat constructor.
Defined.

(** Junction detection and joining on the ladder: the two junctions are
    found, the rung between them is emitted as one polyline, and the dead
    ends are dropped. *)
Example ladder_is_joined :
  identifyBranchPoints ladder = Ret [("30", "50"); ("70", "50")]
  ∧ joinSegments 20 ladder [("30", "50"); ("70", "50")]
    = Ret [pz <$> [(300, 500); (500, 500); (700, 500)]].
Proof. vm_compute. done. Qed.

Lemma branch_points_witness :
  Forall (λ segment : LineString, length segment = 2%nat) star
  ∧ ∃ branchPointKeys,
      identifyBranchPoints star = Ret branchPointKeys
      ∧ ∀ k, k ∈ branchPointKeys ↔ (2 < occurrences k (endpointKeys star))%nat.
Proof.
  assert (Forall (λ segment : LineString, length segment = 2%nat) star) as Hstar.
  { repeat constructor. }
  split; [exact Hstar|].
  exact (branch_points_are_the_keys_seen_more_than_twice star Hstar).
Defined.

Lemma cells_are_labelled_witness :
  getCoverageGrid plot (Some [wall]) plot (whole 2) (whole 0) = Ret plotGrid
  ∧ ∀ cell, cell ∈ plotGrid →
      ∃ eroded,
        buffer plot (dec (-1) 2) meters = Some eroded
        ∧ cellCentroid cell = centroid (geometry cell)
        ∧ visitState cell =
            (if negb (booleanContains eroded (cellCentroid cell))
                || existsb (λ obstacle, booleanContains obstacle (cellCentroid cell)) [wall]
             then unvisitable else unvisited)
        ∧ visitState cell ≠ visited.
Proof.
  assert (getCoverageGrid plot (Some [wall]) plot (whole 2) (whole 0) = Ret plotGrid) as Hgrid.
  { reflexivity. }
  split; [exact Hgrid|].
  exact (cells_are_labelled_by_their_centroid plot (Some [wall]) plot (whole 2) (whole 0)
           plotGrid Hgrid).
Defined.

Lemma resume_without_route_witness :
  calculateClearPath 5 (Some []) (pz (200, 500)) (cellCentroid farCell) plot (Some [wall])
    = Ret None
  ∧ calculateMowPath 5 (Some (pz <$> [(100, 500); (200, 500)])) plot (Some [wall])
                     (Some []) [farCell]
    = Ret (Some (pz <$> [(100, 500); (200, 500)]), [farCell]).
Proof.
  assert (calculateClearPath 5 (Some []) (pz (200, 500)) (cellCentroid farCell) plot
            (Some [wall]) = Ret None) as Hroute.
  { vm_compute. reflexivity. }
  split; [exact Hroute|].
  apply (resume_without_route_returns_path_unchanged 5 (pz <$> [(100, 500); (200, 500)])
           plot (Some [wall]) (Some []) [farCell] (pz (200, 500)) farCell []);
    [reflexivity | reflexivity | exact Hroute].
Defined.


(** A ring of one coordinate never reaches the guard: the library's centroid
    throws, with and without an offset.  The guard is reached by a hull whose
    first ring is empty while another ring has a coordinate to average. *)
Example single_coordinate_ring_stops_at_the_centroid :
  getMinBoundingBox [pz <$> [(100, 100)]] (whole 0) = Throw TurfError
  ∧ getMinBoundingBox [pz <$> [(100, 100)]] (whole 90) = Throw TurfError
  ∧ getMinBoundingBox [[]; pz <$> [(100, 100); (500, 100)]] (whole 0) = Throw MbbError.
Proof. vm_compute. done. Qed.

Lemma mbb_with_offset_witness :
  lastEdgeBearing (pz <$> [(0, 0); (1000, 0); (1000, 1000); (0, 1000); (0, 0)])
    = Some (whole 180)
  ∧ ngt (whole 90) (dec 0 0) = true
  ∧ getMinBoundingBox plot (whole 90)
    = polygon (transformRotate
                 (bboxPolygon (bbox (transformRotate plot (nneg (nadd (whole 180) (whole 90)))
                                                     (centroid plot))))
                 (nadd (whole 180) (whole 90)) (centroid plot)).
Proof.
  split; [reflexivity|]. split; [reflexivity|].
  apply (mbb_with_offset_uses_last_edge plot
           (pz <$> [(0, 0); (1000, 0); (1000, 1000); (0, 1000); (0, 0)]) []
           (whole 90) (whole 180)); reflexivity.
Defined.

(** C2 fails as stated: the barn lies within the raw plot, yet it is not in
    the working obstacle set, because it is not within the working boundary
    (the plot with the shed cut out). *)
Lemma barn_within_plot_is_dropped :
  filter (λ obstacle, booleanWithin obstacle plot = true) [barn; shed] = [barn]
  ∧ boundary (generateAll 50 plot lawn).2 = Some notchedPlot
  ∧ obstacles (generateAll 50 plot lawn).2 = Some [].
Proof. vm_compute. done. Qed.

(** The planar point-in-polygon test on the plot and on the notched plot:
    a horizontal edge is never crossed, and a vertical edge at [c] over
    [lo, hi) is crossed by the ray from [(x, y)] when [y] is in that range
    and [x] is left of [c]. *)
Lemma rayCrosses_flat (x y a b c : Z) : rayCrosses (x, y) ((a, c), (b, c)) = false.
Proof. unfold rayCrosses. simpl. by destruct (bool_decide (y < c)). Qed.

Lemma rayCrosses_up (x y c lo hi : Z) :
  lo < hi → rayCrosses (x, y) ((c, lo), (c, hi)) = bool_decide (lo ≤ y < hi ∧ x < c).
Proof.
  intros Hlt. unfold rayCrosses. simpl. rewrite decide_True by done.
  repeat case_bool_decide; simpl; try done; nia.
Qed.

Lemma rayCrosses_down (x y c lo hi : Z) :
  lo < hi → rayCrosses (x, y) ((c, hi), (c, lo)) = bool_decide (lo ≤ y < hi ∧ x < c).
Proof.
  intros Hlt. unfold rayCrosses. simpl. rewrite decide_False by lia.
  repeat case_bool_decide; simpl; try done; nia.
Qed.

Lemma notch_vertex_in_plot (v : P2) :
  insideRing v (outerRing notchedPlot) || onRing v (outerRing notchedPlot) = true →
  insideRing v (outerRing plot) || onRing v (outerRing plot) = true.
Proof.
  destruct v as [x y]. intros Hnotch.
  assert (0 ≤ x ≤ 1000 ∧ 0 ≤ y ≤ 1000) as Hbox.
  { apply orb_true_iff in Hnotch as [Hin|Hon].
    - revert Hin. unfold insideRing.
      change (consecutive (outerRing notchedPlot))
        with [((0, 0), (1000, 0)); ((1000, 0), (1000, 400)); ((1000, 400), (800, 400));
              ((800, 400), (800, 600)); ((800, 600), (1000, 600));
              ((1000, 600), (1000, 1000)); ((1000, 1000), (0, 1000));
              ((0, 1000), (0, 0))].
      rewrite !filter_cons, filter_nil.
      rewrite !rayCrosses_flat, !rayCrosses_up, rayCrosses_down by lia.
      repeat case_bool_decide; simpl; intros ?; try done; lia.
    - apply existsb_exists in Hon as (s & Hs & Hon).
      apply andb_true_iff in Hon as [_ Hon]. apply bool_decide_eq_true in Hon.
      simpl in Hs. repeat destruct Hs as [<-|Hs]; simpl in Hon; lia. }
  apply orb_true_iff.
  destruct (decide (0 < x < 1000 ∧ 0 < y < 1000)) as [Hinner|Hedge].
  - left. unfold insideRing.
    change (consecutive (outerRing plot))
      with [((0, 0), (1000, 0)); ((1000, 0), (1000, 1000)); ((1000, 1000), (0, 1000));
            ((0, 1000), (0, 0))].
    rewrite !filter_cons, filter_nil.
    rewrite !rayCrosses_flat, rayCrosses_up, rayCrosses_down by lia.
    rewrite (bool_decide_eq_true_2 (0 ≤ y < 1000 ∧ x < 1000)) by lia.
    rewrite (bool_decide_eq_false_2 (0 ≤ y < 1000 ∧ x < 0)) by lia. done.
  - right. apply existsb_exists.
    assert (y = 0 ∨ x = 1000 ∨ y = 1000 ∨ x = 0) as [-> | [-> | [-> | ->]]] by lia.
    + exists ((0, 0), (1000, 0)). split; [simpl; tauto|].
      apply andb_true_iff. split; apply bool_decide_eq_true; unfold orient; simpl; lia.
    + exists ((1000, 0), (1000, 1000)). split; [simpl; tauto|].
      apply andb_true_iff. split; apply bool_decide_eq_true; unfold orient; simpl; lia.
    + exists ((1000, 1000), (0, 1000)). split; [simpl; tauto|].
      apply andb_true_iff. split; apply bool_decide_eq_true; unfold orient; simpl; lia.
    + exists ((0, 1000), (0, 0)). split; [simpl; tauto|].
      apply andb_true_iff. split; apply bool_decide_eq_true; unfold orient; simpl; lia.
Qed.

(** What the planar difference leaves of the plot lies inside the plot. *)
Global Instance planar_difference_laws : TurfDifferenceLaws.
Proof.
  split. intros first others left inner.
  change (planarDifference (first :: others) = Some left →
          planarWithin inner left = true → planarWithin inner first = true).
  unfold planarDifference. case_decide as Hscene; [|done].
  injection Hscene as -> _. intros [= <-].
  unfold planarWithin. rewrite !forallb_forall.
  intros Hall v Hv. apply notch_vertex_in_plot. by apply Hall.
Qed.
(** On the yard the shed is cut out of the plot; the wall is kept, the shed
    (not within the plot) and the barn (within the plot, not within what is
    left of it) are not.  On the fenced lawn nothing is cut and both
    obstacles are kept. *)
Lemma working_obstacles_witness :
  (differenceObstaclesFromBoundary plot (rawObstacles yard) = Some notchedPlot
   ∧ obstacles (generateAll 50 plot yard).2
     = (filter (λ obstacle, booleanWithin obstacle plot = true
                            ∧ booleanWithin obstacle notchedPlot = true)
          <$> rawObstacles yard)
   ∧ filter (λ obstacle, booleanWithin obstacle plot = true
                         ∧ booleanWithin obstacle notchedPlot = true) [wall; barn; shed]
     = [wall])
  ∧ (differenceObstaclesFromBoundary plot (rawObstacles fencedLawn) = Some plot
     ∧ Forall (λ obstacle, booleanWithin obstacle plot = true) [wall; barn]
     ∧ obstacles (generateAll 50 plot fencedLawn).2 = Some [wall; barn]).
Proof.
  assert (differenceObstaclesFromBoundary plot (rawObstacles yard) = Some notchedPlot)
    as Hyard.
  { vm_compute. reflexivity. }
  assert (differenceObstaclesFromBoundary plot (rawObstacles fencedLawn) = Some plot)
    as Hfenced.
  { vm_compute. reflexivity. }
  assert (Forall (λ obstacle, booleanWithin obstacle plot = true) [wall; barn]) as Hall.
  { repeat constructor. }
  split.
  - split; [exact Hyard|]. split; [|vm_compute; reflexivity].
    exact (proj1 (working_obstacles_are_the_contained_ones_within_the_working_boundary
                    50 plot yard notchedPlot Hyard)).
  - split; [exact Hfenced|]. split; [exact Hall|].
    exact (proj2 (proj2 (working_obstacles_are_the_contained_ones_within_the_working_boundary
                           50 plot fencedLawn plot Hfenced) [wall; barn] eq_refl Hall)).
Defined.

Lemma all_unvisitable_witness :
  Forall (λ cell, visitState cell = unvisitable) pavedGrid
  ∧ getCoverage (Some pavedGrid) = NaN
  ∧ nlt (getCoverage (Some pavedGrid)) (dec 99 2) = false
  ∧ sweepAll 7 plot pavedGrid lawn
    = (Finished, setMowPath None (setCoverageGrid (Some pavedGrid) lawn)).
Proof.
  assert (Forall (λ cell, visitState cell = unvisitable) pavedGrid) as Hpaved.
  { repeat constructor. }
  split; [exact Hpaved|].
  destruct (all_unvisitable_gives_null_path 7 pavedGrid Hpaved)
    as (Hnan & Hcond & _ & Hsweep & _).
  split; [exact Hnan|]. split; [exact Hcond|]. apply Hsweep.
Defined.


(** ** The further results on the planar implementation

    The planar numbers satisfy the order facts and the facts about
    differences. *)

Global Instance planar_order_laws : JsOrderLaws.
Proof.
  split.
  - intros [| |x|]; simpl; try done. apply bool_decide_eq_false. lia.
  - intros [| |x|] [| |y|] [| |z|]; simpl; try done.
    rewrite !bool_decide_eq_true. lia.
Qed.

Global Instance planar_subtraction_laws : JsSubtractionLaws.
Proof.
  split.
  - intros a b. change (dec 0 0) with (XFin 0).
    destruct a as [| |x|], b as [| |y|]; simpl; try done. apply bool_decide_ext. lia.
  - intros [| |x|] [| |y|]; simpl; try done.
    repeat case_bool_decide; simpl; try done; lia.
Qed.

Lemma pruned_path_witness :
  pruneExcessPoints (Some jitter) (whole 1) = Ret (Some jitterPruned)
  ∧ (2 ≤ length jitterPruned)%nat
  ∧ head jitterPruned = head jitter
  ∧ jitterPruned `sublist_of` jitter
  ∧ spaced (whole 1) jitterPruned.
Proof.
  assert (pruneExcessPoints (Some jitter) (whole 1) = Ret (Some jitterPruned)) as Hprune.
  { vm_compute. reflexivity. }
  split; [exact Hprune|].
  exact (pruned_path_is_a_spaced_selection (whole 1) jitter jitterPruned Hprune).
Defined.

Lemma pass_witness :
  calculateMowPath 5 None plot (Some [wall]) (Some []) plotGrid = Ret sweptPlot
  ∧ advanced plotGrid sweptPlot.2
  ∧ ∃ added,
      sweptPlot.1 = Some added
      ∧ (added = [] → sweptPlot.2 = plotGrid)
      ∧ (is_Some (@None LineString) → added = [] ∨ (2 ≤ length added)%nat).
Proof.
  assert (calculateMowPath 5 None plot (Some [wall]) (Some []) plotGrid = Ret sweptPlot)
    as Hpass.
  { reflexivity. }
  split; [exact Hpass|].
  exact (pass_only_appends_and_only_visits 5 None sweptPlot.1 plot (Some [wall]) (Some [])
           plotGrid sweptPlot.2 Hpass).
Defined.

Lemma fresh_pass_progress_witness :
  cornerCell ∈ plotGrid
  ∧ ∃ waypoints grid',
      calculateMowPath 5 None plot (Some [wall]) (Some []) plotGrid
        = Ret (Some waypoints, grid')
      ∧ waypoints ≠ []
      ∧ (unvisitedCount grid' < unvisitedCount plotGrid)%nat.
Proof.
  assert (cornerCell ∈ plotGrid) as Hcell.
  { apply list_elem_of_lookup. exists 0%nat. reflexivity. }
  split; [exact Hcell|].
  apply (fresh_pass_makes_progress 5 plot (Some [wall]) (Some []) plotGrid cornerCell Hcell).
  - reflexivity.
  - assert (getRowCount plotGrid = 5%nat) as -> by reflexivity. simpl. lia.
Defined.


Lemma grid_cells_witness :
  getCoverageGrid plot (Some [wall]) plot (whole 2) (whole 0) = Ret plotGrid
  ∧ ∃ (ring : Ring) (p1 p2 : Position),
      head plot = Some ring ∧ ring !! 0%nat = Some p1 ∧ ring !! 1%nat = Some p2
      ∧ geometry <$> plotGrid
        = (λ cell, transformRotate cell (nsub (bearing p1 p2) (nmul (dec 90 0) (whole 0)))
                                   (centroid plot))
          <$> squareGrid
                (bbox (transformRotate plot
                         (nadd (nneg (bearing p1 p2)) (nmul (dec 90 0) (whole 0)))
                         (centroid plot)))
                (whole 2) meters.
Proof.
  assert (getCoverageGrid plot (Some [wall]) plot (whole 2) (whole 0) = Ret plotGrid) as Hgrid.
  { reflexivity. }
  split; [exact Hgrid|].
  exact (grid_keeps_every_cell_of_the_square_grid plot (Some [wall]) plot (whole 2) (whole 0)
           plotGrid Hgrid).
Defined.

Lemma grid_labels_witness :
  getCoverageGrid plot (Some [wall]) plot (whole 2) (whole 0) = Ret plotGrid
  ∧ NoDup (cellLabel <$> plotGrid)
  ∧ (∀ first, head plotGrid = Some first → cellLabel first = (0%nat, 0%nat))
  ∧ (∀ r, gridCol <$> filter (λ cell, gridRow cell = r) plotGrid
          = seq 0 (length (filter (λ cell, gridRow cell = r) plotGrid))).
Proof.
  assert (getCoverageGrid plot (Some [wall]) plot (whole 2) (whole 0) = Ret plotGrid) as Hgrid.
  { reflexivity. }
  split; [exact Hgrid|].
  exact (grid_labels_count_rows_and_columns plot (Some [wall]) plot (whole 2) (whole 0)
           plotGrid Hgrid).
Defined.

Lemma grid_rows_witness :
  getCoverageGrid plot (Some [wall]) plot (whole 2) (whole 0) = Ret plotGrid
  ∧ rowsInRange plotGrid
  ∧ ∀ final, list.last plotGrid = Some final → getRowCount plotGrid = S (gridRow final).
Proof.
  assert (getCoverageGrid plot (Some [wall]) plot (whole 2) (whole 0) = Ret plotGrid) as Hgrid.
  { reflexivity. }
  split; [exact Hgrid|].
  exact (built_grid_has_its_rows_within_the_row_count plot (Some [wall]) plot (whole 2)
           (whole 0) plotGrid Hgrid).
Defined.

Lemma travel_heading_witness :
  getCoverageGrid plot (Some [wall]) plot (whole 2) (whole 0) = Ret plotGrid
  ∧ getCoverageGrid plot None plot (whole 20) (whole 0) = Ret []
  ∧ (∃ heading, getTravelHeading plotGrid = Ret heading)
  ∧ getTravelHeading [] = Throw TypeError.
Proof.
  assert (getCoverageGrid plot (Some [wall]) plot (whole 2) (whole 0) = Ret plotGrid) as Hgrid.
  { reflexivity. }
  assert (getCoverageGrid plot None plot (whole 20) (whole 0) = Ret []) as Hnone.
  { reflexivity. }
  split; [exact Hgrid|]. split; [exact Hnone|]. split.
  - apply (proj2 (travel_heading_needs_a_cell plot (Some [wall]) plot (whole 2) (whole 0)
                    plotGrid Hgrid)).
    intros Hnil. apply (f_equal length) in Hnil. vm_compute in Hnil. discriminate.
  - exact (proj1 (travel_heading_needs_a_cell plot None plot (whole 20) (whole 0) [] Hnone)
             eq_refl).
Defined.

Lemma minimum_box_witness :
  ngt (whole 0) (dec 0 0) = false
  ∧ getMinBoundingBox plot (whole 0) = Ret plotBox
  ∧ ∃ ring i a b,
      head plot = Some ring ∧ hullEdge ring i a b
      ∧ plotBox = edgeBox plot a b
      ∧ nlt (edgeBoxArea plot a b) Infinity = true
      ∧ ∀ j a' b', hullEdge ring j a' b' →
          nlt (edgeBoxArea plot a' b') (edgeBoxArea plot a b) = false.
Proof.
  assert (getMinBoundingBox plot (whole 0) = Ret plotBox) as Hbox.
  { vm_compute. reflexivity. }
  split; [reflexivity|]. split; [exact Hbox|].
  exact (minimum_box_is_not_beaten_by_any_edge plot (whole 0) plotBox eq_refl Hbox).
Defined.

Lemma segment_key_witness :
  comparable (pz (300, 500)) (pz (300, 100))
  ∧ (getSegmentKey (pz (300, 500), pz (300, 100))).2
    = (getSegmentKey (pz (300, 100), pz (300, 500))).2.
Proof.
  assert (comparable (pz (300, 500)) (pz (300, 100))) as Hcmp.
  { split; [right; right; reflexivity | right; left; reflexivity]. }
  split; [exact Hcmp|].
  exact (segment_key_ignores_direction (pz (300, 500)) (pz (300, 100)) Hcmp).
Defined.


Lemma no_junction_witness :
  Forall (λ segment : LineString, length segment = 2%nat) chain
  ∧ (identifyBranchPoints chain ≫= joinSegments 20 chain) = Ret [].
Proof.
  assert (Forall (λ segment : LineString, length segment = 2%nat) chain) as Hpairs.
  { repeat constructor. }
  split; [exact Hpairs|].
  apply (no_junction_gives_an_empty_roadmap 20 chain Hpairs).
  intros k. unfold occurrences.
  assert (endpointKeys chain
          = [("10", "10"); ("30", "10"); ("30", "10"); ("50", "10"); ("50", "10");
             ("70", "10")]) as -> by (vm_compute; reflexivity).
  rewrite !filter_cons, filter_nil.
  repeat case_decide; simpl; try lia; congruence.
Defined.

Lemma adjacency_graph_witness :
  calculateAdjacencyGraph loopRoads = Ret loopGraph
  ∧ fromRoads loopRoads loopGraph ∧ mirrored loopGraph ∧ holdsRoads loopRoads loopGraph.
Proof.
  assert (calculateAdjacencyGraph loopRoads = Ret loopGraph) as Hgraph.
  { reflexivity. }
  split; [exact Hgraph|].
  exact (adjacency_graph_mirrors_the_roads loopRoads loopGraph Hgraph).
Defined.

Lemma found_path_witness :
  calculateAdjacencyGraph loopRoads = Ret loopGraph
  ∧ getDijkstraPath 20 loopGraph (pz (100, 100)) (pz (100, 300)) = Ret (Some loopPath)
  ∧ Route loopGraph (pointKey (pz (100, 100))) (pointKey (pz (100, 300)))
          (pointKey (pz (100, 300))) loopPath
  ∧ (2 ≤ length loopPath)%nat
  ∧ ∀ p, p ∈ loopPath → ∃ road, road ∈ loopRoads ∧ p ∈ road.
Proof.
  assert (calculateAdjacencyGraph loopRoads = Ret loopGraph) as Hgraph.
  { reflexivity. }
  assert (getDijkstraPath 20 loopGraph (pz (100, 100)) (pz (100, 300)) = Ret (Some loopPath))
    as Hsearch.
  { vm_compute. reflexivity. }
  split; [exact Hgraph|]. split; [exact Hsearch|].
  exact (found_path_walks_the_roads 20 loopRoads loopGraph (pz (100, 100)) (pz (100, 300))
           loopPath Hgraph Hsearch).
Defined.

Lemma routed_path_witness :
  isPathClear [pz (200, 500); pz (700, 500)] (boundaryAndObstacles plot [wall]) = false
  ∧ calculateClearPath 20 (Some [southRoad]) (pz (200, 500)) (pz (700, 500)) plot
                       (Some [wall]) = Ret (Some detour)
  ∧ chained (λ a b, pointKey a ≠ pointKey b) detour.
Proof.
  assert (isPathClear [pz (200, 500); pz (700, 500)] (boundaryAndObstacles plot [wall])
          = false) as Hdirect.
  { vm_compute. reflexivity. }
  assert (calculateClearPath 20 (Some [southRoad]) (pz (200, 500)) (pz (700, 500)) plot
            (Some [wall]) = Ret (Some detour)) as Hrun.
  { vm_compute. reflexivity. }
  split; [exact Hdirect|]. split; [exact Hrun|].
  exact (routed_path_has_no_repeated_fingerprint 20 [southRoad] (pz (200, 500))
           (pz (700, 500)) plot (Some [wall]) detour Hdirect Hrun).
Defined.

Lemma stitches_witness :
  bestHop (startHop (pz (200, 500))) [southRoad; throughRoad]
          (boundaryAndObstacles plot [wall]) 2
          (shortStartDistance (stitchEndpoints [southRoad; throughRoad] (pz (200, 500))
                                 (pz (700, 500)) (boundaryAndObstacles plot [wall])))
          (startPath (stitchEndpoints [southRoad; throughRoad] (pz (200, 500))
                        (pz (700, 500)) (boundaryAndObstacles plot [wall])))
          (startRoadSegment (stitchEndpoints [southRoad; throughRoad] (pz (200, 500))
                               (pz (700, 500)) (boundaryAndObstacles plot [wall])))
  ∧ startRoadSegment (stitchEndpoints [southRoad; throughRoad] (pz (200, 500))
                        (pz (700, 500)) (boundaryAndObstacles plot [wall]))
    = Some (1%nat, throughRoad).
Proof.
  split; [|vm_compute; reflexivity].
  exact (proj1 (stitches_are_the_nearest_clear_hops [southRoad; throughRoad] (pz (200, 500))
                  (pz (700, 500)) (boundaryAndObstacles plot [wall]))).
Defined.

Lemma joined_roads_witness :
  joinSegments 20 ladder [("30", "50"); ("70", "50")]
    = Ret [pz <$> [(300, 500); (500, 500); (700, 500)]]
  ∧ Forall (isRoad ladder [("30", "50"); ("70", "50")])
           [pz <$> [(300, 500); (500, 500); (700, 500)]].
Proof.
  assert (joinSegments 20 ladder [("30", "50"); ("70", "50")]
          = Ret [pz <$> [(300, 500); (500, 500); (700, 500)]]) as Hjoin.
  { vm_compute. reflexivity. }
  split; [exact Hjoin|].
  exact (joined_roads_run_between_junctions ladder [("30", "50"); ("70", "50")] 20
           [pz <$> [(300, 500); (500, 500); (700, 500)]] Hjoin).
Defined.

Lemma joining_returns_witness :
  Forall (λ segment : LineString, (2 ≤ length segment)%nat) ladder
  ∧ (length ladder < 20)%nat
  ∧ ∃ roads, joinSegments 20 ladder [("30", "50"); ("70", "50")] = Ret roads.
Proof.
  assert (Forall (λ segment : LineString, (2 ≤ length segment)%nat) ladder) as Hpairs.
  { repeat constructor. }
  assert (length ladder < 20)%nat as Hfuel.
  { simpl. lia. }
  split; [exact Hpairs|]. split; [exact Hfuel|].
  exact (joining_returns_within_the_segment_count ladder [("30", "50"); ("70", "50")] 20
           Hpairs Hfuel).
Defined.

Lemma empty_grid_witness :
  differenceObstaclesFromBoundary plot (rawObstacles wideLawn) = Some plot
  ∧ getConvexHull plot = Some plot
  ∧ getMinBoundingBox plot (mbbOrientation wideLawn) = Ret plotBox
  ∧ getCoverageGrid plot (removeOrphanedObstacles plot (rawObstacles wideLawn)) plotBox
                    (laneWidth wideLawn) (startPoint wideLawn) = Ret []
  ∧ (generateAll 50 plot wideLawn).1 = Thrown TypeError
  ∧ travelHeading (generateAll 50 plot wideLawn).2 = travelHeading wideLawn.
Proof.
  assert (getMinBoundingBox plot (mbbOrientation wideLawn) = Ret plotBox) as Hbox.
  { vm_compute. reflexivity. }
  assert (getCoverageGrid plot (removeOrphanedObstacles plot (rawObstacles wideLawn)) plotBox
            (laneWidth wideLawn) (startPoint wideLawn) = Ret []) as Hgrid.
  { reflexivity. }
  assert (getConvexHull plot = Some plot) as Hhull.
  { vm_compute. reflexivity. }
  split; [reflexivity|]. split; [exact Hhull|]. split; [exact Hbox|]. split; [exact Hgrid|].
  rewrite (empty_grid_stops_the_run 50 plot wideLawn plot plot plotBox eq_refl Hhull
             Hbox Hgrid).
  split; reflexivity.
Defined.

Lemma finished_run_witness :
  differenceObstaclesFromBoundary plot (rawObstacles bareLawn) = Some plot
  ∧ (generateAll 50 plot bareLawn).1 = Finished
  ∧ ((mowPath (generateAll 50 plot bareLawn).2 = None
      ∧ pathMarkers (generateAll 50 plot bareLawn).2 = pathMarkers bareLawn)
     ∨ ∃ p,
         mowPath (generateAll 50 plot bareLawn).2 = Some p ∧ (2 ≤ length p)%nat
         ∧ spaced (ndiv (laneWidth bareLawn) (dec 2 0)) p
         ∧ pathMarkers (generateAll 50 plot bareLawn).2
           = Some (createPathMarkers p (laneWidth bareLawn))).
Proof.
  assert ((generateAll 50 plot bareLawn).1 = Finished) as Hdone.
  { vm_compute. reflexivity. }
  split; [reflexivity|]. split; [exact Hdone|].
  exact (finished_run_stores_a_pruned_path_and_its_markers 50 plot bareLawn plot eq_refl Hdone).
Defined.

End Examples.
